(** * PortfolioOptimization: the search core of [utils.py] and
      [portfolio_optimizer.py], embedded in Rocq.

    Floating-point numbers are idealised as exact numbers extended with the
    IEEE non-finite values, and the results of [np.sqrt] are kept exactly,
    as signed squares; Python exceptions are values of [exn] carried by
    [result]; the process-global random generator of NumPy is an explicit
    stream of draws that is threaded through the calls, and the recursion
    limit of the interpreter is an explicit depth.  Of the scripts around
    the core, the re-evaluation of a stored portfolio (testing.py) and the
    naming and choice of result files (io_funcs.py, testing.py) are
    embedded as well. *)

From Stdlib Require Import String.
From Stdlib Require Import Reals Qreals Lra.
From Stdlib Require Import List Arith ZArith QArith Qabs Lia Lqa Bool
  Sorted Permutation.
Import ListNotations.

#[local] Set Warnings "-abstract-large-number".

Close Scope R_scope.
Close Scope Q_scope.
Open Scope string_scope.
Open Scope nat_scope.
Open Scope list_scope.

(* ================================================================= *)
(** * Part I: definitions *)
(* ================================================================= *)

(** ** Python exceptions *)

Inductive exn : Type :=
| RecursionError
| ZeroDivisionError
| IndexError
| KeyError
| ValueError (msg : string).

Inductive result (A : Type) : Type :=
| Ok (a : A)
| Raise (e : exn).

Arguments Ok {A} a.
Arguments Raise {A} e.

Definition bind {A B} (m : result A) (k : A -> result B) : result B :=
  match m with
  | Ok a => k a
  | Raise e => Raise e
  end.

Notation "x <- m ;; k" := (bind m (fun x => k))
  (at level 61, m at next level, right associativity).

Definition is_ok {A} (m : result A) : bool :=
  match m with Ok _ => true | Raise _ => false end.

(** ** Floating-point numbers

    A double is idealised as an exact rational or one of the three
    non-finite values.  Rounding and the sign of zero are left out; what
    NumPy does at a zero divisor, an overflow to infinity or an undefined
    operation is kept. *)

Inductive float : Type :=
| Fin (q : Q)
| PInf
| NInf
| NaN.

Definition is_nan (a : float) : bool :=
  match a with NaN => true | _ => false end.

Definition is_finite (a : float) : bool :=
  match a with Fin _ => true | _ => false end.

(** The infinity with the sign of [q] times the sign [positive]; NaN for
    a zero [q]. *)
Definition signed_inf (positive : bool) (q : Q) : float :=
  match (q ?= 0)%Q with
  | Gt => if positive then PInf else NInf
  | Lt => if positive then NInf else PInf
  | Eq => NaN
  end.

Definition fneg (a : float) : float :=
  match a with
  | Fin x => Fin (- x)%Q
  | PInf => NInf
  | NInf => PInf
  | NaN => NaN
  end.

Definition fadd (a b : float) : float :=
  match a, b with
  | NaN, _ | _, NaN => NaN
  | Fin x, Fin y => Fin (x + y)%Q
  | PInf, NInf | NInf, PInf => NaN
  | PInf, _ | _, PInf => PInf
  | NInf, _ | _, NInf => NInf
  end.

Definition fsub (a b : float) : float := fadd a (fneg b).

Definition fmul (a b : float) : float :=
  match a, b with
  | NaN, _ | _, NaN => NaN
  | Fin x, Fin y => Fin (x * y)%Q
  | Fin x, PInf | PInf, Fin x => signed_inf true x
  | Fin x, NInf | NInf, Fin x => signed_inf false x
  | PInf, PInf | NInf, NInf => PInf
  | PInf, NInf | NInf, PInf => NInf
  end.

(** NumPy's [/] on doubles: a zero divisor gives an infinity or NaN (with a
    warning), never an exception. *)
Definition fdiv (a b : float) : float :=
  match a, b with
  | NaN, _ | _, NaN => NaN
  | Fin x, Fin y =>
      if Qeq_bool y 0 then signed_inf true x else Fin (x / y)%Q
  | Fin _, PInf | Fin _, NInf => Fin 0
  | PInf, Fin y => if Qle_bool 0 y then PInf else NInf
  | NInf, Fin y => if Qle_bool 0 y then NInf else PInf
  | PInf, PInf | PInf, NInf | NInf, PInf | NInf, NInf => NaN
  end.

(** [a < b] on doubles; every comparison with NaN is false. *)
Definition flt_b (a b : float) : bool :=
  match a, b with
  | NaN, _ | _, NaN => false
  | Fin x, Fin y => match (x ?= y)%Q with Lt => true | _ => false end
  | NInf, NInf | PInf, _ | _, NInf => false
  | NInf, _ | _, PInf => true
  end.

Definition fgt_b (a b : float) : bool := flt_b b a.

(** [a <= b] on doubles. *)
Definition fle_b (a b : float) : bool :=
  match a, b with
  | NaN, _ | _, NaN => false
  | Fin x, Fin y => Qle_bool x y
  | NInf, _ | _, PInf => true
  | PInf, _ | _, NInf => false
  end.

(** [a == 0.0]. *)
Definition is_zero (a : float) : bool :=
  match a with Fin x => Qeq_bool x 0 | _ => false end.

(** The same double, up to the representation of the rational. *)
Definition feq (a b : float) : Prop :=
  match a, b with
  | Fin x, Fin y => (x == y)%Q
  | PInf, PInf | NInf, NInf | NaN, NaN => True
  | _, _ => False
  end.

(** A double that is the result of [np.sqrt], or a product or quotient of
    such results.  The source takes square roots of rational quantities
    only (a variance, the constant 252) and afterwards only multiplies,
    divides and compares them, so every such number is [sgn(s) * sqrt |s|]
    for a rational [s] (or non-finite).  It is kept as [s], its signed
    square: [x |-> sgn(x) * x^2] is an increasing bijection of the reals
    that commutes with product and quotient, so these operations and the
    order are computed exactly on the signed squares. *)
Record rfloat : Type := Root { signed_square : float }.

(** [np.sqrt]: NaN below zero. *)
Definition np_sqrt (a : float) : rfloat :=
  match a with
  | Fin x => if Qle_bool 0 x then Root (Fin x) else Root NaN
  | PInf => Root PInf
  | NInf => Root NaN
  | NaN => Root NaN
  end.

(** A rational double seen among the roots: [x = sgn(x) * sqrt (x^2)]. *)
Definition to_root (a : float) : rfloat :=
  match a with
  | Fin x => Root (Fin (x * Qabs x)%Q)
  | other => Root other
  end.

Definition rmul (a b : rfloat) : rfloat :=
  Root (fmul (signed_square a) (signed_square b)).

Definition rdiv (a b : rfloat) : rfloat :=
  Root (fdiv (signed_square a) (signed_square b)).

Definition rgt_b (a b : rfloat) : bool :=
  fgt_b (signed_square a) (signed_square b).

Definition rle_b (a b : rfloat) : bool :=
  fle_b (signed_square a) (signed_square b).

Definition r_is_nan (a : rfloat) : bool := is_nan (signed_square a).

Definition r_is_zero (a : rfloat) : bool := is_zero (signed_square a).

Definition r_is_finite (a : rfloat) : bool := is_finite (signed_square a).

Definition req (a b : rfloat) : Prop :=
  feq (signed_square a) (signed_square b).

(** The real number that a finite root stands for: [sgn(s) * sqrt |s|] for
    the signed square [s]. *)
Definition root_value (s : Q) : R :=
  if Qle_bool 0 s then sqrt (Q2R s) else (- sqrt (Q2R (- s)))%R.

Definition real_of_root (a : rfloat) : R :=
  match signed_square a with
  | Fin s => root_value s
  | _ => 0%R
  end.

(** Python's [/] on two [float] objects: a zero divisor raises. *)
Definition py_truediv (a b : rfloat) : result rfloat :=
  if r_is_zero b then Raise ZeroDivisionError else Ok (rdiv a b).

(** ** [calculate_daily_returns] (utils.py)

    A pandas frame is its column labels and its rows of values (the date
    index plays no role).  The price frame handed over by the loader has no
    missing value, so its cells are rationals; the cells of a result are
    doubles. *)

Record DataFrame (V : Type) : Type :=
  { columns : list string; values : list (list V) }.

Arguments columns {V} d.
Arguments values {V} d.

(** One cell of [pct_change]: [cur / prev - 1]. *)
Definition pct (prev cur : Q) : float :=
  fsub (fdiv (Fin cur) (Fin prev)) (Fin 1).

Definition pct_row (prev cur : list Q) : list float :=
  map (fun pc => pct (fst pc) (snd pc)) (combine prev cur).

Fixpoint pct_change_from (prev : list Q) (rows : list (list Q))
  : list (list float) :=
  match rows with
  | [] => []
  | row :: rest => pct_row prev row :: pct_change_from row rest
  end.

(** [DataFrame.pct_change()]: the first row has no predecessor and is NaN
    in every column. *)
Definition pct_change (prices : DataFrame Q) : DataFrame float :=
  {| columns := columns prices;
     values := match values prices with
               | [] => []
               | first :: rest =>
                   map (fun _ => NaN) first :: pct_change_from first rest
               end |}.

(** [DataFrame.dropna()]: drops every row that holds a NaN. *)
Definition dropna (df : DataFrame float) : DataFrame float :=
  {| columns := columns df;
     values := filter (forallb (fun v => negb (is_nan v))) (values df) |}.

(** utils.py, [calculate_daily_returns]:
    [return prices.pct_change().dropna()]. *)
Definition calculate_daily_returns (prices : DataFrame Q)
  : result (DataFrame float) :=
  Ok (dropna (pct_change prices)).

(** Every row has one cell per column. *)
Definition well_formed {V : Type} (df : DataFrame V) : Prop :=
  Forall (fun row => length row = length (columns df)) (values df).

(** Some column holds a zero price directly followed by a zero price. *)
Fixpoint zero_pair_from (prev : list Q) (rows : list (list Q)) : bool :=
  match rows with
  | [] => false
  | row :: rest =>
      existsb (fun pc => Qeq_bool (fst pc) 0 && Qeq_bool (snd pc) 0)
              (combine prev row)
      || zero_pair_from row rest
  end.

Definition has_zero_pair (rows : list (list Q)) : bool :=
  match rows with
  | [] => false
  | first :: rest => zero_pair_from first rest
  end.

(** ** [generate_valid_weights] (utils.py) *)

(** [np.sum] of a vector of doubles. *)
Definition fsum (v : list float) : float := fold_right fadd (Fin 0) v.

Definition Qsum (v : list Q) : Q := fold_right Qplus 0%Q v.

(** The state of NumPy's global generator: the doubles of [0, 1) it will
    hand out from now on. *)
Definition rng : Type := nat -> Q.

Definition in_unit_interval (s : rng) : Prop :=
  forall i, (0 <= s i)%Q /\ (s i < 1)%Q.

Definition advance (s : rng) (n : nat) : rng := fun i => s (n + i).

Definition draws (s : rng) (n : nat) : list Q := map s (seq 0 n).

Fixpoint random_rows (s : rng) (rows cols : nat) : list (list Q) :=
  match rows with
  | O => []
  | S rows' => draws s cols :: random_rows (advance s cols) rows' cols
  end.

(** [np.random.random((rows, cols))], filled row by row, and the state the
    generator is left in. *)
Definition np_random_random (s : rng) (rows cols : nat)
  : list (list Q) * rng :=
  (random_rows s rows cols, advance s (rows * cols)).

(** One row of [weights / weights.sum(axis=1, keepdims=True)]. *)
Definition normalize_row (row : list Q) : list float :=
  map (fun x => fdiv (Fin x) (Fin (Qsum row))) row.

(** One entry of [np.all(weights <= 0.2, axis=1)]. *)
Definition within_cap (row : list float) : bool :=
  forallb (fun w => fle_b w (Fin (2 # 10))) row.

(** [depth] is the number of frames the interpreter still allows: Python
    ends a recursion that exceeds its limit with [RecursionError]. *)
Fixpoint generate_valid_weights (depth : nat) (s : rng)
    (n_assets n_simulations : nat) : result (list (list float)) * rng :=
  match depth with
  | O => (Raise RecursionError, s)
  | S depth' =>
      let multiplier := 3 in
      let target_weights := Nat.min (n_simulations * multiplier) 10000 in
      let (weights, s') := np_random_random s target_weights n_assets in
      let weights := map normalize_row weights in
      let valid_weights := filter within_cap weights in
      if length valid_weights <? n_simulations
      then generate_valid_weights depth' s' n_assets n_simulations
      else (Ok (firstn n_simulations valid_weights), s')
  end.

(** ** The metrics kernel (utils.py)

    A two-dimensional array is its number of columns and its rows; the
    number of columns survives in NumPy when there is no row. *)

Record Matrix : Type := { mat_cols : nat; mat_rows : list (list float) }.

Definition shape_ok (a : Matrix) : Prop :=
  Forall (fun row => length row = mat_cols a) (mat_rows a).

Definition column (j : nat) (rows : list (list float)) : list float :=
  map (fun row => nth j row NaN) rows.

(** The dot product of two vectors of equal length. *)
Definition fdot (u v : list float) : float :=
  fsum (map (fun p => fmul (fst p) (snd p)) (combine u v)).

Definition shape_error : exn :=
  ValueError "operands could not be broadcast together or shapes not aligned".

(** [np.mean(a, axis=0)]: one mean per column; 0/0 = NaN without rows. *)
Definition np_mean_axis0 (a : Matrix) : list float :=
  map (fun j => fdiv (fsum (column j (mat_rows a)))
                     (Fin (inject_Z (Z.of_nat (length (mat_rows a))))))
      (seq 0 (mat_cols a)).

(** [np.mean(returns_array, axis=0) * 252]. *)
Definition annual_mean_returns (returns_array : Matrix) : list float :=
  map (fun m => fmul m (Fin 252)) (np_mean_axis0 returns_array).

(** What [np.cov] returns: [c.squeeze()] turns the 1 x 1 covariance of a
    single variable into a zero-dimensional array. *)
Inductive cov_array : Type :=
| CovScalar (c : float)
| CovMatrix (m : list (list float)).

(** [np.cov(a.T)]: the variables are the columns of [a], the observations
    its rows.  [fact = N - 1], set to [0.0] (with a warning) when that is
    not positive; the products of deviations are scaled by [1 / fact]. *)
Definition deviations (a : Matrix) (j : nat) : list float :=
  map (fun x => fsub x (nth j (np_mean_axis0 a) NaN))
      (column j (mat_rows a)).

Definition cov_entry (a : Matrix) (j k : nat) : float :=
  let N := length (mat_rows a) in
  let fact := inject_Z (Z.of_nat (N - 1)) in
  fmul (fdot (deviations a j) (deviations a k)) (fdiv (Fin 1) (Fin fact)).

Definition np_cov_T (a : Matrix) : cov_array :=
  match mat_cols a with
  | 0 => CovMatrix []
  | 1 => CovScalar (cov_entry a 0 0)
  | n => CovMatrix (map (fun j => map (fun k => cov_entry a j k) (seq 0 n))
                        (seq 0 n))
  end.

(** [weights_batch @ mean_returns]: a matrix times a vector. *)
Definition matvec (m : Matrix) (v : list float) : result (list float) :=
  if mat_cols m =? length v
  then Ok (map (fun row => fdot row v) (mat_rows m))
  else Raise shape_error.

(** [np.dot(weights_batch, cov_matrix.T)]; a zero-dimensional second
    operand multiplies every entry. *)
Definition dot_cov_T (weights_batch : Matrix) (cov : cov_array)
  : result (list (list float)) :=
  match cov with
  | CovScalar c => Ok (map (map (fun w => fmul w c)) (mat_rows weights_batch))
  | CovMatrix m =>
      if mat_cols weights_batch =? length m
      then Ok (map (fun row => map (fun cov_row => fdot row cov_row) m)
                   (mat_rows weights_batch))
      else Raise shape_error
  end.

(** [np.sum(cov_w * weights_batch, axis=1)]. *)
Definition row_products_sum (a b : list (list float)) : list float :=
  map (fun rows => fdot (fst rows) (snd rows)) (combine a b).

(** Exact counterparts on rationals, for vectors whose entries are all
    finite. *)
Definition to_Q (a : float) : Q :=
  match a with Fin q => q | _ => 0%Q end.

Definition Qdot (u v : list Q) : Q :=
  Qsum (map (fun p => (fst p * snd p)%Q) (combine u v)).

Definition finite_vector (v : list float) : Prop :=
  Forall (fun x => is_finite x = true) v.

Definition finite_matrix (a : Matrix) : Prop :=
  Forall finite_vector (mat_rows a).

Definition nan_vector (v : list float) : Prop :=
  Forall (fun x => x = NaN) v.

(** utils.py, [calculate_portfolio_metrics_vectorized]. *)
Definition calculate_portfolio_metrics_vectorized
    (returns_array weights_batch : Matrix)
  : result (list rfloat * list float * list rfloat) :=
  let mean_returns := annual_mean_returns returns_array in
  portfolio_returns <- matvec weights_batch mean_returns ;;
  let cov_matrix := np_cov_T returns_array in
  cov_w <- dot_cov_T weights_batch cov_matrix ;;
  let portfolio_variances :=
    row_products_sum cov_w (mat_rows weights_batch) in
  let portfolio_volatilities :=
    map (fun v => rmul (np_sqrt v) (np_sqrt (Fin 252))) portfolio_variances in
  let sharpe_ratios :=
    map (fun rv => rdiv (to_root (fst rv)) (snd rv))
        (combine portfolio_returns portfolio_volatilities) in
  Ok (sharpe_ratios, portfolio_returns, portfolio_volatilities).

(** [a * b] on two vectors, with NumPy's broadcasting of a length-1
    operand. *)
Definition broadcast_mul (a b : list float) : result (list float) :=
  if length a =? length b
  then Ok (map (fun p => fmul (fst p) (snd p)) (combine a b))
  else match a, b with
       | [x], _ => Ok (map (fun y => fmul x y) b)
       | _, [y] => Ok (map (fun x => fmul x y) a)
       | _, _ => Raise shape_error
       end.

(** utils.py, [calculate_portfolio_return]. *)
Definition calculate_portfolio_return (returns_array : Matrix)
    (weights : list float) : result float :=
  let mean_returns := annual_mean_returns returns_array in
  products <- broadcast_mul mean_returns weights ;;
  Ok (fsum products).

(** [np.cov(...) * 252]. *)
Definition scale_cov (cov : cov_array) (c : float) : cov_array :=
  match cov with
  | CovScalar x => CovScalar (fmul x c)
  | CovMatrix m => CovMatrix (map (map (fun x => fmul x c)) m)
  end.

(** [weights @ cov_matrix @ weights]: [matmul] rejects a zero-dimensional
    operand. *)
Definition quadratic_form (weights : list float) (cov : cov_array)
  : result float :=
  match cov with
  | CovScalar _ =>
      Raise (ValueError "matmul: Input operand 1 does not have enough dimensions")
  | CovMatrix m =>
      if length weights =? length m
      then let wc := map (fun k => fdot weights (column k m))
                         (seq 0 (length m)) in
           Ok (fdot wc weights)
      else Raise shape_error
  end.

(** utils.py, [calculate_portfolio_volatility]. *)
Definition calculate_portfolio_volatility (returns_array : Matrix)
    (weights : list float) : result rfloat :=
  let cov_matrix := scale_cov (np_cov_T returns_array) (Fin 252) in
  portfolio_variance <- quadratic_form weights cov_matrix ;;
  Ok (np_sqrt portfolio_variance).

(** utils.py, [calculate_sharpe_ratio]: the two operands of the division
    are Python floats. *)
Definition calculate_sharpe_ratio (returns_array : Matrix)
    (weights : list float) : result rfloat :=
  portfolio_return <- calculate_portfolio_return returns_array weights ;;
  portfolio_volatility <-
    calculate_portfolio_volatility returns_array weights ;;
  py_truediv (to_root portfolio_return) portfolio_volatility.

(** ** [find_best_portfolio_from_batch] (utils.py) *)

(** A portfolio record, the dictionary that [find_best_portfolio_from_batch]
    returns. *)
Record Portfolio : Type :=
  { stocks : list string;
    weights : list (string * float);
    sharpe_ratio : rfloat;
    annual_return : float;
    annual_volatility : rfloat }.

(** [d[k] = v] on a dictionary kept in insertion order. *)
Fixpoint dict_set {V : Type} (k : string) (v : V) (d : list (string * V))
  : list (string * V) :=
  match d with
  | [] => [(k, v)]
  | (k', v') :: rest =>
      if string_dec k k' then (k, v) :: rest
      else (k', v') :: dict_set k v rest
  end.

(** [{k: v for k, v in pairs}]. *)
Definition dict_of_pairs {V : Type} (pairs : list (string * V))
  : list (string * V) :=
  fold_left (fun d kv => dict_set (fst kv) (snd kv) d) pairs [].

(** [d[k]]. *)
Fixpoint dict_get {V : Type} (d : list (string * V)) (k : string)
  : result V :=
  match d with
  | [] => Raise KeyError
  | (k', v) :: rest => if string_dec k k' then Ok v else dict_get rest k
  end.

(** [l[i]] for a non-negative index. *)
Definition getitem {A : Type} (l : list A) (i : nat) : result A :=
  match nth_error l i with
  | Some x => Ok x
  | None => Raise IndexError
  end.

(** The scan of [np.argmax] over doubles: the running maximum [mp] is
    replaced by every entry [x] with [not (x <= mp)], and the scan stops at
    the first NaN. *)
Fixpoint argmax_scan (mp : rfloat) (max_ind i : nat) (l : list rfloat)
  : nat :=
  match l with
  | [] => max_ind
  | x :: rest =>
      if negb (rle_b x mp)
      then if r_is_nan x then i else argmax_scan x i (S i) rest
      else argmax_scan mp max_ind (S i) rest
  end.

Definition np_argmax (l : list rfloat) : result nat :=
  match l with
  | [] => Raise (ValueError "attempt to get argmax of an empty sequence")
  | mp :: rest =>
      if r_is_nan mp then Ok 0 else Ok (argmax_scan mp 0 1 rest)
  end.

(** utils.py, [find_best_portfolio_from_batch]. *)
Definition find_best_portfolio_from_batch
    (returns_array weights_batch : Matrix) (combination : list string)
  : result Portfolio :=
  metrics <-
    calculate_portfolio_metrics_vectorized returns_array weights_batch ;;
  let '(sharpe_ratios, returns, volatilities) := metrics in
  best_idx <- np_argmax sharpe_ratios ;;
  best_weights <- getitem (mat_rows weights_batch) best_idx ;;
  let weights_dict := dict_of_pairs (combine combination best_weights) in
  best_sharpe <- getitem sharpe_ratios best_idx ;;
  best_return <- getitem returns best_idx ;;
  best_volatility <- getitem volatilities best_idx ;;
  Ok {| stocks := combination;
        weights := weights_dict;
        sharpe_ratio := best_sharpe;
        annual_return := best_return;
        annual_volatility := best_volatility |}.

(** ** [process_stock_combination] (portfolio_optimizer.py) *)

(** [returns_array[:, column_indices]]: an index past the last column
    raises. *)
Definition select_columns (returns_array : Matrix) (column_indices : list nat)
  : result Matrix :=
  if forallb (fun j => j <? mat_cols returns_array) column_indices
  then Ok {| mat_cols := length column_indices;
             mat_rows := map (fun row => map (fun j => nth j row NaN)
                                             column_indices)
                             (mat_rows returns_array) |}
  else Raise IndexError.

(** The body of the [try] block; the generator state comes back with the
    outcome. *)
Definition process_stock_combination_try (depth : nat) (s : rng)
    (combination : list string) (returns_array : Matrix)
    (column_indices : list nat) (n_simulations : nat)
  : result Portfolio * rng :=
  match select_columns returns_array column_indices with
  | Raise e => (Raise e, s)
  | Ok selected_returns =>
      match generate_valid_weights depth s (length combination)
                                   n_simulations with
      | (Raise e, s') => (Raise e, s')
      | (Ok weight_rows, s') =>
          let weights_batch :=
            {| mat_cols := length combination; mat_rows := weight_rows |} in
          (find_best_portfolio_from_batch selected_returns weights_batch
                                          combination, s')
      end
  end.

(** [except Exception as e: print(...); return None]. *)
Definition process_stock_combination (depth : nat) (s : rng)
    (combination : list string) (returns_array : Matrix)
    (column_indices : list nat) (n_simulations : nat)
  : option Portfolio * rng :=
  match process_stock_combination_try depth s combination returns_array
          column_indices n_simulations with
  | (Ok portfolio, s') => (Some portfolio, s')
  | (Raise _, s') => (None, s')
  end.

(** ** The reduction of [optimize_portfolio] and
       [optimize_portfolio_sequential] *)

Definition no_valid_portfolios : exn :=
  ValueError "No valid portfolios found. All combinations failed.".

(** Python's [max(results, key=lambda x: x['sharpe_ratio'])]: the first
    item is kept until a later one compares strictly greater. *)
Fixpoint py_max_from (best : Portfolio) (rest : list Portfolio) : Portfolio :=
  match rest with
  | [] => best
  | x :: rest' =>
      if rgt_b (sharpe_ratio x) (sharpe_ratio best)
      then py_max_from x rest'
      else py_max_from best rest'
  end.

(** Lines 105-111 and 149-155: [if not results: raise ValueError(...)],
    then the maximum by Sharpe ratio. *)
Definition reduce_results (results : list Portfolio) : result Portfolio :=
  match results with
  | [] => Raise no_valid_portfolios
  | first :: rest => Ok (py_max_from first rest)
  end.

(** Line 103: [[portfolio for chunk in chunk_results for portfolio in chunk
    if portfolio is not None]]. *)
Definition flatten_chunk_results
    (chunk_results : list (list (option Portfolio))) : list Portfolio :=
  flat_map (fun chunk =>
              flat_map (fun portfolio =>
                          match portfolio with
                          | Some p => [p]
                          | None => []
                          end) chunk)
           chunk_results.

(** The reduction of the parallel path, lines 102-111. *)
Definition reduce_parallel (chunk_results : list (list (option Portfolio)))
  : result Portfolio :=
  reduce_results (flatten_chunk_results chunk_results).

(** The reduction of the sequential path, lines 149-155. *)
Definition reduce_sequential (results : list Portfolio) : result Portfolio :=
  reduce_results results.

(** ** [itertools.combinations] and [get_stock_combinations]

    [itertools.combinations(pool, r)] is library code: it yields the
    [r]-length subsequences of [pool], elements taken by position, in
    lexicographic order of the positions.  The first element either heads
    the tuple or is skipped. *)

Fixpoint combinations {A : Type} (pool : list A) (r : nat) : list (list A) :=
  match pool, r with
  | _, O => [[]]
  | [], S _ => []
  | x :: rest, S r' =>
      map (cons x) (combinations rest r') ++ combinations rest r
  end.

(** utils.py, [get_stock_combinations]:
    [return list(combinations(all_stocks, n_select))]. *)
Definition get_stock_combinations (all_stocks : list string) (n_select : nat)
  : list (list string) :=
  combinations all_stocks n_select.

(** The loop of the pure-Python equivalent given in the documentation of
    [itertools.combinations]: from the right, find the first index that is
    not at its final value [i + n - r], increment it, and reset the indices
    to its right in increasing order. *)
Fixpoint next_indices (n r i : nat) (indices : list nat)
  : option (list nat) :=
  match indices with
  | [] => None
  | x :: rest =>
      match next_indices n r (S i) rest with
      | Some rest' => Some (x :: rest')
      | None =>
          if x =? i + n - r then None
          else Some (seq (S x) (S (length rest)))
      end
  end.

Fixpoint combinations_loop (fuel n r : nat) (indices : list nat)
  : list (list nat) :=
  match fuel with
  | O => []
  | S fuel' =>
      indices ::
      match next_indices n r 0 indices with
      | Some indices' => combinations_loop fuel' n r indices'
      | None => []
      end
  end.

(** The binomial coefficient C(n, k), by Pascal's rule. *)
Fixpoint choose (n k : nat) : nat :=
  match n, k with
  | _, O => 1
  | O, S _ => 0
  | S n', S k' => choose n' k' + choose n' k
  end.

(** Position of the first occurrence of [s] in [l] ([length l] if absent). *)
Fixpoint index_of (s : string) (l : list string) : nat :=
  match l with
  | [] => 0
  | x :: t => if string_dec s x then 0 else S (index_of s t)
  end.

(** Strict lexicographic order on tuples of positions. *)
Fixpoint lex_lt (a b : list nat) : Prop :=
  match a, b with
  | [], [] => False
  | [], _ :: _ => True
  | _ :: _, [] => False
  | x :: a', y :: b' => x < y \/ (x = y /\ lex_lt a' b')
  end.

(** The order on tuples of symbols induced by the input order of the
    universe. *)
Definition tuple_lt (universe : list string) (t1 t2 : list string) : Prop :=
  lex_lt (map (fun s => index_of s universe) t1)
         (map (fun s => index_of s universe) t2).

(** Two tuples hold the same set of symbols. *)
Definition same_symbols (t1 t2 : list string) : Prop :=
  forall s, In s t1 <-> In s t2.

(** [t] is a subsequence of [l]. *)
Inductive subseq {A : Type} : list A -> list A -> Prop :=
| subseq_nil : forall l, subseq [] l
| subseq_take : forall x t l, subseq t l -> subseq (x :: t) (x :: l)
| subseq_skip : forall x t l, subseq t l -> subseq t (x :: l).

(** [combinations] by the loop over index tuples, [fuel] bounding the
    number of tuples. *)
Definition combinations_by_indices (fuel : nat) (pool : list string)
    (r : nat) : list (list string) :=
  let n := length pool in
  if n <? r then []
  else map (map (fun i => nth i pool ""))
           (combinations_loop fuel n r (seq 0 r)).

(** ** Chunking in [optimize_portfolio] (portfolio_optimizer.py) *)

(** [np.array_split(ary, Nsections)]: the first [Ntotal % Nsections]
    sections hold [Ntotal // Nsections + 1] items, the others
    [Ntotal // Nsections]. *)
Definition section_sizes (Ntotal Nsections : nat) : list nat :=
  repeat (S (Ntotal / Nsections)) (Ntotal mod Nsections)
  ++ repeat (Ntotal / Nsections) (Nsections - Ntotal mod Nsections).

Fixpoint split_at_sizes {A : Type} (sizes : list nat) (ary : list A)
  : list (list A) :=
  match sizes with
  | [] => []
  | s :: rest => firstn s ary :: split_at_sizes rest (skipn s ary)
  end.

Definition array_split {A : Type} (ary : list A) (Nsections : Z)
  : result (list (list A)) :=
  if (Nsections <=? 0)%Z
  then Raise (ValueError "number sections must be larger than 0.")
  else Ok (split_at_sizes
             (section_sizes (length ary) (Z.to_nat Nsections)) ary).

(** Python's [a // b] on integers: floor division, which is [Z.div];
    a zero divisor raises. *)
Definition floordiv (a b : Z) : result Z :=
  if (b =? 0)%Z then Raise ZeroDivisionError else Ok (a / b)%Z.

(** Lines 80-89: the chunk size when the caller supplies [None]. *)
Definition auto_chunk_size (total_combinations n_workers : Z) : result Z :=
  let chunks_per_worker := 4%Z in
  q <- floordiv total_combinations (n_workers * chunks_per_worker) ;;
  let chunk_size := Z.max 1 q in
  let chunk_size := Z.min chunk_size 250 in
  Ok chunk_size.

(** Line 92: [n_chunks = max(1, len(combinations) // chunk_size)]. *)
Definition n_chunks_for (total_combinations chunk_size : Z) : result Z :=
  q <- floordiv total_combinations chunk_size ;;
  Ok (Z.max 1 q).

(** Lines 80-93 of [optimize_portfolio]. *)
Definition split_into_chunks {A : Type} (combinations : list A)
    (n_workers : Z) (chunk_size : option Z) : result (list (list A)) :=
  chunk_size <-
    match chunk_size with
    | None => auto_chunk_size (Z.of_nat (length combinations)) n_workers
    | Some c => Ok c
    end ;;
  n_chunks <- n_chunks_for (Z.of_nat (length combinations)) chunk_size ;;
  array_split combinations n_chunks.

(** ** The two optimisation paths (portfolio_optimizer.py) *)

(** [returns.values]. *)
Definition frame_values (returns : DataFrame float) : Matrix :=
  {| mat_cols := length (columns returns); mat_rows := values returns |}.

(** [{stock: i for i, stock in enumerate(returns.columns)}]. *)
Definition column_map_of (cols : list string) : list (string * nat) :=
  dict_of_pairs (combine cols (seq 0 (length cols))).

(** [[column_map[stock] for stock in combination]]. *)
Fixpoint lookup_columns (column_map : list (string * nat))
    (combination : list string) : result (list nat) :=
  match combination with
  | [] => Ok []
  | stock :: rest =>
      i <- dict_get column_map stock ;;
      indices <- lookup_columns column_map rest ;;
      Ok (i :: indices)
  end.

(** The loop over combinations, the same in [process_combinations_chunk]
    (lines 39-50) and in [optimize_portfolio_sequential] (lines 136-147):
    a combination that fails is skipped, a record that is not null is
    appended.  The generator state runs from one combination to the
    next. *)
Fixpoint process_combinations (depth : nat) (s : rng)
    (combinations_chunk : list (list string)) (returns_array : Matrix)
    (column_map : list (string * nat)) (n_simulations : nat)
  : list Portfolio * rng :=
  match combinations_chunk with
  | [] => ([], s)
  | combination :: rest =>
      match lookup_columns column_map combination with
      | Raise _ =>
          process_combinations depth s rest returns_array column_map
                               n_simulations
      | Ok indices =>
          let (outcome, s') :=
            process_stock_combination depth s combination returns_array
                                      indices n_simulations in
          let (results, s'') :=
            process_combinations depth s' rest returns_array column_map
                                 n_simulations in
          (match outcome with
           | Some portfolio => portfolio :: results
           | None => results
           end, s'')
      end
  end.

(** [optimize_portfolio_sequential]. *)
Definition optimize_portfolio_sequential (depth : nat) (s : rng)
    (prices : DataFrame Q) (n_select n_simulations : nat)
  : result Portfolio :=
  returns <- calculate_daily_returns prices ;;
  let returns_array := frame_values returns in
  let column_map := column_map_of (columns returns) in
  let all_stocks := columns prices in
  let combinations := get_stock_combinations all_stocks n_select in
  let results :=
    fst (process_combinations depth s combinations returns_array column_map
                              n_simulations) in
  reduce_sequential results.

(** [optimize_portfolio].  [pool.map] runs [process_combinations_chunk] on
    every chunk in a worker process and returns the lists in the order of
    the chunks.  The NumPy generator is global to a process, and the
    source hands no generator state to the workers: [worker_rng i] is the
    state of the generator of the process that runs chunk [i] when it
    starts on it, which the operating system and the scheduling of the
    pool decide. *)
Definition optimize_portfolio (depth : nat) (worker_rng : nat -> rng)
    (prices : DataFrame Q) (n_select n_simulations : nat)
    (n_workers : Z) (chunk_size : option Z) : result Portfolio :=
  returns <- calculate_daily_returns prices ;;
  let returns_array := frame_values returns in
  let column_map := column_map_of (columns returns) in
  let all_stocks := columns prices in
  let combinations := get_stock_combinations all_stocks n_select in
  chunks <- split_into_chunks combinations n_workers chunk_size ;;
  if (n_workers <? 1)%Z
  then Raise (ValueError "Number of processes must be at least 1")
  else
    let chunk_results :=
      map (fun ic =>
             fst (process_combinations depth (worker_rng (fst ic)) (snd ic)
                    returns_array column_map n_simulations))
          (combine (seq 0 (length chunks)) chunks) in
    reduce_parallel (map (map Some) chunk_results).

(** ** [evaluate_portfolio] (utils.py) and the re-evaluation of
       testing.py *)

(** The dictionary of the three metrics. *)
Record Metrics : Type :=
  { metrics_sharpe_ratio : rfloat;
    metrics_annual_return : float;
    metrics_annual_volatility : rfloat }.

(** utils.py, [evaluate_portfolio]: the entries of the dictionary display
    are evaluated in the order they are written. *)
Definition evaluate_portfolio (returns_array : Matrix)
    (weights : list float) : result Metrics :=
  sharpe <- calculate_sharpe_ratio returns_array weights ;;
  ret <- calculate_portfolio_return returns_array weights ;;
  vol <- calculate_portfolio_volatility returns_array weights ;;
  Ok {| metrics_sharpe_ratio := sharpe;
        metrics_annual_return := ret;
        metrics_annual_volatility := vol |}.



(** ** Result files (io_funcs.py, testing.py) *)

(** io_funcs.py, line 21: [f"portfolio_results_{timestamp}.json"]. *)
Definition results_file_name (timestamp : string) : string :=
  "portfolio_results_" ++ timestamp ++ ".json".

(** [s.startswith(p)] and [s.endswith(suffix)]. *)
Definition startswith (s p : string) : bool := prefix p s.

Definition endswith (s suffix : string) : bool :=
  (String.length suffix <=? String.length s)
  && String.eqb (substring (String.length s - String.length suffix)
                           (String.length suffix) s)
                suffix.

(** Python's [max] on strings, which are ordered by code points: the first
    item is kept until a later one compares strictly greater. *)
Fixpoint py_max_string_from (best : string) (rest : list string) : string :=
  match rest with
  | [] => best
  | x :: rest' =>
      if String.ltb best x
      then py_max_string_from x rest'
      else py_max_string_from best rest'
  end.

Inductive os_error : Type :=
| FileNotFoundError (msg : string).

(** testing.py, [load_latest_portfolio], lines 10-13: the name of the file
    that is opened, given the names that [os.listdir('.')] returns. *)
Definition latest_results_file (listing : list string)
  : string + os_error :=
  let files :=
    filter (fun f => startswith f "portfolio_results_" && endswith f ".json")
           listing in
  match files with
  | [] => inr (FileNotFoundError "No portfolio result files found.")
  | first :: rest => inl (py_max_string_from first rest)
  end.

(** ** Inputs used in the examples below *)

(** Two days on which each of five assets gains one percent: the returns
    of prices 100, 101, 102.01. *)
Definition flat_returns : Matrix :=
  {| mat_cols := 5;
     mat_rows := [ map Fin [1 # 100; 1 # 100; 1 # 100; 1 # 100; 1 # 100]%Q;
                   map Fin [1 # 100; 1 # 100; 1 # 100; 1 # 100; 1 # 100]%Q ] |}.

Definition equal_weights : list float :=
  map Fin [1 # 5; 1 # 5; 1 # 5; 1 # 5; 1 # 5]%Q.


(** Three days of returns of two assets. *)
Definition two_asset_returns : Matrix :=
  {| mat_cols := 2;
     mat_rows := [ map Fin [1 # 100; 2 # 100]%Q;
                   map Fin [3 # 100; - (1 # 100)]%Q;
                   map Fin [0; 1 # 100]%Q ] |}.

Definition two_asset_batch : Matrix :=
  {| mat_cols := 2;
     mat_rows := [ map Fin [1 # 2; 1 # 2]%Q; map Fin [1 # 4; 3 # 4]%Q ] |}.

(** Two days of returns of six assets: the first two move against each
    other, the others do not move. *)
Definition hedged_returns : Matrix :=
  {| mat_cols := 6;
     mat_rows := [ map Fin [3 # 100; - (3 # 100); 0; 0; 0; 0]%Q;
                   map Fin [- (1 # 100); 1 # 100; 0; 0; 0; 0]%Q ] |}.

Definition six_symbols : list string :=
  ["AAPL"; "AMGN"; "AXP"; "BA"; "CAT"; "CRM"].

(** A generator whose first two draws differ from all the others. *)
Definition uneven_stream : rng :=
  fun i => match i with
           | 0 => (11 # 20)%Q
           | 1 => (9 # 20)%Q
           | _ => (1 # 2)%Q
           end.

(** Price frames of one and of three rows. *)
Definition prices_one_row : DataFrame Q :=
  {| columns := ["AAPL"]; values := [[100%Q]] |}.

Definition prices_three_rows : DataFrame Q :=
  {| columns := ["AAPL"; "AMGN"];
     values := [[100%Q; 50%Q]; [110%Q; 40%Q]; [99%Q; 40%Q]] |}.

(** Three days of prices of seven assets. *)
Definition seven_prices : DataFrame Q :=
  {| columns := ["AAPL"; "AMGN"; "AXP"; "BA"; "CAT"; "CRM"; "CSCO"];
     values := [ [10; 10; 10; 10; 10; 10; 10]%Q;
                 [8; 11; 10; 11; 10; 11; 10]%Q;
                 [10; 11; 12; 11; 11; 12; 11]%Q ] |}.

Definition record_with_sharpe (name : string) (s : float) : Portfolio :=
  {| stocks := [name];
     weights := [(name, Fin 1)];
     sharpe_ratio := Root s;
     annual_return := Fin 0;
     annual_volatility := Root (Fin 1) |}.

(* ================================================================= *)
(** * Part II: properties *)
(* ================================================================= *)

(** ** Combinations *)

Section CombinationFacts.
Context {A : Type}.

Lemma combinations_length (pool : list A) :
  forall r, length (combinations pool r) = choose (length pool) r.
Proof.
  induction pool as [|x rest IH]; intros [|r]; simpl; auto.
  rewrite length_app, length_map, !IH. reflexivity.
Qed.

Lemma combinations_tuple_length (pool : list A) :
  forall r t, In t (combinations pool r) -> length t = r.
Proof.
  induction pool as [|x rest IH]; intros [|r] t; simpl; intros H.
  - destruct H as [<-|[]]; reflexivity.
  - contradiction.
  - destruct H as [<-|[]]; reflexivity.
  - apply in_app_or in H. destruct H as [H|H].
    + apply in_map_iff in H. destruct H as (t' & <- & H).
      simpl. f_equal. eauto.
    + eauto.
Qed.

Lemma combinations_subseq (pool : list A) :
  forall r t, In t (combinations pool r) -> subseq t pool.
Proof.
  induction pool as [|x rest IH]; intros [|r] t; simpl; intros H.
  - destruct H as [<-|[]]; constructor.
  - contradiction.
  - destruct H as [<-|[]]; constructor.
  - apply in_app_or in H. destruct H as [H|H].
    + apply in_map_iff in H. destruct H as (t' & <- & H).
      constructor. eauto.
    + constructor. eauto.
Qed.

Lemma subseq_In (t l : list A) :
  subseq t l -> forall x, In x t -> In x l.
Proof.
  induction 1; simpl; intros y Hy; try contradiction; intuition.
Qed.

Lemma subseq_NoDup (t l : list A) :
  subseq t l -> NoDup l -> NoDup t.
Proof.
  induction 1; intros Hl.
  - constructor.
  - inversion Hl; subst. constructor; auto.
    intros Hin. eapply subseq_In in Hin; eauto.
  - inversion Hl; subst. auto.
Qed.

(** Two subsequences of a duplicate-free list with the same elements are
    the same tuple. *)
Lemma subseq_same_elements (l : list A) :
  NoDup l ->
  forall t1 t2, subseq t1 l -> subseq t2 l ->
                (forall x, In x t1 <-> In x t2) -> t1 = t2.
Proof.
  induction 1 as [|x l Hx Hl IH]; intros t1 t2 H1 H2 Hsame.
  - inversion H1; inversion H2; subst; reflexivity.
  - assert (Hnot : forall t, subseq t l -> ~ In x t).
    { intros t Ht Hin. apply Hx. eapply subseq_In; eauto. }
    assert (Hcut : forall t, subseq t (x :: l) ->
              (exists t', t = x :: t' /\ subseq t' l) \/ subseq t l).
    { intros t Ht. inversion Ht; subst.
      - right. constructor.
      - left. eauto.
      - right. assumption. }
    destruct (Hcut _ H1) as [(u1 & -> & S1)|S1];
      destruct (Hcut _ H2) as [(u2 & -> & S2)|S2].
    + f_equal. apply IH; auto. intros y. split; intros Hy.
      * assert (Hin : In y (x :: u2)) by (apply Hsame; right; auto).
        destruct Hin as [<-|?]; auto. exfalso. apply (Hnot u1 S1 Hy).
      * assert (Hin : In y (x :: u1)) by (apply Hsame; right; auto).
        destruct Hin as [<-|?]; auto. exfalso. apply (Hnot u2 S2 Hy).
    + exfalso. apply (Hnot t2 S2). apply Hsame. left. reflexivity.
    + exfalso. apply (Hnot t1 S1). apply Hsame. left. reflexivity.
    + apply IH; auto.
Qed.

Lemma combinations_NoDup (pool : list A) :
  NoDup pool -> forall r, NoDup (combinations pool r).
Proof.
  induction 1 as [|x rest Hx Hrest IH]; intros [|r]; simpl.
  - repeat constructor. intros [].
  - constructor.
  - repeat constructor. intros [].
  - apply NoDup_app.
    + apply Finite.Injective_map_NoDup; auto.
      intros a b Hab. congruence.
    + apply IH.
    + intros t H1 H2. apply in_map_iff in H1.
      destruct H1 as (t' & <- & _).
      apply combinations_subseq in H2.
      apply Hx. eapply subseq_In; eauto. left. reflexivity.
Qed.

End CombinationFacts.

(** [choose] is the binomial coefficient: it vanishes above the diagonal and
    satisfies the factorial formula below it. *)
Lemma choose_above (n : nat) : forall k, n < k -> choose n k = 0.
Proof.
  induction n as [|n IH]; intros [|k] H; simpl; try lia.
  rewrite !IH by lia. reflexivity.
Qed.

Lemma choose_diag (n : nat) : choose n n = 1.
Proof.
  induction n as [|n IH]; simpl; auto.
  rewrite IH, choose_above by lia. reflexivity.
Qed.

Lemma choose_fact (n : nat) :
  forall k, k <= n -> choose n k * (fact k * fact (n - k)) = fact n.
Proof.
  induction n as [|n IH]; intros [|k] H.
  - reflexivity.
  - lia.
  - cbn [choose]. rewrite Nat.sub_0_r. cbn [fact]. lia.
  - cbn [choose]. replace (S n - S k) with (n - k) by lia.
    destruct (Nat.eq_dec k n) as [->|Hne].
    + rewrite choose_diag, choose_above, Nat.sub_diag by lia.
      cbn [fact]. lia.
    + pose proof (IH k ltac:(lia)) as H1.
      pose proof (IH (S k) ltac:(lia)) as H2.
      replace (n - k) with (S (n - S k)) in * by lia.
      change (fact (S n)) with (S n * fact n).
      change (fact (S k)) with (S k * fact k) in *.
      change (fact (S (n - S k))) with (S (n - S k) * fact (n - S k)) in *.
      replace (S n) with (S k + S (n - S k)) at 1 by lia.
      nia.
Qed.

Section SortedFacts.
Context {A : Type} (R : A -> A -> Prop).

Lemma StronglySorted_app (l1 l2 : list A) :
  StronglySorted R l1 -> StronglySorted R l2 ->
  (forall a b, In a l1 -> In b l2 -> R a b) ->
  StronglySorted R (l1 ++ l2).
Proof.
  induction l1 as [|x l1 IH]; simpl; intros H1 H2 H12; auto.
  apply StronglySorted_inv in H1. destruct H1 as [H1 Hx].
  constructor.
  - apply IH; auto.
  - apply Forall_app. split; auto.
    apply Forall_forall. intros b Hb. apply H12; auto.
Qed.

End SortedFacts.

Lemma StronglySorted_map {A B : Type} (f : A -> B) (R : B -> B -> Prop)
    (l : list A) :
  StronglySorted (fun a b => R (f a) (f b)) l ->
  StronglySorted R (map f l).
Proof.
  induction 1 as [|x l Hl IH Hx]; simpl; constructor; auto.
  apply Forall_map. exact Hx.
Qed.

Section CombinationOrder.
Context {A : Type} (pos : A -> nat).

Let tuple_order (t1 t2 : list A) : Prop :=
  lex_lt (map pos t1) (map pos t2).

(** Over a pool whose positions increase, the tuples come out in strict
    lexicographic order of their positions. *)
Lemma combinations_sorted (pool : list A) :
  StronglySorted lt (map pos pool) ->
  forall r, StronglySorted tuple_order (combinations pool r).
Proof.
  induction pool as [|x rest IH]; intros Hs [|r]; simpl.
  - repeat constructor.
  - constructor.
  - repeat constructor.
  - simpl in Hs. apply StronglySorted_inv in Hs. destruct Hs as [Hs Hx].
    apply StronglySorted_app.
    + specialize (IH Hs r). clear - IH.
      induction IH as [|t ts Hts IHts Ht]; simpl; constructor; auto.
      apply Forall_map. eapply Forall_impl; [|exact Ht].
      intros u Hu. unfold tuple_order. simpl. right. split; auto.
    + apply IH; auto.
    + intros a b Ha Hb. apply in_map_iff in Ha.
      destruct Ha as (t & <- & _).
      pose proof (combinations_tuple_length _ _ _ Hb) as Hlen.
      pose proof (combinations_subseq _ _ _ Hb) as Hsub.
      destruct b as [|y b]; [discriminate|].
      unfold tuple_order. simpl. left.
      rewrite Forall_forall in Hx. apply Hx. apply in_map.
      eapply subseq_In; eauto. left. reflexivity.
Qed.

End CombinationOrder.

Lemma index_of_positions (universe : list string) :
  NoDup universe ->
  StronglySorted lt (map (fun s => index_of s universe) universe).
Proof.
  induction 1 as [|x l Hx Hl IH]; simpl.
  - constructor.
  - destruct (string_dec x x) as [_|n]; [|congruence].
    assert (E : map (fun s => if string_dec s x then 0
                              else S (index_of s l)) l
                = map S (map (fun s => index_of s l) l)).
    { rewrite map_map. apply map_ext_in. intros s Hs.
      destruct (string_dec s x) as [->|_]; [contradiction|reflexivity]. }
    rewrite E. constructor.
    + apply StronglySorted_map. clear - IH.
      induction IH as [|a l' Hl' IHl' Ha]; constructor; auto.
      eapply Forall_impl; [|exact Ha]. intros; lia.
    + apply Forall_map. apply Forall_forall. intros; lia.
Qed.

(** The recursion and the documented loop of [itertools.combinations]
    yield the same tuples in the same order, on every prefix of seven
    symbols and every size up to eight. *)
Example combinations_agree_with_index_loop :
  let universe := ["AAPL"; "AMGN"; "AXP"; "BA"; "CAT"; "CRM"; "CSCO"] in
  forallb (fun n =>
    forallb (fun r =>
      if list_eq_dec (list_eq_dec string_dec)
           (get_stock_combinations (firstn n universe) r)
           (combinations_by_indices (choose n r) (firstn n universe) r)
      then true else false)
      (seq 0 9))
    (seq 0 8) = true.
Proof. vm_compute. reflexivity. Qed.

(** Every subsequence of the pool is one of its combinations. *)
Lemma combinations_complete {A : Type} (t pool : list A) :
  subseq t pool -> In t (combinations pool (length t)).
Proof.
  induction 1 as [l|x t l Hsub IH|x t l Hsub IH].
  - destruct l; simpl; auto.
  - simpl. apply in_or_app. left. apply in_map. exact IH.
  - destruct t as [|y t]; [simpl; auto|].
    cbn [length combinations]. apply in_or_app. right. exact IH.
Qed.

Lemma subseq_filter {A : Type} (f : A -> bool) (l : list A) :
  subseq (filter f l) l.
Proof.
  induction l as [|x l IH]; simpl; [constructor|].
  destruct (f x); constructor; exact IH.
Qed.

(** A set of distinct symbols of the universe, listed in the order of the
    universe. *)
Lemma subset_in_universe_order (universe s : list string) :
  NoDup universe -> NoDup s ->
  (forall x, In x s -> In x universe) ->
  exists t, subseq t universe /\ length t = length s /\ same_symbols t s.
Proof.
  intros Hu Hs Hin.
  set (f := fun x => if in_dec string_dec x s then true else false).
  assert (Hsame : forall x, In x (filter f universe) <-> In x s).
  { intros x. rewrite filter_In. unfold f.
    destruct (in_dec string_dec x s) as [Hx|Hx].
    - split; [intros _; exact Hx|intros _; split; [apply Hin; exact Hx|auto]].
    - split; [intros [_ H]; discriminate|intros H; contradiction]. }
  exists (filter f universe).
  split; [apply subseq_filter|]. split; [|exact Hsame].
  apply Permutation_length, NoDup_Permutation;
    [apply NoDup_filter; exact Hu|exact Hs|exact Hsame].
Qed.

(** C3: over a universe of [n] distinct symbols, [get_stock_combinations]
    returns exactly C(n, k) tuples; each tuple is drawn from the universe
    (it is a subsequence of it), has length [k] and no repeated symbol;
    every set of [k] distinct symbols of the universe is the set of
    symbols of one of the tuples; no two positions of the result hold the
    same set of symbols; and the tuples are in strict lexicographic order
    of the positions their symbols have in the universe. *)
Theorem get_stock_combinations_spec :
  forall (universe : list string) (k : nat),
    NoDup universe ->
    let cs := get_stock_combinations universe k in
    length cs = choose (length universe) k
    /\ (forall t, In t cs ->
          length t = k /\ NoDup t /\ subseq t universe
          /\ forall x, In x t -> In x universe)
    /\ (forall t, subseq t universe -> length t = k -> In t cs)
    /\ (forall s, NoDup s -> length s = k ->
          (forall x, In x s -> In x universe) ->
          exists t, In t cs /\ same_symbols t s)
    /\ (forall i j, i < length cs -> j < length cs ->
          same_symbols (nth i cs []) (nth j cs []) -> i = j)
    /\ StronglySorted (tuple_lt universe) cs.
Proof.
  intros universe k Hnd cs. unfold cs, get_stock_combinations.
  split; [apply combinations_length|].
  split; [|split; [|split; [|split]]].
  - intros t Ht.
    pose proof (combinations_subseq universe k t Ht) as Hsub.
    split; [eapply combinations_tuple_length; eauto|].
    split; [eapply subseq_NoDup; eauto|].
    split; [exact Hsub|apply subseq_In; exact Hsub].
  - intros t Hsub <-. apply combinations_complete. exact Hsub.
  - intros s Hs <- Hin.
    destruct (subset_in_universe_order universe s Hnd Hs Hin)
      as (t & Hsub & Hlen & Hsame).
    exists t. split; [|exact Hsame].
    rewrite <- Hlen. apply combinations_complete. exact Hsub.
  - intros i j Hi Hj Hsame.
    pose proof (combinations_NoDup universe Hnd k) as Hnd'.
    rewrite NoDup_nth in Hnd'. apply Hnd'; auto.
    apply (subseq_same_elements universe Hnd).
    + eapply combinations_subseq. apply nth_In. exact Hi.
    + eapply combinations_subseq. apply nth_In. exact Hj.
    + exact Hsame.
  - apply combinations_sorted. apply index_of_positions. exact Hnd.
Qed.

Lemma get_stock_combinations_spec_witness :
  let universe := ["AAPL"; "AMGN"; "AXP"; "BA"] in
  let cs := get_stock_combinations universe 2 in
  length cs = 6
  /\ (forall t, In t cs ->
        length t = 2 /\ NoDup t /\ subseq t universe
        /\ forall x, In x t -> In x universe)
  /\ (forall t, subseq t universe -> length t = 2 -> In t cs)
  /\ (forall s, NoDup s -> length s = 2 ->
        (forall x, In x s -> In x universe) ->
        exists t, In t cs /\ same_symbols t s)
  /\ (forall i j, i < length cs -> j < length cs ->
        same_symbols (nth i cs []) (nth j cs []) -> i = j)
  /\ StronglySorted (tuple_lt universe) cs.
Proof.
  apply (get_stock_combinations_spec ["AAPL"; "AMGN"; "AXP"; "BA"] 2).
  repeat constructor; simpl; intuition congruence.
Defined.

(** ** Chunking *)

Lemma split_at_sizes_length {A : Type} (sizes : list nat) :
  forall ary : list A, length (split_at_sizes sizes ary) = length sizes.
Proof.
  induction sizes as [|s rest IH]; intros ary; simpl; auto.
Qed.

Lemma split_at_sizes_concat {A : Type} (sizes : list nat) :
  forall ary : list A,
    length ary <= list_sum sizes ->
    concat (split_at_sizes sizes ary) = ary.
Proof.
  induction sizes as [|s rest IH]; intros ary H; simpl in *.
  - destruct ary; simpl in *; [reflexivity|lia].
  - rewrite IH.
    + apply firstn_skipn.
    + rewrite length_skipn. lia.
Qed.

Lemma split_at_sizes_In {A : Type} (sizes : list nat) :
  forall (ary : list A) (c : list A),
    list_sum sizes <= length ary ->
    In c (split_at_sizes sizes ary) ->
    In (length c) sizes.
Proof.
  induction sizes as [|s rest IH]; intros ary c H Hc; simpl in *.
  - contradiction.
  - destruct Hc as [<-|Hc].
    + left. rewrite length_firstn. lia.
    + right. apply (IH (skipn s ary)); auto.
      rewrite length_skipn. lia.
Qed.

Lemma list_sum_repeat (x n : nat) : list_sum (repeat x n) = n * x.
Proof.
  induction n as [|n IH]; simpl; auto.
Qed.

Lemma section_sizes_length (Ntotal Nsections : nat) :
  0 < Nsections -> length (section_sizes Ntotal Nsections) = Nsections.
Proof.
  intros H. unfold section_sizes.
  rewrite length_app, !repeat_length.
  pose proof (Nat.mod_upper_bound Ntotal Nsections ltac:(lia)). lia.
Qed.

Lemma section_sizes_sum (Ntotal Nsections : nat) :
  0 < Nsections -> list_sum (section_sizes Ntotal Nsections) = Ntotal.
Proof.
  intros H. unfold section_sizes.
  rewrite list_sum_app, !list_sum_repeat.
  pose proof (Nat.mod_upper_bound Ntotal Nsections ltac:(lia)) as Hm.
  pose proof (Nat.div_mod_eq Ntotal Nsections) as Hd.
  nia.
Qed.

Lemma section_sizes_In (Ntotal Nsections s : nat) :
  In s (section_sizes Ntotal Nsections) ->
  s = Ntotal / Nsections \/ s = S (Ntotal / Nsections).
Proof.
  unfold section_sizes. intros H. apply in_app_or in H.
  destruct H as [H|H]; apply repeat_spec in H; auto.
Qed.

(** C5: with no caller-supplied chunk size and at least one worker, the
    distributor computes [chunk_size = min(250, max(1, total // (n_workers *
    4)))] and [n_chunks = max(1, total // chunk_size)] and splits the
    combination list into exactly [n_chunks] consecutive pieces whose
    lengths differ by at most one; for 142506 combinations and 8 workers
    this is a chunk size of 250 and 570 chunks. *)
Theorem auto_chunking_spec :
  forall (A : Type) (combinations : list A) (n_workers : Z),
    (1 <= n_workers)%Z ->
    let total := Z.of_nat (length combinations) in
    let chunk_size := Z.min 250 (Z.max 1 (total / (n_workers * 4))) in
    let n_chunks := Z.max 1 (total / chunk_size) in
    auto_chunk_size total n_workers = Ok chunk_size
    /\ n_chunks_for total chunk_size = Ok n_chunks
    /\ (exists chunks,
          split_into_chunks combinations n_workers None = Ok chunks
          /\ Z.of_nat (length chunks) = n_chunks
          /\ concat chunks = combinations
          /\ forall c, In c chunks ->
               length c = length combinations / Z.to_nat n_chunks
               \/ length c = S (length combinations / Z.to_nat n_chunks))
    /\ (total = 142506%Z -> n_workers = 8%Z ->
        chunk_size = 250%Z /\ n_chunks = 570%Z).
Proof.
  intros A combinations n_workers Hw total chunk_size n_chunks.
  assert (Hcs : auto_chunk_size total n_workers = Ok chunk_size).
  { unfold auto_chunk_size, floordiv.
    destruct (Z.eqb_spec (n_workers * 4) 0) as [E|_]; [lia|].
    simpl. f_equal. unfold chunk_size. lia. }
  assert (Hpos : (1 <= chunk_size)%Z) by (unfold chunk_size; lia).
  assert (Hnc : n_chunks_for total chunk_size = Ok n_chunks).
  { unfold n_chunks_for, floordiv.
    destruct (Z.eqb_spec chunk_size 0) as [E|_]; [lia|]. reflexivity. }
  assert (Hn1 : (1 <= n_chunks)%Z) by (unfold n_chunks; lia).
  split; [exact Hcs|]. split; [exact Hnc|]. split.
  - unfold split_into_chunks. fold total. rewrite Hcs. simpl.
    rewrite Hnc. simpl. unfold array_split.
    destruct (Z.leb_spec n_chunks 0) as [E|_]; [lia|].
    eexists. split; [reflexivity|].
    assert (Hk : 0 < Z.to_nat n_chunks) by lia.
    split; [|split].
    + rewrite split_at_sizes_length, section_sizes_length by exact Hk. lia.
    + apply split_at_sizes_concat. rewrite section_sizes_sum by exact Hk.
      lia.
    + intros c Hc. apply section_sizes_In.
      apply (split_at_sizes_In _ combinations); auto.
      rewrite section_sizes_sum by exact Hk. lia.
  - intros Ht Hw8. unfold n_chunks, chunk_size. rewrite Ht, Hw8.
    split; reflexivity.
Qed.

Lemma auto_chunking_spec_witness :
  let combinations := repeat tt (Z.to_nat 142506) in
  (1 <= 8)%Z
  /\ auto_chunk_size (Z.of_nat (length combinations)) 8 = Ok 250%Z
  /\ n_chunks_for (Z.of_nat (length combinations)) 250 = Ok 570%Z
  /\ exists chunks,
       split_into_chunks combinations 8 None = Ok chunks
       /\ Z.of_nat (length chunks) = 570%Z
       /\ concat chunks = combinations.
Proof.
  intros combinations.
  assert (Hw : (1 <= 8)%Z) by lia.
  assert (Ht : Z.of_nat (length combinations) = 142506%Z).
  { unfold combinations. rewrite repeat_length. apply Z2Nat.id. lia. }
  destruct (auto_chunking_spec unit combinations 8 Hw)
    as (Hcs & Hnc & (chunks & Hsplit & Hlen & Hcat & _) & Hscen).
  destruct (Hscen Ht eq_refl) as [E1 E2].
  rewrite E2 in Hnc, Hlen. rewrite E1 in Hcs, Hnc.
  split; [exact Hw|]. split; [exact Hcs|]. split; [exact Hnc|].
  exists chunks. auto.
Defined.

(** ** Daily returns *)

Lemma Qeq_bool_compare (x : Q) :
  Qeq_bool x 0 = match (x ?= 0)%Q with Eq => true | _ => false end.
Proof.
  destruct (x ?= 0)%Q eqn:E.
  - apply Qeq_bool_iff. apply Qeq_alt. exact E.
  - destruct (Qeq_bool x 0) eqn:B; auto.
    apply Qeq_bool_iff, Qeq_alt in B. congruence.
  - destruct (Qeq_bool x 0) eqn:B; auto.
    apply Qeq_bool_iff, Qeq_alt in B. congruence.
Qed.

(** A cell of [pct_change] is NaN exactly at 0/0. *)
Lemma pct_is_nan (prev cur : Q) :
  is_nan (pct prev cur) = Qeq_bool prev 0 && Qeq_bool cur 0.
Proof.
  unfold pct, fdiv. destruct (Qeq_bool prev 0); simpl; auto.
  rewrite Qeq_bool_compare. unfold signed_inf.
  destruct (cur ?= 0)%Q; reflexivity.
Qed.

Lemma pct_row_no_nan (prev cur : list Q) :
  forallb (fun v => negb (is_nan v)) (pct_row prev cur)
  = negb (existsb (fun pc => Qeq_bool (fst pc) 0 && Qeq_bool (snd pc) 0)
                  (combine prev cur)).
Proof.
  unfold pct_row. induction (combine prev cur) as [|[p c] l IH]; simpl; auto.
  rewrite IH, pct_is_nan, negb_orb. reflexivity.
Qed.

Lemma dropna_keeps_pct_change (rows : list (list Q)) :
  forall prev,
    zero_pair_from prev rows = false ->
    filter (forallb (fun v => negb (is_nan v))) (pct_change_from prev rows)
    = pct_change_from prev rows.
Proof.
  induction rows as [|row rest IH]; intros prev H; simpl in *; auto.
  apply orb_false_iff in H. destruct H as [H1 H2].
  rewrite pct_row_no_nan, H1. simpl. f_equal. auto.
Qed.

Lemma pct_change_from_length (rows : list (list Q)) :
  forall prev, length (pct_change_from prev rows) = length rows.
Proof.
  induction rows as [|row rest IH]; intros prev; simpl; auto.
Qed.

Lemma pct_change_from_nth (rows : list (list Q)) :
  forall prev t,
    t < length rows ->
    nth t (pct_change_from prev rows) []
    = pct_row (nth t (prev :: rows) []) (nth (S t) (prev :: rows) []).
Proof.
  induction rows as [|row rest IH]; intros prev t Ht; simpl in *; [lia|].
  destruct t as [|t]; [reflexivity|].
  rewrite IH by lia. reflexivity.
Qed.

Lemma nan_row_dropped {V : Type} (first : list V) :
  first <> [] ->
  forallb (fun v => negb (is_nan v)) (map (fun _ => NaN) first) = false.
Proof.
  destruct first; [congruence|reflexivity].
Qed.

(** C6, as the code has it: [calculate_daily_returns] never fails.  On a
    well-formed price frame with at least one column it returns a frame
    with the same columns; with fewer than two rows that frame is empty;
    with at least two rows, and no column holding two consecutive zero
    prices, it has exactly one row fewer than the input, row [t] holding
    the percentage change [p(t+1)/p(t) - 1] of every column. *)
Theorem calculate_daily_returns_spec :
  forall prices : DataFrame Q,
    well_formed prices ->
    columns prices <> [] ->
    exists returns,
      calculate_daily_returns prices = Ok returns
      /\ columns returns = columns prices
      /\ (length (values prices) < 2 -> values returns = [])
      /\ (2 <= length (values prices) ->
          has_zero_pair (values prices) = false ->
          length (values returns) = length (values prices) - 1
          /\ forall t, S t < length (values prices) ->
               nth t (values returns) []
               = pct_row (nth t (values prices) [])
                         (nth (S t) (values prices) [])).
Proof.
  intros [cols rows] Hwf Hcols. unfold well_formed in Hwf. simpl in *.
  eexists. split; [reflexivity|]. split; [reflexivity|]. simpl.
  destruct rows as [|first rest]; simpl.
  - split; [reflexivity|]. intros H. lia.
  - assert (Hfirst : first <> []).
    { inversion Hwf as [|? ? Hlen _]; subst. intros ->. simpl in Hlen.
      destruct cols; [congruence|discriminate]. }
    rewrite (nan_row_dropped first Hfirst).
    split.
    + intros H. destruct rest; [reflexivity|simpl in H; lia].
    + intros _ Hz. rewrite (dropna_keeps_pct_change rest first Hz).
      split.
      * rewrite pct_change_from_length. lia.
      * intros t Ht. apply (pct_change_from_nth rest first t). lia.
Qed.

Lemma calculate_daily_returns_spec_witness :
  exists returns,
    calculate_daily_returns prices_three_rows = Ok returns
    /\ length (values returns) = 2
    /\ nth 0 (values returns) []
       = pct_row [100%Q; 50%Q] [110%Q; 40%Q].
Proof.
  destruct (calculate_daily_returns_spec prices_three_rows)
    as (returns & Hr & _ & _ & H2).
  - repeat constructor.
  - discriminate.
  - exists returns. split; [exact Hr|].
    destruct (H2 ltac:(simpl; lia) eq_refl) as [Hlen Hnth].
    split; [exact Hlen|]. apply (Hnth 0). simpl. lia.
Defined.

(** C6, as stated, fails: a price frame with a single row does not make
    [calculate_daily_returns] fail; it returns an empty frame. *)
Lemma calculate_daily_returns_one_row :
  length (values prices_one_row) < 2
  /\ calculate_daily_returns prices_one_row
     = Ok {| columns := ["AAPL"]; values := [] |}.
Proof. split; [simpl; lia|reflexivity]. Qed.

(** Two consecutive zero prices give 0/0 = NaN, and [dropna] drops that
    row as well: three price rows leave a single row of returns. *)
Example calculate_daily_returns_zero_prices :
  calculate_daily_returns
    {| columns := ["AAPL"]; values := [[0%Q]; [0%Q]; [1%Q]] |}
  = Ok {| columns := ["AAPL"]; values := [[PInf]] |}.
Proof. reflexivity. Qed.

(** The arithmetic of the non-finite doubles, on a few cases. *)
Example float_arithmetic_cases :
  fdiv (Fin 1) (Fin 0) = PInf
  /\ fdiv (Fin (-1)) (Fin 0) = NInf
  /\ fdiv (Fin 0) (Fin 0) = NaN
  /\ fmul (Fin 0) PInf = NaN
  /\ fadd PInf NInf = NaN
  /\ fadd (Fin 1) NInf = NInf
  /\ fle_b NaN (Fin (2 # 10)) = false
  /\ fle_b NInf (Fin (2 # 10)) = true
  /\ flt_b (Fin 1) PInf = true
  /\ np_sqrt (Fin (-1)) = Root NaN.
Proof. repeat split; reflexivity. Qed.

(** ** Weight sampling *)

Lemma Qsum_nonneg (l : list Q) :
  (forall x, In x l -> (0 <= x)%Q) -> (0 <= Qsum l)%Q.
Proof.
  induction l as [|a l IH]; intros H; simpl.
  - apply Qle_refl.
  - assert (0 <= a)%Q by auto with datatypes.
    assert (0 <= Qsum l)%Q by auto with datatypes.
    lra.
Qed.

Lemma Qsum_map_div (c : Q) (l : list Q) :
  (Qsum (map (fun x => x / c) l) == Qsum l / c)%Q.
Proof.
  induction l as [|a l IH]; simpl.
  - unfold Qdiv. ring.
  - rewrite IH. unfold Qdiv. ring.
Qed.

Lemma fsum_Fin (l : list Q) : fsum (map Fin l) = Fin (Qsum l).
Proof.
  induction l as [|a l IH]; simpl; auto.
  unfold fsum in *. simpl. rewrite IH. reflexivity.
Qed.

Lemma normalize_row_finite (row : list Q) :
  Qeq_bool (Qsum row) 0 = false ->
  normalize_row row = map Fin (map (fun x => (x / Qsum row)%Q) row).
Proof.
  intros H. unfold normalize_row. rewrite map_map.
  apply map_ext. intros x. unfold fdiv. rewrite H. reflexivity.
Qed.

(** A row of non-negative draws that sums to zero is normalised to NaN or
    [+inf] entries and fails the cap test. *)
Lemma normalize_row_zero_sum (row : list Q) :
  Qeq_bool (Qsum row) 0 = true ->
  (forall x, In x row -> (0 <= x)%Q) ->
  row <> [] ->
  within_cap (normalize_row row) = false.
Proof.
  intros H Hpos Hne. destruct row as [|x0 row]; [congruence|].
  unfold normalize_row, within_cap. cbn [map forallb].
  unfold fdiv at 1. rewrite H. unfold signed_inf.
  destruct (x0 ?= 0)%Q eqn:E; try reflexivity.
  apply Qlt_alt in E. specialize (Hpos x0 (or_introl eq_refl)).
  exfalso. apply (Qlt_not_le _ _ E Hpos).
Qed.

Lemma within_cap_Fin (ws : list Q) :
  within_cap (map Fin ws) = forallb (fun w => Qle_bool w (2 # 10)) ws.
Proof.
  unfold within_cap. induction ws as [|w ws IH]; simpl; auto.
  rewrite IH. reflexivity.
Qed.

(** What the filter lets through, for a row of non-negative draws: finite
    weights between 0 and the cap that sum to 1. *)
Lemma valid_row_weights (raw : list Q) :
  (forall x, In x raw -> (0 <= x)%Q) ->
  raw <> [] ->
  within_cap (normalize_row raw) = true ->
  exists ws,
    normalize_row raw = map Fin ws
    /\ length ws = length raw
    /\ (forall w, In w ws -> (0 <= w)%Q /\ (w <= 2 # 10)%Q)
    /\ (Qsum ws == 1)%Q.
Proof.
  intros Hpos Hne Hcap.
  destruct (Qeq_bool (Qsum raw) 0) eqn:Hs.
  - rewrite (normalize_row_zero_sum raw Hs Hpos Hne) in Hcap. discriminate.
  - rewrite (normalize_row_finite raw Hs) in *.
    rewrite within_cap_Fin in Hcap. rewrite forallb_forall in Hcap.
    eexists. split; [reflexivity|].
    split; [rewrite length_map; reflexivity|]. split.
    + intros w Hw. split; [|apply Qle_bool_iff, Hcap, Hw].
      apply in_map_iff in Hw. destruct Hw as (x & <- & Hx).
      unfold Qdiv. apply Qmult_le_0_compat; [auto|].
      apply Qinv_le_0_compat. apply Qsum_nonneg. exact Hpos.
    + rewrite Qsum_map_div. apply Qeq_bool_neq in Hs. field. exact Hs.
Qed.

Lemma valid_row_spec (raw : list Q) :
  (forall x, In x raw -> (0 <= x)%Q) ->
  raw <> [] ->
  within_cap (normalize_row raw) = true ->
  length (normalize_row raw) = length raw
  /\ (forall w, In w (normalize_row raw) ->
        fle_b (Fin 0) w = true /\ fle_b w (Fin (2 # 10)) = true)
  /\ feq (fsum (normalize_row raw)) (Fin 1).
Proof.
  intros Hpos Hne Hcap.
  destruct (valid_row_weights raw Hpos Hne Hcap) as (ws & -> & Hl & Hw & Hs).
  split; [rewrite length_map; exact Hl|]. split.
  - intros w Hin. apply in_map_iff in Hin. destruct Hin as (q & <- & Hq).
    simpl. rewrite !Qle_bool_iff. apply Hw. exact Hq.
  - rewrite fsum_Fin. exact Hs.
Qed.

Lemma Qsum_le_cap (ws : list Q) :
  (forall w, In w ws -> (w <= 2 # 10)%Q) ->
  length ws <= 4 ->
  (Qsum ws <= 8 # 10)%Q.
Proof.
  intros H Hlen.
  destruct ws as [|a [|b [|c [|d [|e ws]]]]]; simpl in *; try lia.
  - lra.
  - pose proof (H a). intuition lra.
  - pose proof (H a). pose proof (H b). intuition lra.
  - pose proof (H a). pose proof (H b). pose proof (H c). intuition lra.
  - pose proof (H a). pose proof (H b). pose proof (H c). pose proof (H d).
    intuition lra.
Qed.

(** With at most four assets no normalised row passes the cap. *)
Lemma small_row_rejected (raw : list Q) :
  (forall x, In x raw -> (0 <= x)%Q) ->
  1 <= length raw <= 4 ->
  within_cap (normalize_row raw) = false.
Proof.
  intros Hpos Hlen. destruct (within_cap (normalize_row raw)) eqn:Hcap; auto.
  assert (Hne : raw <> []) by (intros ->; simpl in Hlen; lia).
  destruct (valid_row_weights raw Hpos Hne Hcap) as (ws & _ & Hl & Hw & Hs).
  assert (Hle : (Qsum ws <= 8 # 10)%Q).
  { apply Qsum_le_cap; [intros w Hin; apply Hw, Hin|lia]. }
  rewrite Hs in Hle. exfalso. revert Hle. apply Qlt_not_le. reflexivity.
Qed.

Lemma random_rows_spec (rows cols : nat) :
  forall (s : rng) (row : list Q),
    In row (random_rows s rows cols) ->
    length row = cols /\ forall x, In x row -> exists i, x = s i.
Proof.
  induction rows as [|rows IH]; intros s row H; simpl in H; [contradiction|].
  destruct H as [<-|H].
  - unfold draws. rewrite length_map, length_seq. split; auto.
    intros x Hx. apply in_map_iff in Hx. destruct Hx as (i & <- & _). eauto.
  - destruct (IH _ _ H) as [Hlen Hin]. split; auto.
    intros x Hx. destruct (Hin x Hx) as (i & ->). unfold advance. eauto.
Qed.

Lemma firstn_In {A : Type} (n : nat) :
  forall (l : list A) (x : A), In x (firstn n l) -> In x l.
Proof.
  induction n as [|n IH]; intros [|a l] x H; simpl in *; try contradiction.
  destruct H as [->|H]; auto.
Qed.

Lemma filter_none {A : Type} (f : A -> bool) (l : list A) :
  (forall x, In x l -> f x = false) -> filter f l = [].
Proof.
  induction l as [|a l IH]; intros H; simpl; auto.
  rewrite (H a) by (left; reflexivity). apply IH.
  intros x Hx. apply H. right. exact Hx.
Qed.

Lemma advance_in_unit_interval (s : rng) (n : nat) :
  in_unit_interval s -> in_unit_interval (advance s n).
Proof. intros H i. apply H. Qed.

(** C1, for at least one asset: if [generate_valid_weights] returns, its
    result has exactly [n_simulations] rows of [n_assets] entries, every
    entry lies between 0 and 0.2, and every row sums to 1. *)
Theorem generate_valid_weights_spec :
  forall (depth : nat) (s : rng) (n_assets n_simulations : nat)
         (res : list (list float)) (s' : rng),
    in_unit_interval s ->
    1 <= n_assets ->
    generate_valid_weights depth s n_assets n_simulations = (Ok res, s') ->
    length res = n_simulations
    /\ forall row, In row res ->
         length row = n_assets
         /\ (forall w, In w row ->
               fle_b (Fin 0) w = true /\ fle_b w (Fin (2 # 10)) = true)
         /\ feq (fsum row) (Fin 1).
Proof.
  induction depth as [|depth IH]; intros s n_assets n_simulations res s'
    Hs Hn Hrun; simpl in Hrun; [discriminate|].
  match type of Hrun with
  | context [filter within_cap ?l] => set (candidates := l) in *
  end.
  destruct (Nat.ltb_spec (length (filter within_cap candidates))
              n_simulations) as [Hlt|Hge].
  - eapply IH; [|exact Hn|exact Hrun].
    apply advance_in_unit_interval. exact Hs.
  - inversion Hrun; subst res s'; clear Hrun. split.
    + rewrite length_firstn. lia.
    + intros row Hrow. apply firstn_In in Hrow.
      apply filter_In in Hrow. destruct Hrow as [Hin Hcap].
      unfold candidates in Hin. apply in_map_iff in Hin.
      destruct Hin as (raw & <- & Hraw).
      apply random_rows_spec in Hraw. destruct Hraw as [Hlen Hdraw].
      assert (Hpos : forall x, In x raw -> (0 <= x)%Q).
      { intros x Hx. destruct (Hdraw x Hx) as (i & ->). apply Hs. }
      assert (Hne : raw <> []).
      { intros ->. simpl in Hlen. lia. }
      destruct (valid_row_spec raw Hpos Hne Hcap) as (H1 & H2 & H3).
      split; [congruence|]. split; assumption.
Qed.

Lemma generate_valid_weights_spec_witness :
  let s : rng := fun _ => (1 # 2)%Q in
  in_unit_interval s
  /\ exists res,
       fst (generate_valid_weights 1 s 5 1) = Ok res
       /\ length res = 1
       /\ forall row, In row res ->
            length row = 5
            /\ (forall w, In w row ->
                  fle_b (Fin 0) w = true /\ fle_b w (Fin (2 # 10)) = true)
            /\ feq (fsum row) (Fin 1).
Proof.
  intros s.
  assert (Hs : in_unit_interval s).
  { intros i. unfold s. split; [discriminate|reflexivity]. }
  split; [exact Hs|].
  destruct (generate_valid_weights 1 s 5 1) as [[res|e] s'] eqn:E.
  - exists res. split; [reflexivity|].
    apply (generate_valid_weights_spec 1 s 5 1 res s' Hs); [lia|exact E].
  - exfalso.
    assert (H : is_ok (fst (generate_valid_weights 1 s 5 1)) = true)
      by (vm_compute; reflexivity).
    rewrite E in H. discriminate.
Defined.

(** C1, as stated for every [n_assets], fails at [n_assets = 0]: the
    sampler returns, and its row is empty and sums to 0. *)
Lemma generate_valid_weights_no_assets :
  let s : rng := fun _ => (1 # 2)%Q in
  in_unit_interval s
  /\ fst (generate_valid_weights 1 s 0 1) = Ok [[]]
  /\ ~ feq (fsum []) (Fin 1).
Proof.
  intros s. split; [|split].
  - intros i. unfold s. split; [discriminate|reflexivity].
  - reflexivity.
  - simpl. discriminate.
Qed.

(** C10: with one to four assets and at least one simulation, every
    candidate row is filtered out, the call recurses with the same
    arguments, and no recursion depth is enough for it to return: it ends
    in the interpreter's [RecursionError]. *)
Theorem generate_valid_weights_small_never_returns :
  forall (depth : nat) (s : rng) (n_assets n_simulations : nat),
    in_unit_interval s ->
    1 <= n_assets <= 4 ->
    1 <= n_simulations ->
    let target_weights := Nat.min (n_simulations * 3) 10000 in
    filter within_cap
      (map normalize_row
         (fst (np_random_random s target_weights n_assets))) = []
    /\ generate_valid_weights (S depth) s n_assets n_simulations
       = generate_valid_weights depth
           (snd (np_random_random s target_weights n_assets))
           n_assets n_simulations
    /\ fst (generate_valid_weights depth s n_assets n_simulations)
       = Raise RecursionError.
Proof.
  intros depth s n_assets n_simulations Hs Hn Hk target_weights.
  assert (Hnone : forall s0, in_unit_interval s0 ->
            filter within_cap
              (map normalize_row
                 (fst (np_random_random s0 target_weights n_assets))) = []).
  { intros s0 Hs0. simpl. apply filter_none.
    intros row Hrow. apply in_map_iff in Hrow.
    destruct Hrow as (raw & <- & Hraw).
    apply random_rows_spec in Hraw. destruct Hraw as [Hlen Hdraw].
    apply small_row_rejected; [|lia].
    intros x Hx. destruct (Hdraw x Hx) as (i & ->). apply Hs0. }
  split; [apply Hnone, Hs|]. split.
  - cbn [generate_valid_weights]. fold target_weights.
    unfold np_random_random at 1. cbn [fst snd].
    specialize (Hnone s Hs). simpl in Hnone. rewrite Hnone. simpl.
    destruct (Nat.ltb_spec 0 n_simulations); [reflexivity|lia].
  - revert s Hs. induction depth as [|depth IH]; intros s Hs; auto.
    cbn [generate_valid_weights]. fold target_weights.
    unfold np_random_random.
    specialize (Hnone s Hs). simpl in Hnone. rewrite Hnone. simpl.
    destruct (Nat.ltb_spec 0 n_simulations); [|lia].
    apply IH. apply advance_in_unit_interval, Hs.
Qed.

Lemma generate_valid_weights_small_never_returns_witness :
  let s : rng := fun _ => (1 # 2)%Q in
  in_unit_interval s
  /\ fst (generate_valid_weights 50 s 4 1) = Raise RecursionError.
Proof.
  intros s.
  assert (Hs : in_unit_interval s).
  { intros i. unfold s. split; [discriminate|reflexivity]. }
  split; [exact Hs|].
  apply (generate_valid_weights_small_never_returns 50 s 4 1 Hs); lia.
Defined.

(** ** Arithmetic of doubles *)

Lemma feq_refl (a : float) : feq a a.
Proof. destruct a; simpl; auto. reflexivity. Qed.

Lemma feq_sym (a b : float) : feq a b -> feq b a.
Proof. destruct a, b; simpl; auto. intros H. symmetry. exact H. Qed.

Lemma feq_trans (a b c : float) : feq a b -> feq b c -> feq a c.
Proof.
  destruct a, b, c; simpl; auto; try contradiction.
  intros H1 H2. rewrite H1. exact H2.
Qed.

Lemma signed_inf_eq (positive : bool) (x y : Q) :
  (x == y)%Q -> signed_inf positive x = signed_inf positive y.
Proof. intros H. unfold signed_inf. rewrite H. reflexivity. Qed.

Lemma fadd_feq (a a' b b' : float) :
  feq a a' -> feq b b' -> feq (fadd a b) (fadd a' b').
Proof.
  destruct a, a', b, b'; simpl; auto; try contradiction.
  intros H1 H2. rewrite H1, H2. reflexivity.
Qed.

Lemma fmul_feq (a a' b b' : float) :
  feq a a' -> feq b b' -> feq (fmul a b) (fmul a' b').
Proof.
  destruct a, a', b, b'; simpl; auto; try contradiction;
    try (intros H1 H2; rewrite H1, H2; reflexivity);
    intros H1 H2;
    try (rewrite (signed_inf_eq _ _ _ H1); apply feq_refl);
    try (rewrite (signed_inf_eq _ _ _ H2); apply feq_refl).
Qed.

Lemma fdiv_feq (a a' b b' : float) :
  feq a a' -> feq b b' -> feq (fdiv a b) (fdiv a' b').
Proof.
  destruct a, a', b, b'; simpl; auto; try contradiction; intros H1 H2;
    try (rewrite H2; apply feq_refl); try reflexivity.
  rewrite H2. destruct (Qeq_bool q2 0).
  - rewrite (signed_inf_eq _ _ _ H1). apply feq_refl.
  - simpl. rewrite H1, H2. reflexivity.
Qed.

Lemma fmul_comm (a b : float) : feq (fmul a b) (fmul b a).
Proof.
  destruct a, b; simpl; auto; try apply feq_refl. apply Qmult_comm.
Qed.

Lemma to_root_feq (a b : float) : feq a b -> req (to_root a) (to_root b).
Proof.
  destruct a, b; simpl; auto. intros H. unfold req. simpl.
  rewrite H. reflexivity.
Qed.

Lemma is_zero_feq (a b : float) : feq a b -> is_zero a = is_zero b.
Proof.
  destruct a, b; simpl; auto; try contradiction.
  intros H. rewrite H. reflexivity.
Qed.

Lemma is_finite_feq (a b : float) : feq a b -> is_finite a = is_finite b.
Proof. destruct a, b; simpl; auto; contradiction. Qed.

Lemma fsum_feq (l l' : list float) :
  Forall2 feq l l' -> feq (fsum l) (fsum l').
Proof.
  induction 1; simpl.
  - reflexivity.
  - apply fadd_feq; assumption.
Qed.

Lemma fdot_comm (u v : list float) : feq (fdot u v) (fdot v u).
Proof.
  unfold fdot. apply fsum_feq. revert v.
  induction u as [|a u IH]; intros [|b v]; simpl; constructor.
  - apply fmul_comm.
  - apply IH.
Qed.

(** A sum or product with a NaN term is NaN. *)
Lemma fsum_nan (l : list float) : In NaN l -> fsum l = NaN.
Proof.
  induction l as [|a l IH]; simpl; intros H; [contradiction|].
  destruct H as [->|H]; [reflexivity|].
  unfold fsum in *. simpl. rewrite (IH H). destruct a; reflexivity.
Qed.

Lemma fmul_nan_r (a : float) : fmul a NaN = NaN.
Proof. destruct a; reflexivity. Qed.

(** ** Finite vectors and matrices *)

Lemma fdot_nan_r (u v : list float) :
  u <> [] -> v <> [] -> nan_vector v -> fdot u v = NaN.
Proof.
  intros Hu Hv Hnan. destruct u as [|a u]; [congruence|].
  destruct v as [|b v]; [congruence|].
  inversion Hnan; subst. unfold fdot. simpl.
  rewrite fmul_nan_r. reflexivity.
Qed.

Lemma fdot_nan_l (u v : list float) :
  u <> [] -> v <> [] -> nan_vector u -> fdot u v = NaN.
Proof.
  intros Hu Hv Hnan. destruct u as [|a u]; [congruence|].
  destruct v as [|b v]; [congruence|].
  inversion Hnan; subst. reflexivity.
Qed.

Lemma finite_vector_lift (v : list float) :
  finite_vector v -> v = map Fin (map to_Q v).
Proof.
  induction 1 as [|a v Ha Hv IH]; simpl; auto.
  destruct a; try discriminate. simpl. f_equal. exact IH.
Qed.

Lemma finite_vector_map_Fin (l : list Q) : finite_vector (map Fin l).
Proof. induction l; simpl; constructor; auto. Qed.

Lemma fdot_Fin (u v : list Q) : fdot (map Fin u) (map Fin v) = Fin (Qdot u v).
Proof.
  unfold fdot, Qdot. revert v.
  induction u as [|a u IH]; intros [|b v]; simpl; auto.
  unfold fsum in *. simpl. rewrite IH. reflexivity.
Qed.

Lemma map_nth_seq {A : Type} (d : A) (l : list A) :
  map (fun k => nth k l d) (seq 0 (length l)) = l.
Proof.
  induction l as [|a l IH]; simpl; auto.
  f_equal. rewrite <- seq_shift, map_map. exact IH.
Qed.

(** ** Exact dot products *)

Lemma Qdot_nil_r (u : list Q) : Qdot u [] = 0%Q.
Proof. destruct u; reflexivity. Qed.

Lemma Qdot_cons (a b : Q) (u v : list Q) :
  Qdot (a :: u) (b :: v) = (a * b + Qdot u v)%Q.
Proof. reflexivity. Qed.

Lemma Qdot_comm (u v : list Q) : (Qdot u v == Qdot v u)%Q.
Proof.
  revert v. induction u as [|a u IH]; intros [|b v];
    try reflexivity.
  rewrite !Qdot_cons, IH. ring.
Qed.

Lemma Qdot_map_ext {A : Type} (f g : A -> Q) (w : list Q) (l : list A) :
  (forall x, In x l -> (f x == g x)%Q) ->
  (Qdot w (map f l) == Qdot w (map g l))%Q.
Proof.
  revert w. induction l as [|x l IH]; intros w H; simpl.
  - reflexivity.
  - destruct w as [|a w]; [reflexivity|]. rewrite !Qdot_cons.
    rewrite (H x) by (left; reflexivity).
    rewrite IH by (intros y Hy; apply H; right; exact Hy).
    reflexivity.
Qed.

Lemma Qdot_map_scale {A : Type} (c : Q) (f : A -> Q) (w : list Q)
    (l : list A) :
  (Qdot w (map (fun x => c * f x) l) == c * Qdot w (map f l))%Q.
Proof.
  revert w. induction l as [|x l IH]; intros w; simpl.
  - rewrite Qdot_nil_r. ring.
  - destruct w as [|a w]; [unfold Qdot; simpl; ring|].
    rewrite !Qdot_cons, IH. ring.
Qed.

Lemma Qdot_scale_l (c : Q) (r v : list Q) :
  (Qdot (map (fun x => x * c) r) v == c * Qdot r v)%Q.
Proof.
  revert v. induction r as [|a r IH]; intros v; simpl.
  - unfold Qdot. simpl. ring.
  - destruct v as [|b v]; [unfold Qdot; simpl; ring|].
    rewrite !Qdot_cons, IH. ring.
Qed.

Lemma Qdot_map_linear {A : Type} (c : Q) (f g : A -> Q) (l : list A)
    (v : list Q) :
  (Qdot (map (fun k => c * f k + g k) l) v
   == c * Qdot (map f l) v + Qdot (map g l) v)%Q.
Proof.
  revert v. induction l as [|k l IH]; intros v; simpl.
  - unfold Qdot. simpl. ring.
  - destruct v as [|b v]; [unfold Qdot; simpl; ring|].
    rewrite !Qdot_cons, IH. ring.
Qed.

Lemma Qdot_map_zero {A : Type} (l : list A) (v : list Q) :
  (Qdot (map (fun _ => 0%Q) l) v == 0)%Q.
Proof.
  revert v. induction l as [|k l IH]; intros v; simpl.
  - reflexivity.
  - destruct v as [|b v]; [reflexivity|]. rewrite Qdot_cons, IH. ring.
Qed.

Lemma Qdot_map_ext_l {A : Type} (f g : A -> Q) (l : list A) (v : list Q) :
  (forall x, In x l -> (f x == g x)%Q) ->
  (Qdot (map f l) v == Qdot (map g l) v)%Q.
Proof.
  intros H. rewrite (Qdot_comm (map f l)), (Qdot_comm (map g l)).
  apply Qdot_map_ext. exact H.
Qed.

(** Associativity of vector-matrix-vector products:
    [(w^T M) . v = w . (M v)]. *)
Lemma Qdot_assoc (n : nat) (M : list (list Q)) (v : list Q) :
  Forall (fun row => length row = n) M ->
  forall w,
    (Qdot (map (fun k => Qdot w (map (fun row => nth k row 0%Q) M))
               (seq 0 n)) v
     == Qdot w (map (fun row => Qdot row v) M))%Q.
Proof.
  induction 1 as [|r M Hr HM IH]; intros w.
  - cbn [map]. rewrite !Qdot_nil_r. apply Qdot_map_zero.
  - destruct w as [|a w].
    + rewrite (Qdot_map_ext_l _ (fun _ => 0%Q)) by (intros; reflexivity).
      rewrite Qdot_map_zero. reflexivity.
    + cbn [map]. rewrite Qdot_cons.
      rewrite (Qdot_map_ext_l _
                 (fun k => a * nth k r 0
                           + Qdot w (map (fun row => nth k row 0) M))%Q)
        by (intros; reflexivity).
      rewrite Qdot_map_linear, IH.
      rewrite <- Hr, map_nth_seq. reflexivity.
Qed.

(** With [252 * C] in place of [C], the quadratic form of the single-vector
    path is 252 times the row sum of the batch path. *)
Lemma quadratic_scaled (n : nat) (Cq : list (list Q)) (wq : list Q) :
  Forall (fun row => length row = n) Cq ->
  (Qdot (map (fun k =>
                Qdot wq (map (fun row => nth k row 0%Q)
                             (map (map (fun x => x * 252)%Q) Cq)))
             (seq 0 n)) wq
   == Qdot (map (fun cov_row => Qdot wq cov_row) Cq) wq * 252)%Q.
Proof.
  intros Hshape.
  rewrite Qdot_assoc
    by (apply Forall_map; eapply Forall_impl; [|exact Hshape];
        intros row Hrow; simpl; rewrite length_map; exact Hrow).
  rewrite map_map.
  rewrite (Qdot_map_ext _ (fun row => 252 * Qdot row wq)%Q)
    by (intros row _; apply Qdot_scale_l).
  rewrite Qdot_map_scale.
  rewrite (Qdot_comm (map _ Cq) wq).
  rewrite (Qdot_map_ext (fun cov_row => Qdot wq cov_row)
             (fun row => Qdot row wq))
    by (intros row _; apply Qdot_comm).
  ring.
Qed.

Lemma nth_map_seq {A : Type} (f : nat -> A) (d : A) (n j : nat) :
  j < n -> nth j (map f (seq 0 n)) d = f j.
Proof.
  intros H.
  rewrite (nth_indep _ d (f 0)) by (rewrite length_map, length_seq; exact H).
  rewrite map_nth, seq_nth by exact H. reflexivity.
Qed.

Lemma nth_map_Fin (l : list Q) (k : nat) :
  k < length l -> nth k (map Fin l) NaN = Fin (nth k l 0%Q).
Proof.
  intros H.
  rewrite (nth_indep _ NaN (Fin 0)) by (rewrite length_map; exact H).
  apply map_nth.
Qed.

Lemma column_Fin (n k : nat) (Mq : list (list Q)) :
  Forall (fun row => length row = n) Mq ->
  k < n ->
  column k (map (map Fin) Mq) = map Fin (map (fun row => nth k row 0%Q) Mq).
Proof.
  intros Hshape Hk. unfold column. rewrite !map_map.
  apply map_ext_in. intros row Hrow.
  rewrite Forall_forall in Hshape. apply nth_map_Fin.
  rewrite (Hshape row Hrow). exact Hk.
Qed.

(** Both quadratic forms over a finite covariance matrix. *)
Lemma variance_finite (n : nat) (Cq : list (list Q)) (wq : list Q) :
  length Cq = n ->
  Forall (fun row => length row = n) Cq ->
  length wq = n ->
  exists vb vs : Q,
    fdot (map (fun cov_row => fdot (map Fin wq) cov_row) (map (map Fin) Cq))
         (map Fin wq) = Fin vb
    /\ quadratic_form (map Fin wq)
         (scale_cov (CovMatrix (map (map Fin) Cq)) (Fin 252)) = Ok (Fin vs)
    /\ (vs == vb * 252)%Q.
Proof.
  intros Hlen Hshape Hw.
  exists (Qdot (map (fun cov_row => Qdot wq cov_row) Cq) wq).
  exists (Qdot (map (fun k =>
                  Qdot wq (map (fun row => nth k row 0%Q)
                               (map (map (fun x => x * 252)%Q) Cq)))
               (seq 0 n)) wq).
  split; [|split].
  - rewrite map_map.
    rewrite (map_ext _ (fun cov_row => Fin (Qdot wq cov_row)))
      by (intros; apply fdot_Fin).
    rewrite <- (map_map (Qdot wq) Fin). apply fdot_Fin.
  - assert (Escale : map (map (fun x => fmul x (Fin 252))) (map (map Fin) Cq)
                     = map (map Fin) (map (map (fun x => x * 252)%Q) Cq)).
    { rewrite !map_map. apply map_ext. intros row. rewrite !map_map.
      reflexivity. }
    cbn [scale_cov quadratic_form]. rewrite Escale.
    rewrite !length_map, Hw, Hlen, Nat.eqb_refl.
    f_equal.
    rewrite (map_ext_in _
               (fun k => Fin (Qdot wq (map (fun row => nth k row 0%Q)
                                (map (map (fun x => x * 252)%Q) Cq))))).
    + rewrite <- (map_map _ Fin). apply fdot_Fin.
    + intros k Hk. apply in_seq in Hk.
      rewrite (column_Fin n) by
          first [ lia
                | apply Forall_map; eapply Forall_impl; [|exact Hshape];
                  intros row Hrow; simpl; rewrite length_map; exact Hrow ].
      apply fdot_Fin.
  - apply quadratic_scaled. exact Hshape.
Qed.

(** Both quadratic forms over a covariance matrix of NaN. *)
Lemma variance_nan (n : nat) (C : list (list float)) (w : list float) :
  1 <= n ->
  length C = n ->
  Forall (fun row => length row = n) C ->
  Forall nan_vector C ->
  length w = n ->
  fdot (map (fun cov_row => fdot w cov_row) C) w = NaN
  /\ quadratic_form w (scale_cov (CovMatrix C) (Fin 252)) = Ok NaN.
Proof.
  intros Hn Hlen Hshape Hnan Hw.
  assert (Hwne : w <> []) by (intros ->; simpl in Hw; lia).
  assert (Hne : forall {A B : Type} (f : A -> B) (l : list A),
             1 <= length l -> map f l <> []).
  { intros A B f [|a l] H; simpl in *; [lia|discriminate]. }
  rewrite Forall_forall in Hshape, Hnan.
  split.
  - apply fdot_nan_l; auto.
    + apply Hne. lia.
    + apply Forall_map, Forall_forall. intros row Hrow.
      apply fdot_nan_r; auto.
      intros ->. specialize (Hshape _ Hrow). simpl in Hshape. lia.
  - cbn [scale_cov quadratic_form]. rewrite length_map, Hw, Hlen.
    rewrite Nat.eqb_refl. f_equal.
    apply fdot_nan_l; auto.
    + apply Hne. rewrite length_seq. lia.
    + apply Forall_map, Forall_forall. intros k _.
      apply fdot_nan_r; auto.
      * unfold column. apply Hne. rewrite length_map. lia.
      * unfold column. rewrite map_map. apply Forall_map, Forall_forall.
        intros row Hrow. specialize (Hnan _ Hrow).
        assert (Hrow' : nan_vector (map (fun x => fmul x (Fin 252)) row)).
        { apply Forall_map. eapply Forall_impl; [|exact Hnan].
          intros x ->. reflexivity. }
        destruct (Nat.lt_ge_cases k
                    (length (map (fun x => fmul x (Fin 252)) row)))
          as [Hk|Hk].
        -- unfold nan_vector in Hrow'. rewrite Forall_forall in Hrow'.
           apply Hrow'. apply nth_In. exact Hk.
        -- apply nth_overflow. exact Hk.
Qed.

(** ** The covariance matrix of a finite returns matrix *)

Lemma inject_Z_nonzero (z : Z) :
  z <> 0%Z -> Qeq_bool (inject_Z z) 0 = false.
Proof.
  intros H. destruct (Qeq_bool (inject_Z z) 0) eqn:E; auto.
  apply Qeq_bool_iff in E. unfold Qeq in E. simpl in E. lia.
Qed.

Lemma column_finite (a : Matrix) (j : nat) :
  shape_ok a -> finite_matrix a -> j < mat_cols a ->
  finite_vector (column j (mat_rows a)).
Proof.
  unfold shape_ok, finite_matrix, column. intros Hs Hf Hj.
  rewrite Forall_forall in Hs, Hf.
  apply Forall_map, Forall_forall. intros row Hrow.
  specialize (Hf _ Hrow). unfold finite_vector in Hf.
  rewrite Forall_forall in Hf. apply Hf. apply nth_In.
  rewrite (Hs _ Hrow). exact Hj.
Qed.

Lemma mean_finite (a : Matrix) (j : nat) :
  shape_ok a -> finite_matrix a -> j < mat_cols a ->
  1 <= length (mat_rows a) ->
  exists q, nth j (np_mean_axis0 a) NaN = Fin q.
Proof.
  intros Hs Hf Hj HN. unfold np_mean_axis0.
  rewrite nth_map_seq by exact Hj.
  rewrite (finite_vector_lift _ (column_finite a j Hs Hf Hj)), fsum_Fin.
  unfold fdiv. rewrite inject_Z_nonzero by lia. eauto.
Qed.

Lemma deviations_finite (a : Matrix) (j : nat) :
  shape_ok a -> finite_matrix a -> j < mat_cols a ->
  1 <= length (mat_rows a) ->
  exists dq, deviations a j = map Fin dq.
Proof.
  intros Hs Hf Hj HN. unfold deviations.
  destruct (mean_finite a j Hs Hf Hj HN) as (m & ->).
  exists (map (fun x => (to_Q x + - m)%Q) (column j (mat_rows a))).
  rewrite map_map. apply map_ext_in. intros x Hx.
  pose proof (column_finite a j Hs Hf Hj) as Hc.
  unfold finite_vector in Hc. rewrite Forall_forall in Hc.
  specialize (Hc x Hx). destruct x; try discriminate. reflexivity.
Qed.

(** With at least two observations every covariance is finite. *)
Lemma cov_entry_finite (a : Matrix) (j k : nat) :
  shape_ok a -> finite_matrix a -> j < mat_cols a -> k < mat_cols a ->
  2 <= length (mat_rows a) ->
  is_finite (cov_entry a j k) = true.
Proof.
  intros Hs Hf Hj Hk HN. unfold cov_entry.
  destruct (deviations_finite a j Hs Hf Hj) as (dj & ->); [lia|].
  destruct (deviations_finite a k Hs Hf Hk) as (dk & ->); [lia|].
  rewrite fdot_Fin. unfold fdiv. rewrite inject_Z_nonzero by lia.
  reflexivity.
Qed.

(** With fewer than two observations [np.cov] divides zero by zero. *)
Lemma cov_entry_nan (a : Matrix) (j k : nat) :
  shape_ok a -> finite_matrix a -> j < mat_cols a -> k < mat_cols a ->
  length (mat_rows a) <= 1 ->
  cov_entry a j k = NaN.
Proof.
  intros Hs Hf Hj Hk HN.
  pose proof (column_finite a j Hs Hf Hj) as Hcj.
  pose proof (column_finite a k Hs Hf Hk) as Hck.
  unfold cov_entry, deviations, np_mean_axis0.
  rewrite !nth_map_seq by assumption.
  destruct a as [n rows]. cbn [mat_rows mat_cols] in *.
  destruct rows as [|r [|r2 rows]]; [reflexivity| |simpl in HN; lia].
  unfold column in *. cbn [map length] in *.
  inversion Hcj as [|x ? Hx _]; subst.
  inversion Hck as [|y ? Hy _]; subst.
  destruct (nth j r NaN) as [xq| | |]; try discriminate.
  destruct (nth k r NaN) as [yq| | |]; try discriminate.
  cbn. apply (signed_inf_eq true _ 0%Q). field.
Qed.

Lemma np_cov_T_matrix (a : Matrix) :
  shape_ok a -> finite_matrix a -> 2 <= mat_cols a ->
  exists m,
    np_cov_T a = CovMatrix m
    /\ length m = mat_cols a
    /\ Forall (fun row => length row = mat_cols a) m
    /\ (Forall finite_vector m \/ Forall nan_vector m).
Proof.
  intros Hs Hf Hn. unfold np_cov_T.
  destruct (mat_cols a) as [|[|n']] eqn:En; try lia.
  set (n := S (S n')) in *.
  eexists. split; [reflexivity|].
  split; [rewrite length_map, length_seq; reflexivity|]. split.
  - apply Forall_map, Forall_forall. intros j _.
    rewrite length_map, length_seq. reflexivity.
  - destruct (Nat.le_gt_cases (length (mat_rows a)) 1) as [HN|HN].
    + right. apply Forall_map, Forall_forall. intros j Hj.
      apply in_seq in Hj.
      apply Forall_map, Forall_forall. intros k Hk. apply in_seq in Hk.
      apply cov_entry_nan; auto; rewrite En; lia.
    + left. apply Forall_map, Forall_forall. intros j Hj.
      apply in_seq in Hj.
      apply Forall_map, Forall_forall. intros k Hk. apply in_seq in Hk.
      apply cov_entry_finite; auto; rewrite En; lia.
Qed.

Lemma finite_rows_lift (m : list (list float)) :
  Forall finite_vector m -> m = map (map Fin) (map (map to_Q) m).
Proof.
  induction 1 as [|row m Hrow Hm IH]; simpl; auto.
  f_equal; auto. apply finite_vector_lift. exact Hrow.
Qed.

(** [sqrt (252 v) = sqrt v * sqrt 252]. *)
Lemma np_sqrt_scaled (vb vs : Q) :
  (vs == vb * 252)%Q ->
  req (np_sqrt (Fin vs)) (rmul (np_sqrt (Fin vb)) (np_sqrt (Fin 252))).
Proof.
  intros H. unfold np_sqrt, rmul, req.
  change (Qle_bool 0 252) with true. cbn [signed_square].
  destruct (Qle_bool 0 vs) eqn:Es; destruct (Qle_bool 0 vb) eqn:Eb;
    cbn [signed_square fmul feq]; auto.
  - apply Qle_bool_iff in Es.
    assert (~ (0 <= vb)%Q) by (rewrite <- Qle_bool_iff; congruence). lra.
  - apply Qle_bool_iff in Eb.
    assert (~ (0 <= vs)%Q) by (rewrite <- Qle_bool_iff; congruence). lra.
Qed.

Lemma fdiv_zero_not_finite (a b : float) :
  is_zero b = true -> is_finite (fdiv a b) = false.
Proof.
  destruct b as [z| | |]; try discriminate. simpl. intros Hz.
  destruct a as [x| | |]; simpl; auto.
  - rewrite Hz. unfold signed_inf. destruct (x ?= 0)%Q; reflexivity.
  - destruct (Qle_bool 0 z); reflexivity.
  - destruct (Qle_bool 0 z); reflexivity.
Qed.

Lemma annual_mean_returns_length (a : Matrix) :
  length (annual_mean_returns a) = mat_cols a.
Proof.
  unfold annual_mean_returns, np_mean_axis0.
  rewrite !length_map, length_seq. reflexivity.
Qed.

(** One weight vector: the single-vector functions against the batch
    formulas of its row. *)
Lemma row_agreement (a : Matrix) (w : list float) (m : list (list float)) :
  shape_ok a -> finite_matrix a -> 2 <= mat_cols a ->
  finite_vector w -> length w = mat_cols a ->
  np_cov_T a = CovMatrix m ->
  let R := fdot w (annual_mean_returns a) in
  let V := rmul (np_sqrt (fdot (map (fun cov_row => fdot w cov_row) m) w))
                (np_sqrt (Fin 252)) in
  exists r v,
    calculate_portfolio_return a w = Ok r /\ feq r R
    /\ calculate_portfolio_volatility a w = Ok v /\ req v V
    /\ (r_is_zero v = false ->
        exists sh, calculate_sharpe_ratio a w = Ok sh
                   /\ req sh (rdiv (to_root R) V))
    /\ (r_is_zero v = true ->
        calculate_sharpe_ratio a w = Raise ZeroDivisionError
        /\ r_is_finite (rdiv (to_root R) V) = false).
Proof.
  intros Hs Hf Hn Hw Hlen Hcov R V.
  assert (Hret : calculate_portfolio_return a w
                 = Ok (fdot (annual_mean_returns a) w)).
  { unfold calculate_portfolio_return, broadcast_mul.
    rewrite annual_mean_returns_length, Hlen, Nat.eqb_refl. reflexivity. }
  assert (HR : feq (fdot (annual_mean_returns a) w) R) by apply fdot_comm.
  assert (Hvol : exists v, calculate_portfolio_volatility a w = Ok v
                           /\ req v V).
  { unfold calculate_portfolio_volatility. rewrite Hcov.
    destruct (np_cov_T_matrix a Hs Hf Hn) as (m' & Hm' & Hl & Hsh & Hkind).
    rewrite Hcov in Hm'. inversion Hm'; subst m'; clear Hm'.
    destruct Hkind as [Hfin|Hnan].
    - destruct (variance_finite (mat_cols a) (map (map to_Q) m) (map to_Q w))
        as (vb & vs & Hb & Hq & Hscale).
      + rewrite length_map. exact Hl.
      + apply Forall_map. eapply Forall_impl; [|exact Hsh].
        intros row Hrow. simpl. rewrite length_map. exact Hrow.
      + rewrite length_map. exact Hlen.
      + rewrite <- (finite_rows_lift m Hfin) in Hb, Hq.
        rewrite <- (finite_vector_lift w Hw) in Hb, Hq.
        rewrite Hq. cbn [bind]. eexists. split; [reflexivity|].
        unfold V. rewrite Hb. apply np_sqrt_scaled. exact Hscale.
    - destruct (variance_nan (mat_cols a) m w) as [Hb Hq]; auto; try lia.
      rewrite Hq. cbn [bind]. eexists. split; [reflexivity|].
      unfold V. rewrite Hb. unfold req. reflexivity. }
  destruct Hvol as (v & Hv & HV).
  exists (fdot (annual_mean_returns a) w), v.
  split; [exact Hret|]. split; [exact HR|].
  split; [exact Hv|]. split; [exact HV|].
  assert (Hdiv : req (rdiv (to_root (fdot (annual_mean_returns a) w)) v)
                     (rdiv (to_root R) V)).
  { unfold req, rdiv. cbn [signed_square]. apply fdiv_feq.
    - apply (to_root_feq _ _ HR).
    - exact HV. }
  unfold calculate_sharpe_ratio. rewrite Hret, Hv. cbn [bind].
  unfold py_truediv. split; intros Hz; rewrite Hz.
  - eexists. split; [reflexivity|exact Hdiv].
  - split; [reflexivity|]. unfold r_is_finite, rdiv. cbn [signed_square].
    apply fdiv_zero_not_finite.
    unfold r_is_zero in Hz. rewrite <- (is_zero_feq _ _ HV). exact Hz.
Qed.

Lemma combine_map_self {A B : Type} (g : A -> B) (l : list A) :
  combine (map g l) l = map (fun x => (g x, x)) l.
Proof. induction l as [|a l IH]; simpl; congruence. Qed.

Lemma combine_map_map {A B C : Type} (f : A -> B) (g : A -> C)
    (l : list A) :
  combine (map f l) (map g l) = map (fun x => (f x, g x)) l.
Proof. induction l as [|a l IH]; simpl; congruence. Qed.

Lemma nth_map_lt {A B : Type} (f : A -> B) (l : list A) (i : nat)
    (d : B) (d' : A) :
  i < length l -> nth i (map f l) d = f (nth i l d').
Proof.
  intros H. rewrite (nth_indep _ d (f d')) by (rewrite length_map; exact H).
  apply map_nth.
Qed.

(** The batch computes, row by row, the return [w . mean], the volatility
    [sqrt (sum ((w C^T) * w)) * sqrt 252] and their quotient. *)
Lemma batch_rowwise (a wb : Matrix) (m : list (list float)) :
  mat_cols wb = mat_cols a ->
  np_cov_T a = CovMatrix m ->
  length m = mat_cols a ->
  let R w := fdot w (annual_mean_returns a) in
  let V w := rmul (np_sqrt (fdot (map (fun cov_row => fdot w cov_row) m) w))
                  (np_sqrt (Fin 252)) in
  calculate_portfolio_metrics_vectorized a wb
  = Ok (map (fun w => rdiv (to_root (R w)) (V w)) (mat_rows wb),
        map R (mat_rows wb),
        map V (mat_rows wb)).
Proof.
  intros Hcols Hcov Hlen R V.
  unfold calculate_portfolio_metrics_vectorized, matvec, dot_cov_T.
  rewrite annual_mean_returns_length, Hcov, Hlen, Hcols, Nat.eqb_refl.
  cbn [bind]. unfold row_products_sum.
  rewrite combine_map_self, !map_map. cbn [fst snd].
  rewrite combine_map_map, map_map. reflexivity.
Qed.

(** C2, as the code has it: over a finite returns matrix with at least two
    asset columns and a batch of finite weight vectors of matching length,
    [calculate_portfolio_metrics_vectorized] returns one value per row,
    and for each row its annualized return and volatility are those of
    [calculate_portfolio_return] and [calculate_portfolio_volatility] on
    that row alone; where that volatility is not zero its Sharpe ratio is
    that of [calculate_sharpe_ratio]; where it is zero
    [calculate_sharpe_ratio] raises [ZeroDivisionError] and the batch holds
    a non-finite Sharpe ratio. *)
Theorem batch_metrics_match_single :
  forall a wb : Matrix,
    shape_ok a -> finite_matrix a ->
    shape_ok wb -> finite_matrix wb ->
    mat_cols wb = mat_cols a ->
    2 <= mat_cols a ->
    exists sharpe rets vols,
      calculate_portfolio_metrics_vectorized a wb = Ok (sharpe, rets, vols)
      /\ length sharpe = length (mat_rows wb)
      /\ length rets = length (mat_rows wb)
      /\ length vols = length (mat_rows wb)
      /\ forall i, i < length (mat_rows wb) ->
           let w := nth i (mat_rows wb) [] in
           exists r v,
             calculate_portfolio_return a w = Ok r
             /\ feq r (nth i rets NaN)
             /\ calculate_portfolio_volatility a w = Ok v
             /\ req v (nth i vols (Root NaN))
             /\ (r_is_zero v = false ->
                 exists sh, calculate_sharpe_ratio a w = Ok sh
                            /\ req sh (nth i sharpe (Root NaN)))
             /\ (r_is_zero v = true ->
                 calculate_sharpe_ratio a w = Raise ZeroDivisionError
                 /\ r_is_finite (nth i sharpe (Root NaN)) = false).
Proof.
  intros a wb Hs Hf Hws Hwf Hcols Hn.
  destruct (np_cov_T_matrix a Hs Hf Hn) as (m & Hcov & Hlen & _ & _).
  rewrite (batch_rowwise a wb m Hcols Hcov Hlen).
  do 3 eexists. split; [reflexivity|].
  rewrite !length_map. do 3 (split; [reflexivity|]).
  intros i Hi w.
  assert (Hin : In w (mat_rows wb)) by (apply nth_In; exact Hi).
  unfold shape_ok in Hws. unfold finite_matrix in Hwf.
  rewrite Forall_forall in Hws, Hwf.
  rewrite !(nth_map_lt _ _ _ _ []) by exact Hi. fold w.
  apply row_agreement; auto.
  rewrite (Hws w Hin). exact Hcols.
Qed.

Lemma batch_metrics_match_single_witness :
  exists sharpe rets vols,
    calculate_portfolio_metrics_vectorized two_asset_returns two_asset_batch
    = Ok (sharpe, rets, vols)
    /\ exists sh,
         calculate_sharpe_ratio two_asset_returns
           (nth 1 (mat_rows two_asset_batch) []) = Ok sh
         /\ req sh (nth 1 sharpe (Root NaN)).
Proof.
  assert (Hfin : forall l, finite_vector (map Fin l))
    by apply finite_vector_map_Fin.
  destruct (batch_metrics_match_single two_asset_returns two_asset_batch)
    as (sharpe & rets & vols & Hb & _ & _ & _ & Hrows).
  - repeat constructor.
  - repeat constructor.
  - repeat constructor.
  - repeat constructor.
  - reflexivity.
  - simpl. lia.
  - exists sharpe, rets, vols. split; [exact Hb|].
    destruct (Hrows 1) as (r & v & Hr & _ & Hv & _ & Hnz & _);
      [simpl; lia|].
    apply Hnz.
    assert (E : exists x,
               calculate_portfolio_volatility two_asset_returns
                 (nth 1 (mat_rows two_asset_batch) []) = Ok x
               /\ r_is_zero x = false)
      by (vm_compute; eexists; split; reflexivity).
    destruct E as (x & Ex & Hx). rewrite Ex in Hv.
    inversion Hv; subst v. exact Hx.
Defined.

(** C2, as stated, fails where a weight vector has zero volatility: the
    batch returns an infinite Sharpe ratio for the row, while
    [calculate_sharpe_ratio] on the same row raises. *)
Lemma batch_differs_from_single_at_zero_volatility :
  (exists rets vols,
     calculate_portfolio_metrics_vectorized flat_returns
       {| mat_cols := 5; mat_rows := [equal_weights] |}
     = Ok ([Root PInf], rets, vols))
  /\ calculate_sharpe_ratio flat_returns equal_weights
     = Raise ZeroDivisionError.
Proof.
  split.
  - do 2 eexists. vm_compute. reflexivity.
  - vm_compute. reflexivity.
Qed.

(** With a single asset column [np.cov] returns a zero-dimensional array,
    which the batch multiplies by and [matmul] in
    [calculate_portfolio_volatility] rejects. *)
Lemma single_asset_volatility_raises :
  let one_asset :=
    {| mat_cols := 1; mat_rows := [[Fin (1 # 100)]; [Fin (3 # 100)]] |} in
  is_ok (calculate_portfolio_metrics_vectorized one_asset
           {| mat_cols := 1; mat_rows := [[Fin 1]] |}) = true
  /\ is_ok (calculate_portfolio_volatility one_asset [Fin 1]) = false.
Proof. split; vm_compute; reflexivity. Qed.

(** ** The order of doubles *)

Lemma fle_b_Fin (x y : Q) : fle_b (Fin x) (Fin y) = true <-> (x <= y)%Q.
Proof. simpl. apply Qle_bool_iff. Qed.

Lemma flt_b_Fin (x y : Q) : flt_b (Fin x) (Fin y) = true <-> (x < y)%Q.
Proof.
  simpl. rewrite Qlt_alt. destruct (x ?= y)%Q; split; congruence.
Qed.

Lemma fle_b_Fin_false (x y : Q) :
  fle_b (Fin x) (Fin y) = false <-> (y < x)%Q.
Proof.
  rewrite <- not_true_iff_false, fle_b_Fin. split.
  - apply Qnot_le_lt.
  - intros H1 H2. apply (Qlt_not_le _ _ H1 H2).
Qed.

Lemma flt_b_Fin_false (x y : Q) :
  flt_b (Fin x) (Fin y) = false <-> (y <= x)%Q.
Proof.
  rewrite <- not_true_iff_false, flt_b_Fin. split.
  - apply Qnot_lt_le.
  - intros H1 H2. apply (Qle_not_lt _ _ H1 H2).
Qed.

Ltac float_order :=
  intros;
  repeat match goal with
         | a : float |- _ => destruct a
         end;
  unfold fgt_b in *;
  try discriminate; try reflexivity;
  repeat match goal with
         | H : fle_b (Fin _) (Fin _) = true |- _ => apply fle_b_Fin in H
         | H : flt_b (Fin _) (Fin _) = true |- _ => apply flt_b_Fin in H
         | H : fle_b (Fin _) (Fin _) = false |- _ => apply fle_b_Fin_false in H
         | H : flt_b (Fin _) (Fin _) = false |- _ => apply flt_b_Fin_false in H
         end;
  try match goal with
      | |- fle_b (Fin _) (Fin _) = true => apply fle_b_Fin
      | |- flt_b (Fin _) (Fin _) = true => apply flt_b_Fin
      | |- fle_b (Fin _) (Fin _) = false => apply fle_b_Fin_false
      | |- flt_b (Fin _) (Fin _) = false => apply flt_b_Fin_false
      end;
  try lra.

Lemma fle_b_not_nan (a b : float) :
  fle_b a b = true -> is_nan a = false /\ is_nan b = false.
Proof. destruct a, b; simpl; intros; try discriminate; auto. Qed.

Lemma fle_b_refl (a : float) : is_nan a = false -> fle_b a a = true.
Proof. float_order. Qed.

Lemma fle_b_trans (a b c : float) :
  fle_b a b = true -> fle_b b c = true -> fle_b a c = true.
Proof. float_order. Qed.

Lemma fgt_b_fle_b (a b : float) : fgt_b a b = true -> fle_b b a = true.
Proof. float_order. Qed.

Lemma not_fgt_b_fle_b (a b : float) :
  is_nan a = false -> is_nan b = false ->
  fgt_b a b = false -> fle_b a b = true.
Proof. float_order. Qed.

Lemma not_fle_b_fgt_b (a b : float) :
  is_nan a = false -> is_nan b = false ->
  fle_b a b = false -> fgt_b a b = true.
Proof. float_order. Qed.

Lemma fle_b_fgt_b_trans (a b c : float) :
  fle_b a b = true -> fgt_b c b = true -> fgt_b c a = true.
Proof. float_order. Qed.

(** ** The square roots of the model and the real numbers *)

Lemma signed_square_increasing (a b : R) :
  (a < b -> a * Rabs a < b * Rabs b)%R.
Proof.
  intros H. unfold Rabs.
  destruct (Rcase_abs a), (Rcase_abs b); Lra.nra.
Qed.

Lemma signed_square_injective (a b : R) :
  (a * Rabs a = b * Rabs b)%R -> a = b.
Proof.
  intros H. destruct (Rtotal_order a b) as [Hlt|[Heq|Hgt]]; auto.
  - apply signed_square_increasing in Hlt. Lra.lra.
  - apply signed_square_increasing in Hgt. Lra.lra.
Qed.

Lemma Q2R_0 : Q2R 0 = 0%R.
Proof. unfold Q2R. simpl. Lra.lra. Qed.

Lemma root_value_square (s : Q) :
  (root_value s * Rabs (root_value s))%R = Q2R s.
Proof.
  unfold root_value. destruct (Qle_bool 0 s) eqn:E.
  - apply Qle_bool_iff, Qle_Rle in E. rewrite Q2R_0 in E.
    rewrite Rabs_pos_eq by apply sqrt_pos. apply sqrt_sqrt. exact E.
  - assert (H : (Q2R s < 0)%R).
    { rewrite <- Q2R_0. apply Qlt_Rlt. apply Qnot_le_lt.
      rewrite <- Qle_bool_iff. congruence. }
    rewrite Rabs_Ropp, Rabs_pos_eq by apply sqrt_pos.
    rewrite Q2R_opp.
    replace (- sqrt (- Q2R s) * sqrt (- Q2R s))%R
      with (- (sqrt (- Q2R s) * sqrt (- Q2R s)))%R by ring.
    rewrite sqrt_sqrt by Lra.lra. ring.
Qed.

Lemma root_value_unique (r : R) (s : Q) :
  (r * Rabs r)%R = Q2R s -> r = root_value s.
Proof.
  intros H. apply signed_square_injective.
  rewrite root_value_square. exact H.
Qed.

Lemma root_value_sqrt (q : Q) :
  (0 <= q)%Q -> root_value q = sqrt (Q2R q).
Proof.
  intros H. unfold root_value. apply Qle_bool_iff in H. rewrite H.
  reflexivity.
Qed.

Lemma root_value_mult (a b : Q) :
  root_value (a * b) = (root_value a * root_value b)%R.
Proof.
  symmetry. apply root_value_unique.
  rewrite Rabs_mult, Q2R_mult, <- (root_value_square a),
    <- (root_value_square b). ring.
Qed.

Lemma root_value_nonzero (b : Q) : ~ (b == 0)%Q -> root_value b <> 0%R.
Proof.
  intros Hb H. apply Hb. apply eqR_Qeq. rewrite Q2R_0.
  rewrite <- (root_value_square b), H. ring.
Qed.

Lemma root_value_div (a b : Q) :
  ~ (b == 0)%Q -> root_value (a / b) = (root_value a / root_value b)%R.
Proof.
  intros Hb. symmetry. apply root_value_unique.
  pose proof (root_value_nonzero b Hb) as Hr.
  rewrite Q2R_div by exact Hb.
  rewrite <- (root_value_square a), <- (root_value_square b).
  unfold Rdiv. rewrite Rabs_mult, Rabs_inv.
  field. split; [apply Rabs_no_R0|]; exact Hr.
Qed.

Lemma Q2R_abs (x : Q) : Q2R (Qabs x) = Rabs (Q2R x).
Proof.
  apply Qabs_case; intros H.
  - apply Qle_Rle in H. rewrite Q2R_0 in H.
    rewrite Rabs_pos_eq by exact H. reflexivity.
  - apply Qle_Rle in H. rewrite Q2R_0 in H.
    rewrite Q2R_opp. rewrite Rabs_left1 by exact H. reflexivity.
Qed.

Lemma root_value_rational (x : Q) : root_value (x * Qabs x) = Q2R x.
Proof.
  symmetry. apply root_value_unique. rewrite Q2R_mult, Q2R_abs. reflexivity.
Qed.

Lemma root_value_lt (a b : Q) :
  (a < b)%Q <-> (root_value a < root_value b)%R.
Proof.
  split; intros H.
  - destruct (Rlt_le_dec (root_value a) (root_value b)) as [Hlt|Hle]; auto.
    apply Qlt_Rlt in H.
    rewrite <- (root_value_square a), <- (root_value_square b) in H.
    destruct Hle as [Hlt|Heq].
    + apply signed_square_increasing in Hlt. Lra.lra.
    + rewrite Heq in H. Lra.lra.
  - apply Rlt_Qlt.
    rewrite <- (root_value_square a), <- (root_value_square b).
    apply signed_square_increasing. exact H.
Qed.

Lemma root_value_eq (a b : Q) :
  (a == b)%Q <-> root_value a = root_value b.
Proof.
  split; intros H.
  - apply signed_square_injective. rewrite !root_value_square.
    apply Qeq_eqR. exact H.
  - apply eqR_Qeq. rewrite <- (root_value_square a), H.
    apply root_value_square.
Qed.

(** [np.sqrt], the product, the quotient and the comparisons of the model
    are those of the real numbers that the finite roots stand for. *)
Lemma np_sqrt_real (q : Q) :
  (0 <= q)%Q -> real_of_root (np_sqrt (Fin q)) = sqrt (Q2R q).
Proof.
  intros H. unfold np_sqrt. rewrite (proj2 (Qle_bool_iff 0 q) H).
  apply root_value_sqrt. exact H.
Qed.

Lemma to_root_real (x : Q) : real_of_root (to_root (Fin x)) = Q2R x.
Proof. apply root_value_rational. Qed.

Lemma rmul_real (a b : Q) :
  real_of_root (rmul (Root (Fin a)) (Root (Fin b)))
  = (real_of_root (Root (Fin a)) * real_of_root (Root (Fin b)))%R.
Proof. apply root_value_mult. Qed.

Lemma rdiv_real (a b : Q) :
  r_is_zero (Root (Fin b)) = false ->
  real_of_root (rdiv (Root (Fin a)) (Root (Fin b)))
  = (real_of_root (Root (Fin a)) / real_of_root (Root (Fin b)))%R.
Proof.
  unfold r_is_zero, rdiv, real_of_root. cbn [signed_square is_zero fdiv].
  intros H. rewrite H. apply root_value_div.
  apply Qeq_bool_neq. exact H.
Qed.

Lemma rgt_b_real (a b : Q) :
  rgt_b (Root (Fin a)) (Root (Fin b)) = true
  <-> (real_of_root (Root (Fin b)) < real_of_root (Root (Fin a)))%R.
Proof.
  unfold rgt_b, fgt_b, real_of_root. cbn [signed_square].
  rewrite flt_b_Fin. apply root_value_lt.
Qed.

Lemma req_real (a b : Q) :
  req (Root (Fin a)) (Root (Fin b))
  <-> real_of_root (Root (Fin a)) = real_of_root (Root (Fin b)).
Proof. apply root_value_eq. Qed.

(** ** The reduction *)

Lemma py_max_from_In (rest : list Portfolio) :
  forall best, In (py_max_from best rest) (best :: rest).
Proof.
  induction rest as [|x rest IH]; intros best; simpl.
  - left. reflexivity.
  - destruct (rgt_b (sharpe_ratio x) (sharpe_ratio best)).
    + right. apply IH.
    + destruct (IH best) as [H|H]; auto.
Qed.

Lemma py_max_from_max (rest : list Portfolio) :
  forall best,
    (forall p, In p (best :: rest) -> r_is_nan (sharpe_ratio p) = false) ->
    forall p, In p (best :: rest) ->
      rle_b (sharpe_ratio p) (sharpe_ratio (py_max_from best rest)) = true.
Proof.
  unfold rle_b, r_is_nan.
  induction rest as [|x rest IH]; intros best Hnan p Hp.
  - destruct Hp as [<-|[]]. simpl. apply fle_b_refl. apply Hnan. left.
    reflexivity.
  - cbn [py_max_from]. unfold rgt_b.
    assert (Hb : is_nan (signed_square (sharpe_ratio best)) = false)
      by (apply Hnan; left; reflexivity).
    assert (Hx : is_nan (signed_square (sharpe_ratio x)) = false)
      by (apply Hnan; right; left; reflexivity).
    destruct (fgt_b (signed_square (sharpe_ratio x))
                    (signed_square (sharpe_ratio best))) eqn:E; cbv iota.
    + assert (IHx := IH x).
      assert (Hnan' : forall q, In q (x :: rest) ->
                is_nan (signed_square (sharpe_ratio q)) = false)
        by (intros q Hq; apply Hnan; right; exact Hq).
      destruct Hp as [<-|Hp].
      * eapply fle_b_trans; [apply fgt_b_fle_b, E|].
        apply IHx; auto. left. reflexivity.
      * apply IHx; auto.
    + assert (Hnan' : forall q, In q (best :: rest) ->
                is_nan (signed_square (sharpe_ratio q)) = false).
      { intros q [<-|Hq]; auto. apply Hnan. right. right. exact Hq. }
      destruct Hp as [<-|[<-|Hp]].
      * apply IH; auto. left. reflexivity.
      * eapply fle_b_trans; [exact (not_fgt_b_fle_b _ _ Hx Hb E)|].
        apply IH; auto. left. reflexivity.
      * apply IH; auto. right. exact Hp.
Qed.

Lemma reduce_results_spec (results : list Portfolio) :
  (results = [] -> reduce_results results = Raise no_valid_portfolios)
  /\ (results <> [] ->
      exists best,
        reduce_results results = Ok best
        /\ In best results
        /\ ((forall p, In p results -> r_is_nan (sharpe_ratio p) = false) ->
            forall p, In p results ->
              rle_b (sharpe_ratio p) (sharpe_ratio best) = true)).
Proof.
  split.
  - intros ->. reflexivity.
  - intros Hne. destruct results as [|first rest]; [congruence|].
    exists (py_max_from first rest). split; [reflexivity|]. split.
    + apply py_max_from_In.
    + apply py_max_from_max.
Qed.

(** C4, as the code has it: in both paths the reduction raises the
    "No valid portfolios found" error when the collected list is empty;
    otherwise it returns one of the collected records, and when no
    collected Sharpe ratio is NaN that record's Sharpe ratio is the maximum
    over all collected records. *)
Theorem reduction_spec :
  forall (chunk_results : list (list (option Portfolio)))
         (results : list Portfolio),
    (flatten_chunk_results chunk_results = [] ->
     reduce_parallel chunk_results = Raise no_valid_portfolios)
    /\ (results = [] ->
        reduce_sequential results = Raise no_valid_portfolios)
    /\ (flatten_chunk_results chunk_results <> [] ->
        exists best,
          reduce_parallel chunk_results = Ok best
          /\ In best (flatten_chunk_results chunk_results)
          /\ ((forall p, In p (flatten_chunk_results chunk_results) ->
                 r_is_nan (sharpe_ratio p) = false) ->
              forall p, In p (flatten_chunk_results chunk_results) ->
                rle_b (sharpe_ratio p) (sharpe_ratio best) = true))
    /\ (results <> [] ->
        exists best,
          reduce_sequential results = Ok best
          /\ In best results
          /\ ((forall p, In p results ->
                 r_is_nan (sharpe_ratio p) = false) ->
              forall p, In p results ->
                rle_b (sharpe_ratio p) (sharpe_ratio best) = true)).
Proof.
  intros chunk_results results. unfold reduce_parallel, reduce_sequential.
  destruct (reduce_results_spec (flatten_chunk_results chunk_results))
    as [H1 H2].
  destruct (reduce_results_spec results) as [H3 H4].
  auto.
Qed.

Lemma reduction_spec_witness :
  let a := record_with_sharpe "AAPL" (Fin 1) in
  let b := record_with_sharpe "AMGN" (Fin 2) in
  let c := record_with_sharpe "AXP" NInf in
  reduce_parallel [[]; [None]] = Raise no_valid_portfolios
  /\ reduce_sequential [] = Raise no_valid_portfolios
  /\ (exists best,
        reduce_parallel [[Some a; None]; [Some b; Some c]] = Ok best
        /\ forall p, In p [a; b; c] ->
             rle_b (sharpe_ratio p) (sharpe_ratio best) = true)
  /\ (exists best,
        reduce_sequential [a; b; c] = Ok best
        /\ forall p, In p [a; b; c] ->
             rle_b (sharpe_ratio p) (sharpe_ratio best) = true).
Proof.
  intros a b c.
  assert (Hnan : forall p, In p [a; b; c] ->
            r_is_nan (sharpe_ratio p) = false).
  { intros p [<-|[<-|[<-|[]]]]; reflexivity. }
  destruct (reduction_spec [[]; [None]] []) as (E1 & E2 & _ & _).
  destruct (reduction_spec [[Some a; None]; [Some b; Some c]] [a; b; c])
    as (_ & _ & P & S).
  split; [apply E1; reflexivity|]. split; [apply E2; reflexivity|].
  split.
  - destruct P as (best & Hb & _ & Hmax); [discriminate|].
    exists best. split; [exact Hb|]. apply Hmax. exact Hnan.
  - destruct S as (best & Hb & _ & Hmax); [discriminate|].
    exists best. split; [exact Hb|]. apply Hmax. exact Hnan.
Defined.

(** C4, as stated, fails when a collected Sharpe ratio is NaN: [max] keeps
    a NaN record met first although a later record has a larger Sharpe
    ratio. *)
Lemma reduction_returns_nan_record :
  let a := record_with_sharpe "AAPL" NaN in
  let b := record_with_sharpe "AMGN" (Fin 1) in
  reduce_sequential [a; b] = Ok a
  /\ reduce_parallel [[Some a]; [Some b]] = Ok a
  /\ In b [a; b]
  /\ rle_b (sharpe_ratio b) (sharpe_ratio a) = false.
Proof. repeat split; try reflexivity. right. left. reflexivity. Qed.

(** ** [np.argmax] *)

(** The scan keeps this invariant: [pre] is the part already seen, it
    holds no NaN, [mp] is its maximum and [max_ind] the first position of
    that maximum. *)
Lemma argmax_scan_spec (d : rfloat) (l : list rfloat) :
  forall (pre : list rfloat) (mp : rfloat) (max_ind : nat),
    max_ind < length pre ->
    nth max_ind pre d = mp ->
    (forall x, In x pre -> rle_b x mp = true) ->
    (forall j, j < max_ind -> rgt_b mp (nth j pre d) = true) ->
    let best := argmax_scan mp max_ind (length pre) l in
    let all := pre ++ l in
    best < length all
    /\ ((forall x, In x l -> r_is_nan x = false) ->
        (forall x, In x all -> rle_b x (nth best all d) = true)
        /\ (forall j, j < best -> rgt_b (nth best all d) (nth j all d) = true))
    /\ ((exists x, In x l /\ r_is_nan x = true) ->
        r_is_nan (nth best all d) = true
        /\ (forall j, j < best -> r_is_nan (nth j all d) = false)).
Proof.
  unfold rle_b, rgt_b, r_is_nan.
  induction l as [|x l IH]; intros pre mp max_ind Hlt Hnth Hle Hfirst;
    cbn zeta.
  - cbn [argmax_scan]. rewrite app_nil_r. split; [exact Hlt|]. split.
    + intros _. rewrite Hnth. split; assumption.
    + intros (x & [] & _).
  - cbn [argmax_scan]. unfold rle_b, r_is_nan.
    assert (Hmp : is_nan (signed_square mp) = false).
    { apply (fle_b_not_nan _ _ (Hle mp ltac:(rewrite <- Hnth;
                                              apply nth_In; exact Hlt))). }
    assert (Hall : pre ++ x :: l = (pre ++ [x]) ++ l)
      by (rewrite <- app_assoc; reflexivity).
    assert (Hlen : length (pre ++ [x]) = S (length pre))
      by (rewrite length_app; simpl; lia).
    assert (Hpre : forall j, j < length pre ->
              nth j (pre ++ [x]) d = nth j pre d)
      by (intros j Hj; apply app_nth1; exact Hj).
    destruct (fle_b (signed_square x) (signed_square mp)) eqn:Ex; cbn [negb].
    + (* [x <= mp]: the maximum stays *)
      destruct (IH (pre ++ [x]) mp max_ind) as (H1 & H2 & H3).
      * rewrite Hlen. lia.
      * rewrite Hpre by exact Hlt. exact Hnth.
      * intros y Hy. apply in_app_or in Hy. destruct Hy as [Hy|[<-|[]]]; auto.
      * intros j Hj. rewrite Hpre by lia. apply Hfirst. exact Hj.
      * rewrite Hlen in *. rewrite Hall. split; [exact H1|]. split.
        -- intros Hn. apply H2. intros y Hy. apply Hn. right. exact Hy.
        -- intros (y & [<-|Hy] & Hynan).
           ++ apply fle_b_not_nan in Ex. destruct Ex. congruence.
           ++ apply H3. exists y. split; assumption.
    + destruct (is_nan (signed_square x)) eqn:Exn.
      * (* the first NaN ends the scan *)
        assert (Hx : nth (length pre) (pre ++ x :: l) d = x)
          by (rewrite app_nth2, Nat.sub_diag by lia; reflexivity).
        split; [rewrite length_app; simpl; lia|]. split.
        -- intros Hn. specialize (Hn x (or_introl eq_refl)). congruence.
        -- intros _. rewrite Hx. split; [exact Exn|].
           intros j Hj. rewrite app_nth1 by exact Hj.
           apply (fle_b_not_nan _ _ (Hle _ (nth_In _ _ Hj))).
      * (* [x > mp]: a new maximum *)
        assert (Hgt : fgt_b (signed_square x) (signed_square mp) = true)
          by (apply not_fle_b_fgt_b; assumption).
        destruct (IH (pre ++ [x]) x (length pre)) as (H1 & H2 & H3).
        -- rewrite Hlen. lia.
        -- rewrite app_nth2, Nat.sub_diag by lia. reflexivity.
        -- intros y Hy. apply in_app_or in Hy. destruct Hy as [Hy|[<-|[]]].
           ++ eapply fle_b_trans; [apply Hle, Hy|].
              apply fgt_b_fle_b. exact Hgt.
           ++ apply fle_b_refl. exact Exn.
        -- intros j Hj. rewrite Hpre by exact Hj.
           eapply fle_b_fgt_b_trans; [|exact Hgt].
           apply Hle. apply nth_In. exact Hj.
        -- rewrite Hlen in *. rewrite Hall. split; [exact H1|]. split.
           ++ intros Hn. apply H2. intros y Hy. apply Hn. right. exact Hy.
           ++ intros (y & [<-|Hy] & Hynan); [congruence|].
              apply H3. exists y. split; assumption.
Qed.

(** [np.argmax] fails only on an empty array; without NaN it returns the
    first position of the maximum, with NaN the position of the first
    NaN. *)
Lemma np_argmax_spec (d : rfloat) (l : list rfloat) :
  (l = [] -> is_ok (np_argmax l) = false)
  /\ (l <> [] ->
      exists best,
        np_argmax l = Ok best
        /\ best < length l
        /\ ((forall x, In x l -> r_is_nan x = false) ->
            (forall x, In x l -> rle_b x (nth best l d) = true)
            /\ (forall j, j < best ->
                  rgt_b (nth best l d) (nth j l d) = true))
        /\ ((exists x, In x l /\ r_is_nan x = true) ->
            r_is_nan (nth best l d) = true
            /\ (forall j, j < best -> r_is_nan (nth j l d) = false))).
Proof.
  split; [intros ->; reflexivity|].
  intros Hne. destruct l as [|mp rest]; [congruence|]. clear Hne.
  cbn [np_argmax]. destruct (r_is_nan mp) eqn:Emp.
  - exists 0. split; [reflexivity|]. split; [simpl; lia|]. split.
    + intros Hn. specialize (Hn mp (or_introl eq_refl)). congruence.
    + intros _. split; [exact Emp|]. intros j Hj. lia.
  - exists (argmax_scan mp 0 1 rest). split; [reflexivity|].
    destruct (argmax_scan_spec d rest [mp] mp 0) as (H1 & H2 & H3).
    + simpl. lia.
    + reflexivity.
    + intros x [<-|[]]. unfold rle_b. apply fle_b_refl. exact Emp.
    + intros j Hj. lia.
    + cbn [length app] in *. split; [exact H1|]. split.
      * intros Hn. apply H2. intros x Hx. apply Hn. right. exact Hx.
      * intros (x & [<-|Hx] & Hxn); [congruence|].
        apply H3. exists x. split; assumption.
Qed.

(** ** The batch, whatever its entries *)

Lemma np_cov_T_length (a : Matrix) (m : list (list float)) :
  np_cov_T a = CovMatrix m -> length m = mat_cols a.
Proof.
  unfold np_cov_T. destruct (mat_cols a) as [|[|n]]; intros H;
    try discriminate; injection H as <-.
  - reflexivity.
  - cbn [length]. rewrite length_map, length_seq. reflexivity.
Qed.

(** The batch fails on a shape mismatch only. *)
Lemma batch_total (a wb : Matrix) :
  mat_cols wb = mat_cols a ->
  is_ok (calculate_portfolio_metrics_vectorized a wb) = true.
Proof.
  intros Hcols.
  unfold calculate_portfolio_metrics_vectorized, matvec, dot_cov_T.
  rewrite annual_mean_returns_length, Hcols, Nat.eqb_refl. cbn [bind].
  destruct (np_cov_T a) as [c|m] eqn:Ecov; [reflexivity|].
  rewrite (np_cov_T_length a m Ecov), Nat.eqb_refl. reflexivity.
Qed.

(** One entry per weight vector, and every Sharpe ratio is the quotient of
    the return and the volatility of its row. *)
Lemma batch_inversion (a wb : Matrix) (sharpe : list rfloat)
    (rets : list float) (vols : list rfloat) :
  calculate_portfolio_metrics_vectorized a wb = Ok (sharpe, rets, vols) ->
  length sharpe = length (mat_rows wb)
  /\ length rets = length (mat_rows wb)
  /\ length vols = length (mat_rows wb)
  /\ forall i, i < length (mat_rows wb) ->
       nth i sharpe (Root NaN)
       = rdiv (to_root (nth i rets NaN)) (nth i vols (Root NaN)).
Proof.
  unfold calculate_portfolio_metrics_vectorized, matvec.
  destruct (mat_cols wb =? length (annual_mean_returns a));
    [|discriminate].
  cbn [bind].
  destruct (dot_cov_T wb (np_cov_T a)) as [cov_w|e] eqn:Edot; [|discriminate].
  cbn [bind]. intros H. inversion H; subst; clear H.
  assert (Hcw : length cov_w = length (mat_rows wb)).
  { unfold dot_cov_T in Edot. destruct (np_cov_T a) as [c|m].
    - inversion Edot; subst. apply length_map.
    - destruct (mat_cols wb =? length m); [|discriminate].
      inversion Edot; subst. apply length_map. }
  assert (Hv : length (row_products_sum cov_w (mat_rows wb))
               = length (mat_rows wb)).
  { unfold row_products_sum. rewrite length_map, length_combine. lia. }
  rewrite !length_map, length_combine, !length_map, Hv.
  split; [lia|]. split; [reflexivity|]. split; [reflexivity|].
  intros i Hi.
  rewrite (nth_map_lt _ _ _ _ (NaN, Root NaN))
    by (rewrite length_combine, !length_map, Hv; lia).
  rewrite combine_nth by (rewrite !length_map, Hv; reflexivity).
  reflexivity.
Qed.




(** ** The per-combination evaluator *)

Lemma find_best_inversion (a wb : Matrix) (combination : list string)
    (p : Portfolio) :
  find_best_portfolio_from_batch a wb combination = Ok p ->
  exists sharpe rets vols best w,
    calculate_portfolio_metrics_vectorized a wb = Ok (sharpe, rets, vols)
    /\ np_argmax sharpe = Ok best
    /\ nth_error (mat_rows wb) best = Some w
    /\ p = {| stocks := combination;
              weights := dict_of_pairs (combine combination w);
              sharpe_ratio := nth best sharpe (Root NaN);
              annual_return := nth best rets NaN;
              annual_volatility := nth best vols (Root NaN) |}.
Proof.
  unfold find_best_portfolio_from_batch, getitem.
  destruct (calculate_portfolio_metrics_vectorized a wb)
    as [[[sharpe rets] vols]|e]; [|discriminate].
  cbn [bind].
  destruct (np_argmax sharpe) as [best|e] eqn:Earg; [|discriminate].
  cbn [bind].
  destruct (nth_error (mat_rows wb) best) as [w|] eqn:Ew; [|discriminate].
  cbn [bind].
  destruct (nth_error sharpe best) as [s|] eqn:Es; [|discriminate].
  cbn [bind].
  destruct (nth_error rets best) as [r|] eqn:Er; [|discriminate].
  cbn [bind].
  destruct (nth_error vols best) as [v|] eqn:Ev; [|discriminate].
  cbn [bind]. intros H. inversion H; subst; clear H.
  exists sharpe, rets, vols, best, w.
  rewrite (nth_error_nth _ _ (Root NaN) Es), (nth_error_nth _ _ NaN Er),
    (nth_error_nth _ _ (Root NaN) Ev).
  repeat split; first [reflexivity | assumption].
Qed.

(** A dictionary built from pairs with distinct keys is the list of the
    pairs. *)
Lemma dict_set_fresh {V : Type} (k : string) (v : V) (d : list (string * V)) :
  ~ In k (map fst d) -> dict_set k v d = d ++ [(k, v)].
Proof.
  induction d as [|[k' v'] d IH]; simpl; intros H; auto.
  destruct (string_dec k k') as [->|_]; [exfalso; auto|].
  rewrite IH by auto. reflexivity.
Qed.

Lemma dict_of_pairs_distinct {V : Type} (pairs : list (string * V)) :
  NoDup (map fst pairs) -> dict_of_pairs pairs = pairs.
Proof.
  unfold dict_of_pairs.
  assert (H : forall d, NoDup (map fst (d ++ pairs)) ->
            fold_left (fun d kv => dict_set (fst kv) (snd kv) d) pairs d
            = d ++ pairs).
  { induction pairs as [|[k v] pairs IH]; intros d Hnd; simpl.
    - rewrite app_nil_r. reflexivity.
    - rewrite dict_set_fresh.
      + rewrite IH; rewrite <- app_assoc; [reflexivity|exact Hnd].
      + rewrite map_app in Hnd. simpl in Hnd.
        apply NoDup_remove_2 in Hnd. intros Hin. apply Hnd.
        apply in_or_app. left. exact Hin. }
  intros Hnd. apply (H []). exact Hnd.
Qed.

(** C8, as the code has it: [process_stock_combination] returns a record
    or null and never an exception; it returns null exactly when the body
    of its [try] block raises.  A returned record holds the combination's
    symbols, binds them to one row of the sampled weight batch, and holds
    the metrics of that row.  When no Sharpe ratio of the batch is NaN the
    row is the first one of maximal Sharpe ratio; when some Sharpe ratio is
    NaN it is the first row whose Sharpe ratio is NaN. *)
Theorem process_stock_combination_spec :
  forall (depth : nat) (s : rng) (combination : list string)
         (returns_array : Matrix) (column_indices : list nat)
         (n_simulations : nat),
    let body := fst (process_stock_combination_try depth s combination
                       returns_array column_indices n_simulations) in
    let out := fst (process_stock_combination depth s combination
                      returns_array column_indices n_simulations) in
    (out = None <-> exists e, body = Raise e)
    /\ forall p, out = Some p ->
         body = Ok p
         /\ exists selected weight_rows s' sharpe rets vols best,
              select_columns returns_array column_indices = Ok selected
              /\ generate_valid_weights depth s (length combination)
                   n_simulations = (Ok weight_rows, s')
              /\ calculate_portfolio_metrics_vectorized selected
                   {| mat_cols := length combination;
                      mat_rows := weight_rows |} = Ok (sharpe, rets, vols)
              /\ length sharpe = length weight_rows
              /\ best < length weight_rows
              /\ stocks p = combination
              /\ weights p
                 = dict_of_pairs
                     (combine combination (nth best weight_rows []))
              /\ (NoDup combination ->
                  weights p = combine combination (nth best weight_rows []))
              /\ sharpe_ratio p = nth best sharpe (Root NaN)
              /\ annual_return p = nth best rets NaN
              /\ annual_volatility p = nth best vols (Root NaN)
              /\ ((forall x, In x sharpe -> r_is_nan x = false) ->
                  (forall x, In x sharpe ->
                     rle_b x (sharpe_ratio p) = true)
                  /\ (forall j, j < best ->
                        rgt_b (sharpe_ratio p)
                              (nth j sharpe (Root NaN)) = true))
              /\ ((exists x, In x sharpe /\ r_is_nan x = true) ->
                  r_is_nan (sharpe_ratio p) = true
                  /\ (forall j, j < best ->
                        r_is_nan (nth j sharpe (Root NaN)) = false)).
Proof.
  intros depth s combination returns_array column_indices n_simulations
    body out.
  unfold out, process_stock_combination. fold body.
  assert (Hsplit : process_stock_combination_try depth s combination
                     returns_array column_indices n_simulations
                   = (body, snd (process_stock_combination_try depth s
                                   combination returns_array column_indices
                                   n_simulations)))
    by (unfold body; apply surjective_pairing).
  rewrite Hsplit. split.
  - destruct body as [p|e]; cbn [fst]; split.
    + discriminate.
    + intros (e & He). discriminate.
    + intros _. eauto.
    + reflexivity.
  - intros p Hp. assert (Hbody : body = Ok p).
    { destruct body as [q|e]; cbn [fst] in Hp; congruence. }
    split; [exact Hbody|]. clear Hp Hsplit.
    unfold body, process_stock_combination_try in Hbody.
    destruct (select_columns returns_array column_indices)
      as [selected|e]; [|discriminate].
    destruct (generate_valid_weights depth s (length combination)
                n_simulations) as [[weight_rows|e] s'] eqn:Egen;
      [|discriminate].
    cbn [fst] in Hbody.
    destruct (find_best_inversion _ _ _ _ Hbody)
      as (sharpe & rets & vols & best & w & Hb & Harg & Hw & ->).
    cbn [mat_rows] in Hw.
    destruct (batch_inversion _ _ _ _ _ Hb) as (Hl & _ & _ & _).
    cbn [mat_rows] in Hl.
    assert (Hbest : best < length weight_rows)
      by (apply nth_error_Some; congruence).
    assert (Hne : sharpe <> [])
      by (intros ->; simpl in Hl; lia).
    destruct (np_argmax_spec (Root NaN) sharpe) as [_ Hspec].
    destruct (Hspec Hne) as (best' & Hb' & _ & Hmax & Hnan).
    rewrite Harg in Hb'. inversion Hb'; subst best'; clear Hb'.
    exists selected, weight_rows, s', sharpe, rets, vols, best.
    rewrite (nth_error_nth _ _ [] Hw). cbn.
    repeat (split; [first [reflexivity | assumption]|]).
    split.
    + intros Hnd. apply dict_of_pairs_distinct.
      assert (Hfst : forall (l1 : list string) (l2 : list float),
                map fst (combine l1 l2) = firstn (length l2) l1).
      { induction l1 as [|a l1 IH]; intros [|b l2]; simpl; auto.
        f_equal. apply IH. }
      rewrite Hfst. clear - Hnd. revert combination Hnd.
      induction (length w) as [|n IH]; intros [|a l] Hnd; simpl;
        try constructor.
      * inversion Hnd; subst. intros Hin. apply firstn_In in Hin. auto.
      * inversion Hnd; subst. auto.
    + repeat (split; [reflexivity|]). split; assumption.
Qed.

Lemma process_stock_combination_spec_witness :
  exists p,
    fst (process_stock_combination 1 uneven_stream six_symbols
           hedged_returns [0; 1; 2; 3; 4; 5] 1) = Some p
    /\ fst (process_stock_combination_try 1 uneven_stream six_symbols
              hedged_returns [0; 1; 2; 3; 4; 5] 1) = Ok p
    /\ stocks p = six_symbols
    /\ exists weight_rows,
         fst (generate_valid_weights 1 uneven_stream 6 1) = Ok weight_rows
         /\ weights p = combine six_symbols (nth 0 weight_rows []).
Proof.
  assert (Hout : exists p,
             fst (process_stock_combination 1 uneven_stream six_symbols
                    hedged_returns [0; 1; 2; 3; 4; 5] 1) = Some p)
    by (vm_compute; eexists; reflexivity).
  destruct Hout as (p & Hp). exists p. split; [exact Hp|].
  destruct (process_stock_combination_spec 1 uneven_stream six_symbols
              hedged_returns [0; 1; 2; 3; 4; 5] 1) as [_ Hspec].
  destruct (Hspec p Hp)
    as (Hbody & selected & weight_rows & s' & sharpe & rets & vols & best
        & _ & Hgen & _ & Hlen & Hbest & Hstocks & _ & Hweights & _).
  split; [exact Hbody|]. split; [exact Hstocks|].
  exists weight_rows. change (length six_symbols) with 6 in Hgen.
  rewrite Hgen. split; [reflexivity|].
  assert (Hone : length weight_rows = 1).
  { assert (E : exists rows,
               fst (generate_valid_weights 1 uneven_stream 6 1) = Ok rows
               /\ length rows = 1)
      by (vm_compute; eexists; split; reflexivity).
    destruct E as (rows & E & Hrows). rewrite Hgen in E.
    inversion E; subst. exact Hrows. }
  assert (best = 0) by lia. subst best.
  apply Hweights. unfold six_symbols.
  repeat constructor; simpl; intuition congruence.
Defined.

(** C8, as stated, fails when a Sharpe ratio of the batch is NaN: here the
    second sampled weight vector has zero return and zero volatility, so
    its Sharpe ratio is NaN, and it is returned although the first one has
    a finite, positive Sharpe ratio. *)
Lemma process_stock_combination_selects_nan :
  exists p weight_rows sharpe rets vols,
    fst (process_stock_combination 1 uneven_stream six_symbols
           hedged_returns [0; 1; 2; 3; 4; 5] 2) = Some p
    /\ fst (generate_valid_weights 1 uneven_stream 6 2) = Ok weight_rows
    /\ calculate_portfolio_metrics_vectorized hedged_returns
         {| mat_cols := 6; mat_rows := weight_rows |}
       = Ok (sharpe, rets, vols)
    /\ weights p = combine six_symbols (nth 1 weight_rows [])
    /\ sharpe_ratio p = nth 1 sharpe (Root NaN)
    /\ r_is_nan (sharpe_ratio p) = true
    /\ r_is_finite (nth 0 sharpe (Root NaN)) = true
    /\ rgt_b (nth 0 sharpe (Root NaN)) (Root (Fin 0)) = true
    /\ rle_b (nth 0 sharpe (Root NaN)) (sharpe_ratio p) = false.
Proof.
  do 5 eexists.
  split; [vm_compute; reflexivity|].
  split; [vm_compute; reflexivity|].
  split; [vm_compute; reflexivity|].
  repeat split; vm_compute; reflexivity.
Qed.

(** ** The two paths *)

Section Paths.
Variables (depth : nat) (returns_array : Matrix)
  (column_map : list (string * nat)) (n_simulations : nat).

Let run (s : rng) (combinations : list (list string)) :=
  process_combinations depth s combinations returns_array column_map
                       n_simulations.

(** Running the loop over two lists in a row is running it over their
    concatenation. *)
Lemma process_combinations_app (l1 l2 : list (list string)) :
  forall s,
    run s (l1 ++ l2)
    = (fst (run s l1) ++ fst (run (snd (run s l1)) l2),
       snd (run (snd (run s l1)) l2)).
Proof.
  unfold run. induction l1 as [|c l1 IH]; intros s; cbn [app].
  - cbn. destruct (process_combinations depth s l2 returns_array column_map
                     n_simulations); reflexivity.
  - cbn [process_combinations].
    destruct (lookup_columns column_map c) as [indices|e]; [|apply IH].
    destruct (process_stock_combination depth s c returns_array indices
                n_simulations) as [outcome s'].
    rewrite IH.
    destruct (process_combinations depth s' l1 returns_array column_map
                n_simulations) as [r1 s1].
    cbn [fst snd].
    destruct (process_combinations depth s1 l2 returns_array column_map
                n_simulations) as [r2 s2].
    cbn [fst snd]. destruct outcome; reflexivity.
Qed.

(** When every chunk starts from the generator state that the sequential
    loop has on reaching it, the chunk results in order are the sequential
    results. *)
Lemma chunked_results (worker_rng : nat -> rng) (chunks : list (list (list string))) :
  forall (s : rng) (k : nat),
    (forall i, i < length chunks ->
       worker_rng (k + i) = snd (run s (concat (firstn i chunks)))) ->
    concat (map (fun ic => fst (run (worker_rng (fst ic)) (snd ic)))
                (combine (seq k (length chunks)) chunks))
    = fst (run s (concat chunks)).
Proof.
  induction chunks as [|c cs IH]; intros s k Hrng.
  - reflexivity.
  - cbn [length seq combine map concat fst snd].
    assert (H0 : worker_rng k = s).
    { rewrite <- (Nat.add_0_r k). rewrite (Hrng 0) by (simpl; lia).
      reflexivity. }
    rewrite H0, process_combinations_app. cbn [fst]. f_equal.
    apply IH. intros i Hi.
    replace (S k + i) with (k + S i) by lia.
    rewrite (Hrng (S i)) by (simpl; lia).
    cbn [firstn concat]. rewrite process_combinations_app. reflexivity.
Qed.

End Paths.

Lemma flatten_chunk_results_Some (rs : list (list Portfolio)) :
  flatten_chunk_results (map (map Some) rs) = concat rs.
Proof.
  unfold flatten_chunk_results.
  induction rs as [|r rs IH]; simpl; [reflexivity|].
  rewrite IH. f_equal.
  induction r as [|p r IHr]; simpl; congruence.
Qed.

Lemma array_split_concat {A : Type} (ary : list A) (Nsections : Z)
    (chunks : list (list A)) :
  array_split ary Nsections = Ok chunks -> concat chunks = ary.
Proof.
  unfold array_split.
  destruct (Z.leb_spec Nsections 0) as [Hle|Hlt]; [discriminate|].
  intros Heq. inversion Heq; subst. apply split_at_sizes_concat.
  rewrite section_sizes_sum by lia. lia.
Qed.

Lemma split_into_chunks_concat {A : Type} (combinations : list A)
    (n_workers : Z) (chunk_size : option Z) (chunks : list (list A)) :
  split_into_chunks combinations n_workers chunk_size = Ok chunks ->
  concat chunks = combinations.
Proof.
  unfold split_into_chunks.
  destruct (match chunk_size with
            | Some c => Ok c
            | None => auto_chunk_size (Z.of_nat (length combinations))
                                      n_workers
            end) as [c|e]; [|discriminate].
  cbn [bind].
  destruct (n_chunks_for (Z.of_nat (length combinations)) c) as [n|e];
    [|discriminate].
  cbn [bind]. apply array_split_concat.
Qed.

(** C9, as the code has it: the two paths evaluate the same combinations
    in the same order and reduce them the same way.  When the generator
    of the process that runs each chunk is, at the start of the chunk, in
    the state that the sequential run has on reaching the chunk's first
    combination, the parallel path returns exactly what the sequential
    path returns. *)
Theorem parallel_matches_sequential :
  forall (depth : nat) (s : rng) (worker_rng : nat -> rng)
         (prices : DataFrame Q) (n_select n_simulations : nat)
         (n_workers : Z) (chunk_size : option Z)
         (chunks : list (list (list string))),
    (1 <= n_workers)%Z ->
    split_into_chunks (get_stock_combinations (columns prices) n_select)
                      n_workers chunk_size = Ok chunks ->
    (forall i, i < length chunks ->
       worker_rng i
       = snd (process_combinations depth s (concat (firstn i chunks))
                (frame_values (dropna (pct_change prices)))
                (column_map_of (columns prices)) n_simulations)) ->
    optimize_portfolio depth worker_rng prices n_select n_simulations
                       n_workers chunk_size
    = optimize_portfolio_sequential depth s prices n_select n_simulations.
Proof.
  intros depth s worker_rng prices n_select n_simulations n_workers
    chunk_size chunks Hw Hsplit Hrng.
  unfold optimize_portfolio, optimize_portfolio_sequential,
    calculate_daily_returns.
  cbn [bind]. change (columns (dropna (pct_change prices)))
    with (columns prices).
  rewrite Hsplit. cbn [bind].
  destruct (Z.ltb_spec n_workers 1) as [Hlt|_]; [lia|].
  unfold reduce_parallel, reduce_sequential.
  rewrite flatten_chunk_results_Some.
  rewrite (chunked_results depth _ _ n_simulations worker_rng chunks s 0)
    by exact Hrng.
  rewrite (split_into_chunks_concat _ _ _ _ Hsplit). reflexivity.
Qed.

Lemma parallel_matches_sequential_witness :
  let chunks :=
    match split_into_chunks
            (get_stock_combinations (columns seven_prices) 6) 7 None with
    | Ok c => c
    | Raise _ => []
    end in
  let worker_rng : nat -> rng :=
    fun i =>
      snd (process_combinations 1 uneven_stream (concat (firstn i chunks))
             (frame_values (dropna (pct_change seven_prices)))
             (column_map_of (columns seven_prices)) 1) in
  length chunks = 7
  /\ optimize_portfolio 1 worker_rng seven_prices 6 1 7 None
     = optimize_portfolio_sequential 1 uneven_stream seven_prices 6 1.
Proof.
  intros chunks worker_rng. split; [reflexivity|].
  apply (parallel_matches_sequential 1 uneven_stream worker_rng
           seven_prices 6 1 7 None chunks).
  - lia.
  - vm_compute. reflexivity.
  - intros i _. reflexivity.
Defined.

(** C9, as stated, fails: from the same generator state the sequential
    path hands the combinations successive draws, while each chunk of the
    parallel path draws in its own process.  Here every worker process
    starts each of the seven chunks in the state of the seed (a pool of
    seven forked workers, one chunk each), and the best Sharpe ratios
    differ: their signed squares are 15138/7 and 10330334/3481, that is
    about 46.5 against 54.5. *)
Lemma paths_differ_from_same_seed :
  exists p q,
    optimize_portfolio_sequential 1 uneven_stream seven_prices 6 1 = Ok p
    /\ optimize_portfolio 1 (fun _ => uneven_stream) seven_prices 6 1 7 None
       = Ok q
    /\ req (sharpe_ratio p) (Root (Fin (15138 # 7)))
    /\ req (sharpe_ratio q) (Root (Fin (10330334 # 3481)))
    /\ ~ req (sharpe_ratio p) (sharpe_ratio q).
Proof.
  do 2 eexists.
  split; [vm_compute; reflexivity|].
  split; [vm_compute; reflexivity|].
  split; [vm_compute; reflexivity|].
  split; [vm_compute; reflexivity|].
  unfold req. cbn [sharpe_ratio signed_square feq].
  intros H. apply Qeq_bool_iff in H. vm_compute in H. discriminate.
Qed.

(** The scenario of the specification, evaluated on the code's formulas. *)
Example auto_chunk_size_dow30 :
  auto_chunk_size 142506 8 = Ok 250%Z
  /\ n_chunks_for 142506 250 = Ok 570%Z.
Proof. split; reflexivity. Qed.


(** ** Column lookup and column selection *)

Lemma dict_get_combine_seq (cols : list string) (s : string) :
  forall k,
    (In s cols ->
     dict_get (combine cols (seq k (length cols))) s
     = Ok (k + index_of s cols))
    /\ (~ In s cols ->
        dict_get (combine cols (seq k (length cols))) s = Raise KeyError).
Proof.
  induction cols as [|c cols IH]; intros k; simpl.
  - split; [intros []|reflexivity].
  - destruct (string_dec s c) as [->|Hne].
    + split; [intros _; f_equal; lia|intros H; exfalso; apply H; auto].
    + destruct (IH (S k)) as [IH1 IH2]. split.
      * intros [Heq|Hin]; [congruence|].
        rewrite IH1 by exact Hin. f_equal. lia.
      * intros Hnot. apply IH2. intros Hin. apply Hnot. auto.
Qed.

Lemma map_fst_combine_seq {A : Type} (l : list A) (k : nat) :
  map fst (combine l (seq k (length l))) = l.
Proof.
  revert k. induction l as [|a l IH]; intros k; simpl; [reflexivity|].
  rewrite IH. reflexivity.
Qed.

Lemma column_map_of_distinct (cols : list string) :
  NoDup cols -> column_map_of cols = combine cols (seq 0 (length cols)).
Proof.
  intros Hnd. unfold column_map_of. apply dict_of_pairs_distinct.
  rewrite map_fst_combine_seq. exact Hnd.
Qed.

Lemma index_of_lt (s : string) (l : list string) :
  In s l -> index_of s l < length l.
Proof.
  induction l as [|x l IH]; simpl; [intros []|].
  intros H. destruct (string_dec s x); [lia|].
  destruct H as [H|H]; [congruence|]. apply IH in H. lia.
Qed.

Lemma nth_index_of (s : string) (l : list string) :
  In s l -> nth (index_of s l) l "" = s.
Proof.
  induction l as [|x l IH]; simpl; [intros []|].
  intros H. destruct (string_dec s x) as [->|Hne]; [reflexivity|].
  destruct H as [H|H]; [congruence|]. apply IH. exact H.
Qed.

Lemma lookup_columns_found (cols combination : list string) :
  NoDup cols ->
  (forall s, In s combination -> In s cols) ->
  lookup_columns (column_map_of cols) combination
  = Ok (map (fun s => index_of s cols) combination).
Proof.
  intros Hnd. rewrite (column_map_of_distinct cols Hnd).
  induction combination as [|s rest IH]; intros Hin; simpl; [reflexivity|].
  destruct (dict_get_combine_seq cols s 0) as [Hf _].
  rewrite Hf by (apply Hin; left; reflexivity). simpl.
  rewrite IH by (intros x Hx; apply Hin; right; exact Hx).
  reflexivity.
Qed.

Lemma lookup_columns_missing (cols combination : list string) :
  NoDup cols ->
  (exists s, In s combination /\ ~ In s cols) ->
  lookup_columns (column_map_of cols) combination = Raise KeyError.
Proof.
  intros Hnd. rewrite (column_map_of_distinct cols Hnd).
  induction combination as [|s rest IH]; intros [x [Hx Hnot]];
    simpl; [destruct Hx|].
  destruct (in_dec string_dec s cols) as [Hs|Hs].
  - destruct (dict_get_combine_seq cols s 0) as [Hf _].
    rewrite Hf by exact Hs. simpl.
    destruct Hx as [Hx|Hx]; [subst x; contradiction|].
    rewrite IH by (exists x; split; assumption). reflexivity.
  - destruct (dict_get_combine_seq cols s 0) as [_ Hm].
    rewrite Hm by exact Hs. reflexivity.
Qed.

(** X1: with distinct column labels, the index list built from the column
    map holds the position of every symbol of the combination, each below
    the number of columns and naming that symbol's column; a combination
    with a symbol that is no column label raises [KeyError]. *)
Theorem lookup_columns_spec :
  forall cols combination : list string,
    NoDup cols ->
    ((forall s, In s combination -> In s cols) ->
     exists indices,
       lookup_columns (column_map_of cols) combination = Ok indices
       /\ length indices = length combination
       /\ forall i, i < length combination ->
            nth i indices 0 < length cols
            /\ nth (nth i indices 0) cols "" = nth i combination "")
    /\ ((exists s, In s combination /\ ~ In s cols) ->
        lookup_columns (column_map_of cols) combination = Raise KeyError).
Proof.
  intros cols combination Hnd. split.
  - intros Hin. exists (map (fun s => index_of s cols) combination).
    split; [apply lookup_columns_found; assumption|].
    split; [apply length_map|].
    intros i Hi.
    rewrite (nth_map_lt (fun s => index_of s cols) combination i 0 "")
      by exact Hi.
    assert (Hs : In (nth i combination "") cols)
      by (apply Hin, nth_In; exact Hi).
    split; [apply index_of_lt; exact Hs|apply nth_index_of; exact Hs].
  - apply lookup_columns_missing. exact Hnd.
Qed.

Lemma lookup_columns_spec_witness :
  let cols := ["AAPL"; "AMGN"; "AXP"; "BA"] in
  NoDup cols
  /\ lookup_columns (column_map_of cols) ["AMGN"; "BA"] = Ok [1; 3]
  /\ lookup_columns (column_map_of cols) ["AMGN"; "CAT"] = Raise KeyError.
Proof.
  assert (Hnd : NoDup ["AAPL"; "AMGN"; "AXP"; "BA"]).
  { repeat constructor; simpl; intuition discriminate. }
  split; [exact Hnd|].
  destruct (lookup_columns_spec ["AAPL"; "AMGN"; "AXP"; "BA"]
              ["AMGN"; "CAT"] Hnd) as [_ Hmiss].
  split; [reflexivity|].
  apply Hmiss. exists "CAT". split; [simpl; auto|].
  simpl. intuition discriminate.
Defined.

Lemma subseq_map {A B : Type} (f : A -> B) (t l : list A) :
  subseq t l -> subseq (map f t) (map f l).
Proof. induction 1; simpl; constructor; assumption. Qed.

Lemma subseq_StronglySorted {A : Type} (R : A -> A -> Prop) (t l : list A) :
  subseq t l -> StronglySorted R l -> StronglySorted R t.
Proof.
  induction 1 as [l|x t l Hsub IH|x t l Hsub IH]; intros Hs.
  - constructor.
  - inversion Hs as [|? ? Hl Hall]; subst. constructor; [auto|].
    rewrite Forall_forall in *. intros y Hy. apply Hall.
    exact (subseq_In t l Hsub y Hy).
  - inversion Hs; subst. auto.
Qed.

Lemma index_of_self (cols : list string) :
  NoDup cols ->
  map (fun s => index_of s cols) cols = seq 0 (length cols).
Proof.
  induction cols as [|x l IH]; intros Hnd; simpl; [reflexivity|].
  inversion Hnd as [|? ? Hx Hl]; subst.
  destruct (string_dec x x) as [_|Hne]; [|congruence].
  f_equal. rewrite <- seq_shift, <- (IH Hl), map_map.
  apply map_ext_in. intros s Hs.
  destruct (string_dec s x) as [->|_]; [contradiction|reflexivity].
Qed.

Lemma combinations_full {A : Type} (pool : list A) :
  combinations pool (length pool) = [pool].
Proof.
  induction pool as [|x rest IH]; simpl; [reflexivity|].
  rewrite IH. simpl. f_equal.
  apply length_zero_iff_nil.
  rewrite (combinations_length rest (S (length rest))).
  apply choose_above. lia.
Qed.

Lemma select_columns_in_range (a : Matrix) (indices : list nat) :
  (forall j, In j indices -> j < mat_cols a) ->
  select_columns a indices
  = Ok {| mat_cols := length indices;
          mat_rows := map (fun row => map (fun j => nth j row NaN) indices)
                          (mat_rows a) |}.
Proof.
  intros H. unfold select_columns.
  replace (forallb (fun j => j <? mat_cols a) indices) with true;
    [reflexivity|].
  symmetry. apply forallb_forall. intros j Hj. apply Nat.ltb_lt. auto.
Qed.

Lemma select_columns_all (a : Matrix) :
  shape_ok a -> select_columns a (seq 0 (mat_cols a)) = Ok a.
Proof.
  intros Hs. rewrite select_columns_in_range
    by (intros j Hj; apply in_seq in Hj; lia).
  destruct a as [n rows]. unfold shape_ok in Hs. simpl in *.
  rewrite length_seq. do 2 f_equal.
  rewrite <- (map_id rows) at 2. apply map_ext_in. intros row Hrow.
  rewrite Forall_forall in Hs. rewrite <- (Hs row Hrow).
  apply map_nth_seq.
Qed.

(** X2: for a returns matrix with distinct column labels, every combination
    drawn from those labels passes the index lookup and the column
    selection of the loop: the indices are strictly increasing, the
    selected matrix has one column per symbol and holds in every row the
    cells of the combination's columns; selecting all the columns gives
    the matrix back. *)
Theorem combination_columns_are_selected :
  forall (cols : list string) (a : Matrix) (n_select : nat)
         (combination : list string),
    NoDup cols ->
    mat_cols a = length cols ->
    shape_ok a ->
    In combination (get_stock_combinations cols n_select) ->
    exists indices selected,
      lookup_columns (column_map_of cols) combination = Ok indices
      /\ StronglySorted lt indices
      /\ select_columns a indices = Ok selected
      /\ mat_cols selected = n_select
      /\ shape_ok selected
      /\ length (mat_rows selected) = length (mat_rows a)
      /\ (forall t i, t < length (mat_rows a) -> i < n_select ->
            nth i (nth t (mat_rows selected) []) NaN
            = nth (index_of (nth i combination "") cols)
                  (nth t (mat_rows a) []) NaN)
      /\ (n_select = length cols -> selected = a).
Proof.
  intros cols a k c Hnd Hcols Hshape Hc.
  unfold get_stock_combinations in Hc.
  pose proof (combinations_subseq cols k c Hc) as Hsub.
  pose proof (combinations_tuple_length cols k c Hc) as Hlen.
  assert (Hin : forall s, In s c -> In s cols)
    by (intros s Hs; exact (subseq_In c cols Hsub s Hs)).
  set (indices := map (fun s => index_of s cols) c).
  assert (Hrange : forall j, In j indices -> j < mat_cols a).
  { intros j Hj. apply in_map_iff in Hj. destruct Hj as [s [<- Hs]].
    rewrite Hcols. apply index_of_lt. auto. }
  eexists indices, _.
  split; [apply lookup_columns_found; assumption|].
  split.
  { apply (subseq_StronglySorted lt indices
             (map (fun s => index_of s cols) cols)).
    - apply subseq_map. exact Hsub.
    - apply index_of_positions. exact Hnd. }
  split; [apply select_columns_in_range; exact Hrange|].
  simpl. unfold indices at 1. rewrite length_map.
  split; [exact Hlen|].
  split.
  { unfold shape_ok. simpl. apply Forall_forall. intros row Hrow.
    apply in_map_iff in Hrow. destruct Hrow as [r [<- _]].
    rewrite length_map. reflexivity. }
  split; [apply length_map|].
  split.
  { intros t i Ht Hi.
    rewrite (nth_map_lt (fun row => map (fun j => nth j row NaN) indices)
               (mat_rows a) t [] []) by exact Ht.
    rewrite (nth_map_lt (fun j => nth j (nth t (mat_rows a) []) NaN)
               indices i NaN 0)
      by (unfold indices; rewrite length_map; lia).
    unfold indices.
    rewrite (nth_map_lt (fun s => index_of s cols) c i 0 "") by lia.
    reflexivity. }
  intros Hk. rewrite Hk, combinations_full in Hc. destruct Hc as [<-|[]].
  pose proof (select_columns_all a Hshape) as Hall.
  rewrite select_columns_in_range in Hall
    by (intros j Hj; apply in_seq in Hj; lia).
  unfold indices. rewrite (index_of_self cols Hnd), <- Hcols.
  injection Hall as Hall. exact Hall.
Qed.

Lemma combination_columns_are_selected_witness :
  exists indices selected,
    lookup_columns (column_map_of ["AAPL"; "AMGN"])
                   ["AMGN"] = Ok indices
    /\ select_columns two_asset_returns indices = Ok selected
    /\ mat_cols selected = 1
    /\ nth 0 (nth 1 (mat_rows selected) []) NaN = Fin (- (1 # 100)).
Proof.
  assert (Hnd : NoDup ["AAPL"; "AMGN"]).
  { repeat constructor; simpl; intuition discriminate. }
  assert (Hshape : shape_ok two_asset_returns).
  { repeat constructor. }
  destruct (combination_columns_are_selected ["AAPL"; "AMGN"]
              two_asset_returns 1 ["AMGN"] Hnd eq_refl Hshape)
    as [indices [selected [H1 [_ [H2 [H3 [_ [_ [H4 _]]]]]]]]].
  { simpl. auto. }
  exists indices, selected.
  split; [exact H1|]. split; [exact H2|]. split; [exact H3|].
  rewrite (H4 1 0) by (simpl; lia). reflexivity.
Defined.

(** ** What the sampler hands to the loop *)

Lemma random_rows_length (rows cols : nat) :
  forall s, length (random_rows s rows cols) = rows.
Proof. induction rows as [|rows IH]; intros s; simpl; auto. Qed.

Lemma generate_valid_weights_state (depth : nat) :
  forall (s : rng) (n_assets n_simulations : nat),
    in_unit_interval s ->
    in_unit_interval
      (snd (generate_valid_weights depth s n_assets n_simulations)).
Proof.
  induction depth as [|depth IH]; intros s n k Hs; simpl; [exact Hs|].
  match goal with |- context [if ?b then _ else _] => destruct b end.
  - apply IH. apply advance_in_unit_interval. exact Hs.
  - simpl. apply advance_in_unit_interval. exact Hs.
Qed.

Lemma generate_valid_weights_rows (depth : nat) :
  forall (s : rng) (n_assets n_simulations : nat)
         (res : list (list float)) (s' : rng),
    in_unit_interval s ->
    1 <= n_assets ->
    generate_valid_weights depth s n_assets n_simulations = (Ok res, s') ->
    forall row, In row res ->
      exists ws,
        row = map Fin ws
        /\ length ws = n_assets
        /\ (forall w, In w ws -> (0 <= w)%Q /\ (w <= 2 # 10)%Q)
        /\ (Qsum ws == 1)%Q.
Proof.
  induction depth as [|depth IH]; intros s n k res s' Hs Hn Hrun;
    simpl in Hrun; [discriminate|].
  match type of Hrun with
  | context [filter within_cap ?l] => set (candidates := l) in *
  end.
  destruct (length (filter within_cap candidates) <? k).
  - eapply IH; [|exact Hn|exact Hrun].
    apply advance_in_unit_interval. exact Hs.
  - inversion Hrun; subst res s'; clear Hrun.
    intros row Hrow. apply firstn_In in Hrow.
    apply filter_In in Hrow. destruct Hrow as [Hin Hcap].
    unfold candidates in Hin. apply in_map_iff in Hin.
    destruct Hin as (raw & <- & Hraw).
    apply random_rows_spec in Hraw. destruct Hraw as [Hlen Hdraw].
    destruct (valid_row_weights raw) as (ws & Hws & Hl & Hb & Hsum).
    + intros x Hx. destruct (Hdraw x Hx) as (i & ->). apply Hs.
    + intros ->. simpl in Hlen. lia.
    + exact Hcap.
    + exists ws. repeat split; try assumption; try lia; apply Hb; assumption.
Qed.

Lemma generate_valid_weights_few_assets (depth : nat) :
  forall (s : rng) (n_assets n_simulations : nat),
    in_unit_interval s ->
    1 <= n_assets <= 4 ->
    1 <= n_simulations ->
    fst (generate_valid_weights depth s n_assets n_simulations)
    = Raise RecursionError.
Proof.
  induction depth as [|depth IH]; intros s n k Hs Hn Hk; [reflexivity|].
  cbn [generate_valid_weights]. unfold np_random_random.
  rewrite filter_none.
  - simpl. destruct (Nat.ltb_spec 0 k); [|lia].
    apply IH; [apply advance_in_unit_interval; exact Hs|exact Hn|exact Hk].
  - intros row Hrow. apply in_map_iff in Hrow.
    destruct Hrow as (raw & <- & Hraw).
    apply random_rows_spec in Hraw. destruct Hraw as [Hlen Hdraw].
    apply small_row_rejected; [|lia].
    intros x Hx. destruct (Hdraw x Hx) as (i & ->). apply Hs.
Qed.

(** X3: the sampler draws at most 10000 candidate rows per attempt, so a
    request for more than 10000 weight vectors can never be met: at every
    recursion depth the call ends in [RecursionError], whatever the
    generator and the number of assets. *)
Theorem generate_valid_weights_over_cap_never_returns :
  forall (depth : nat) (s : rng) (n_assets n_simulations : nat),
    10000 < n_simulations ->
    fst (generate_valid_weights depth s n_assets n_simulations)
    = Raise RecursionError.
Proof.
  induction depth as [|depth IH]; intros s n k Hk; [reflexivity|].
  cbn [generate_valid_weights]. unfold np_random_random.
  match goal with
  | |- context [length (filter within_cap ?l) <? k] =>
      assert (Hlen : length (filter within_cap l) <= 10000)
  end.
  { eapply Nat.le_trans; [apply filter_length_le|].
    rewrite length_map, random_rows_length. apply Nat.le_min_r. }
  match goal with
  | |- context [?a <? k] => destruct (Nat.ltb_spec a k) as [_|Hge]
  end.
  - apply IH. exact Hk.
  - lia.
Qed.

Lemma generate_valid_weights_over_cap_never_returns_witness :
  10000 < 10001
  /\ fst (generate_valid_weights 3 uneven_stream 6 10001)
     = Raise RecursionError.
Proof.
  assert (H : 10000 < 10001) by apply Nat.lt_succ_diag_r.
  split; [exact H|].
  exact (generate_valid_weights_over_cap_never_returns 3 uneven_stream 6
           10001 H).
Defined.

(** ** The loop over combinations *)

Lemma generate_valid_weights_length (depth : nat) :
  forall (s : rng) (n_assets n_simulations : nat)
         (res : list (list float)) (s' : rng),
    generate_valid_weights depth s n_assets n_simulations = (Ok res, s') ->
    length res = n_simulations.
Proof.
  induction depth as [|depth IH]; intros s n k res s' Hrun;
    simpl in Hrun; [discriminate|].
  match type of Hrun with
  | context [?a <? k] => destruct (Nat.ltb_spec a k) as [Hlt|Hge]
  end.
  - eapply IH. exact Hrun.
  - inversion Hrun; subst res s'. rewrite length_firstn. lia.
Qed.

Lemma process_stock_combination_state (depth : nat) (s : rng)
    (combination : list string) (returns_array : Matrix)
    (column_indices : list nat) (n_simulations : nat) :
  in_unit_interval s ->
  in_unit_interval
    (snd (process_stock_combination depth s combination returns_array
            column_indices n_simulations)).
Proof.
  intros Hs.
  unfold process_stock_combination, process_stock_combination_try.
  destruct (select_columns returns_array column_indices);
    [|simpl; exact Hs].
  pose proof (generate_valid_weights_state depth s (length combination)
                n_simulations Hs) as Hstate.
  destruct (generate_valid_weights depth s (length combination)
              n_simulations) as [[rows|e] s']; simpl in *.
  - destruct (find_best_portfolio_from_batch _ _ _); simpl; exact Hstate.
  - exact Hstate.
Qed.

Lemma process_stock_combination_Some (depth : nat) (s : rng)
    (combination : list string) (returns_array : Matrix)
    (column_indices : list nat) (n_simulations : nat) (p : Portfolio) :
  fst (process_stock_combination depth s combination returns_array
         column_indices n_simulations) = Some p ->
  exists selected rows s',
    select_columns returns_array column_indices = Ok selected
    /\ generate_valid_weights depth s (length combination) n_simulations
       = (Ok rows, s')
    /\ find_best_portfolio_from_batch selected
         {| mat_cols := length combination; mat_rows := rows |} combination
       = Ok p.
Proof.
  unfold process_stock_combination, process_stock_combination_try.
  destruct (select_columns returns_array column_indices) as [sel|e];
    [|simpl; discriminate].
  destruct (generate_valid_weights depth s (length combination)
              n_simulations) as [[rows|e] s'] eqn:Eg;
    [|simpl; discriminate].
  destruct (find_best_portfolio_from_batch sel _ combination) as [q|e] eqn:Ef;
    simpl; [|discriminate].
  intros H. injection H as <-. exists sel, rows, s'. auto.
Qed.

Lemma subseq_length {A : Type} (t l : list A) :
  subseq t l -> length t <= length l.
Proof. induction 1; simpl; lia. Qed.

Section LoopFacts.

Variables (depth : nat) (returns_array : Matrix)
  (column_map : list (string * nat)) (n_simulations : nat).

Variable Inv : rng -> Prop.

Hypothesis Inv_step :
  forall s combination indices,
    Inv s ->
    Inv (snd (process_stock_combination depth s combination returns_array
                indices n_simulations)).

(** Every record of the loop is the outcome of the evaluator on one
    combination of the chunk, started in a generator state that satisfies
    the invariant. *)
Lemma process_combinations_records (chunk : list (list string)) :
  forall s, Inv s ->
    forall p,
      In p (fst (process_combinations depth s chunk returns_array column_map
                   n_simulations)) ->
      exists combination indices s0,
        In combination chunk
        /\ Inv s0
        /\ lookup_columns column_map combination = Ok indices
        /\ fst (process_stock_combination depth s0 combination returns_array
                  indices n_simulations) = Some p.
Proof.
  induction chunk as [|c rest IH]; intros s Hs p Hp; simpl in Hp;
    [destruct Hp|].
  destruct (lookup_columns column_map c) as [idx|e] eqn:El.
  - pose proof (Inv_step s c idx Hs) as Hs'.
    destruct (process_stock_combination depth s c returns_array idx
                n_simulations) as [outcome s'] eqn:Ep.
    destruct (process_combinations depth s' rest returns_array column_map
                n_simulations) as [results s''] eqn:Er.
    simpl in Hp, Hs'.
    assert (Hrest : In p results ->
              exists combination indices s0,
                In combination (c :: rest) /\ Inv s0
                /\ lookup_columns column_map combination = Ok indices
                /\ fst (process_stock_combination depth s0 combination
                          returns_array indices n_simulations) = Some p).
    { intros Hin. destruct (IH s' Hs' p) as (c0 & i0 & s0 & H1 & H2);
        [rewrite Er; exact Hin|].
      exists c0, i0, s0. split; [right; exact H1|exact H2]. }
    destruct outcome as [q|]; [|auto].
    destruct Hp as [<-|Hp]; [|auto].
    exists c, idx, s. rewrite Ep. simpl. auto.
  - destruct (IH s Hs p Hp) as (c0 & i0 & s0 & H1 & H2).
    exists c0, i0, s0. split; [right; exact H1|exact H2].
Qed.

End LoopFacts.

Lemma process_stock_combination_stocks (depth : nat) (s : rng)
    (combination : list string) (returns_array : Matrix)
    (column_indices : list nat) (n_simulations : nat) (p : Portfolio) :
  fst (process_stock_combination depth s combination returns_array
         column_indices n_simulations) = Some p ->
  stocks p = combination.
Proof.
  intros H. apply process_stock_combination_Some in H.
  destruct H as (sel & rows & s' & _ & _ & Hf).
  apply find_best_inversion in Hf.
  destruct Hf as (sh & rs & vs & best & w & _ & _ & _ & ->). reflexivity.
Qed.

(** X4: the loop of [process_combinations_chunk] and of
    [optimize_portfolio_sequential] returns at most one record per
    combination and keeps their order: the stock lists of the records form
    a subsequence of the combinations it was given. *)
Theorem process_combinations_keeps_order :
  forall (depth : nat) (s : rng) (chunk : list (list string))
         (returns_array : Matrix) (column_map : list (string * nat))
         (n_simulations : nat),
    let results :=
      fst (process_combinations depth s chunk returns_array column_map
             n_simulations) in
    subseq (map stocks results) chunk
    /\ length results <= length chunk.
Proof.
  intros depth s chunk a cmap k results.
  assert (Hsub : subseq (map stocks results) chunk).
  { unfold results. clear results. revert s.
    induction chunk as [|c rest IH]; intros s; simpl; [constructor|].
    destruct (lookup_columns cmap c) as [idx|e].
    - destruct (process_stock_combination depth s c a idx k)
        as [outcome s'] eqn:Ep.
      specialize (IH s').
      destruct (process_combinations depth s' rest a cmap k)
        as [res s''].
      simpl in *. destruct outcome as [q|].
      + simpl.
        rewrite (process_stock_combination_stocks depth s c a idx k q)
          by (rewrite Ep; reflexivity).
        constructor. exact IH.
      + constructor. exact IH.
    - constructor. apply IH. }
  split; [exact Hsub|].
  apply subseq_length in Hsub. rewrite length_map in Hsub. exact Hsub.
Qed.

(** ** What the two paths can return *)

Lemma uneven_stream_in_unit_interval : in_unit_interval uneven_stream.
Proof.
  intros [|[|i]]; simpl; split; unfold Qle, Qlt; simpl; lia.
Qed.

(** A record of the loop needs at least one simulation, and names a
    combination of the chunk. *)
Lemma loop_record_origin (depth : nat) (s : rng)
    (chunk : list (list string)) (returns_array : Matrix)
    (column_map : list (string * nat)) (n_simulations : nat)
    (p : Portfolio) :
  In p (fst (process_combinations depth s chunk returns_array column_map
               n_simulations)) ->
  In (stocks p) chunk /\ 1 <= n_simulations.
Proof.
  intros Hp.
  destruct (process_combinations_records depth returns_array column_map
              n_simulations (fun _ => True) (fun _ _ _ _ => I) chunk s I p Hp)
    as (c & idx & s0 & Hc & _ & _ & Hsome).
  rewrite (process_stock_combination_stocks _ _ _ _ _ _ _ Hsome).
  split; [exact Hc|].
  apply process_stock_combination_Some in Hsome.
  destruct Hsome as (sel & rows & s' & _ & Hg & Hf).
  apply generate_valid_weights_length in Hg.
  apply find_best_inversion in Hf.
  destruct Hf as (sh & rs & vs & best & w & _ & _ & Hw & _).
  simpl in Hw. destruct rows as [|row rows]; [destruct best; discriminate|].
  simpl in Hg. lia.
Qed.

(** The weights of a record of the loop, when the generator hands out
    draws of [0, 1) and the combination is not empty. *)
Lemma loop_record_weights (depth : nat) (s : rng)
    (chunk : list (list string)) (returns_array : Matrix)
    (column_map : list (string * nat)) (n_simulations : nat)
    (p : Portfolio) :
  in_unit_interval s ->
  In p (fst (process_combinations depth s chunk returns_array column_map
               n_simulations)) ->
  1 <= length (stocks p) ->
  5 <= length (stocks p)
  /\ exists ws,
       weights p = dict_of_pairs (combine (stocks p) (map Fin ws))
       /\ length ws = length (stocks p)
       /\ (forall w, In w ws -> (0 <= w)%Q /\ (w <= 2 # 10)%Q)
       /\ (Qsum ws == 1)%Q.
Proof.
  intros Hs Hp Hlen.
  pose proof (loop_record_origin _ _ _ _ _ _ _ Hp) as [_ Hk].
  destruct (process_combinations_records depth returns_array column_map
              n_simulations in_unit_interval
              (fun s0 c idx => process_stock_combination_state depth s0 c
                                 returns_array idx n_simulations)
              chunk s Hs p Hp)
    as (c & idx & s0 & Hc & Hs0 & _ & Hsome).
  pose proof (process_stock_combination_stocks _ _ _ _ _ _ _ Hsome) as Hst.
  rewrite Hst in *.
  apply process_stock_combination_Some in Hsome.
  destruct Hsome as (sel & rows & s' & _ & Hg & Hf).
  apply find_best_inversion in Hf.
  destruct Hf as (sh & rs & vs & best & w & _ & _ & Hw & Hrec).
  simpl in Hw. apply nth_error_In in Hw.
  split.
  - destruct (le_lt_dec 5 (length c)) as [H5|H4]; [exact H5|].
    pose proof (generate_valid_weights_few_assets depth s0 (length c)
                  n_simulations Hs0 ltac:(lia) Hk) as Hfail.
    rewrite Hg in Hfail. discriminate.
  - destruct (generate_valid_weights_rows depth s0 (length c) n_simulations
                rows s' Hs0 Hlen Hg w Hw) as (ws & -> & Hl & Hb & Hsum).
    exists ws. rewrite Hrec. simpl. auto.
Qed.

Lemma reduce_results_In (results : list Portfolio) (p : Portfolio) :
  reduce_results results = Ok p -> In p results.
Proof.
  destruct results as [|first rest]; simpl; [discriminate|].
  intros H. injection H as <-. apply py_max_from_In.
Qed.

Lemma optimize_portfolio_sequential_unfold (depth : nat) (s : rng)
    (prices : DataFrame Q) (n_select n_simulations : nat) :
  optimize_portfolio_sequential depth s prices n_select n_simulations
  = reduce_results
      (fst (process_combinations depth s
              (get_stock_combinations (columns prices) n_select)
              (frame_values (dropna (pct_change prices)))
              (column_map_of (columns prices)) n_simulations)).
Proof. reflexivity. Qed.

Lemma optimize_portfolio_unfold (depth : nat) (worker_rng : nat -> rng)
    (prices : DataFrame Q) (n_select n_simulations : nat) (n_workers : Z)
    (chunk_size : option Z) (chunks : list (list (list string))) :
  split_into_chunks (get_stock_combinations (columns prices) n_select)
                    n_workers chunk_size = Ok chunks ->
  (1 <= n_workers)%Z ->
  optimize_portfolio depth worker_rng prices n_select n_simulations
                     n_workers chunk_size
  = reduce_results
      (concat
         (map (fun ic =>
                 fst (process_combinations depth (worker_rng (fst ic))
                        (snd ic)
                        (frame_values (dropna (pct_change prices)))
                        (column_map_of (columns prices)) n_simulations))
              (combine (seq 0 (length chunks)) chunks))).
Proof.
  intros Hsplit Hw. unfold optimize_portfolio. simpl bind.
  rewrite Hsplit. simpl bind.
  destruct (Z.ltb_spec n_workers 1) as [Hlt|_]; [lia|].
  unfold reduce_parallel. rewrite flatten_chunk_results_Some. reflexivity.
Qed.

Lemma optimize_portfolio_Ok (depth : nat) (worker_rng : nat -> rng)
    (prices : DataFrame Q) (n_select n_simulations : nat) (n_workers : Z)
    (chunk_size : option Z) (p : Portfolio) :
  optimize_portfolio depth worker_rng prices n_select n_simulations
                     n_workers chunk_size = Ok p ->
  exists i chunk,
    (forall c, In c chunk ->
       In c (get_stock_combinations (columns prices) n_select))
    /\ In p (fst (process_combinations depth (worker_rng i) chunk
                    (frame_values (dropna (pct_change prices)))
                    (column_map_of (columns prices)) n_simulations)).
Proof.
  unfold optimize_portfolio. simpl bind.
  destruct (split_into_chunks _ n_workers chunk_size) as [chunks|e] eqn:Es;
    simpl bind; [|discriminate].
  destruct (n_workers <? 1)%Z; [discriminate|].
  unfold reduce_parallel. rewrite flatten_chunk_results_Some.
  intros H. apply reduce_results_In in H.
  apply in_concat in H. destruct H as (l & Hl & Hp).
  apply in_map_iff in Hl. destruct Hl as ([i chunk] & <- & Hic).
  apply in_combine_r in Hic.
  exists i, chunk. split; [|exact Hp].
  intros c Hc. rewrite <- (split_into_chunks_concat _ _ _ _ Es).
  apply in_concat. exists chunk. auto.
Qed.

(** X5: a portfolio returned by either path, for [n_select >= 1] over
    distinct column labels and generators that hand out draws of [0, 1),
    is feasible: its stocks are one of the generated combinations, there
    are at least five of them, and its weights bind those stocks, in order,
    to numbers between 0 and 0.2 that sum to 1. *)
Theorem optimizer_result_is_feasible :
  forall (depth : nat) (s : rng) (worker_rng : nat -> rng)
         (prices : DataFrame Q) (n_select n_simulations : nat)
         (n_workers : Z) (chunk_size : option Z) (p : Portfolio),
    in_unit_interval s ->
    (forall i, in_unit_interval (worker_rng i)) ->
    NoDup (columns prices) ->
    1 <= n_select ->
    optimize_portfolio_sequential depth s prices n_select n_simulations
    = Ok p
    \/ optimize_portfolio depth worker_rng prices n_select n_simulations
                          n_workers chunk_size = Ok p ->
    In (stocks p) (get_stock_combinations (columns prices) n_select)
    /\ 5 <= n_select
    /\ 1 <= n_simulations
    /\ exists ws,
         weights p = combine (stocks p) (map Fin ws)
         /\ length ws = n_select
         /\ (forall w, In w ws -> (0 <= w)%Q /\ (w <= 2 # 10)%Q)
         /\ (Qsum ws == 1)%Q.
Proof.
  intros depth s worker_rng prices n k nw cs p Hs Hw Hnd Hn Hrun.
  assert (Hloop : exists s0 chunk,
            in_unit_interval s0
            /\ (forall c, In c chunk ->
                  In c (get_stock_combinations (columns prices) n))
            /\ In p (fst (process_combinations depth s0 chunk
                            (frame_values (dropna (pct_change prices)))
                            (column_map_of (columns prices)) k))).
  { destruct Hrun as [Hseq|Hpar].
    - rewrite optimize_portfolio_sequential_unfold in Hseq.
      apply reduce_results_In in Hseq.
      exists s, (get_stock_combinations (columns prices) n). auto.
    - apply optimize_portfolio_Ok in Hpar.
      destruct Hpar as (i & chunk & Hsub & Hp).
      exists (worker_rng i), chunk. auto. }
  destruct Hloop as (s0 & chunk & Hs0 & Hsub & Hp).
  destruct (loop_record_origin _ _ _ _ _ _ _ Hp) as [Hc Hk].
  apply Hsub in Hc.
  pose proof (combinations_tuple_length _ _ _ Hc) as Hlen.
  pose proof (subseq_NoDup _ _ (combinations_subseq _ _ _ Hc) Hnd) as Hndc.
  destruct (loop_record_weights _ _ _ _ _ _ _ Hs0 Hp ltac:(lia))
    as [H5 (ws & Hws & Hl & Hb & Hsum)].
  split; [exact Hc|]. split; [lia|]. split; [exact Hk|].
  exists ws. split; [|split; [lia|auto]].
  rewrite Hws. apply dict_of_pairs_distinct.
  assert (Hfst : forall (l : list string) (v : list float),
            length v = length l -> map fst (combine l v) = l).
  { induction l as [|x l IH]; intros [|y v] Hv; simpl in *;
      try reflexivity; try discriminate.
    rewrite IH by lia. reflexivity. }
  rewrite Hfst by (rewrite length_map; exact Hl). exact Hndc.
Qed.

Lemma optimizer_result_is_feasible_witness :
  exists p ws,
    optimize_portfolio_sequential 1 uneven_stream seven_prices 6 1 = Ok p
    /\ In (stocks p) (get_stock_combinations (columns seven_prices) 6)
    /\ weights p = combine (stocks p) (map Fin ws)
    /\ (Qsum ws == 1)%Q.
Proof.
  assert (E : exists p,
            optimize_portfolio_sequential 1 uneven_stream seven_prices 6 1
            = Ok p).
  { vm_compute. eexists. reflexivity. }
  destruct E as [p E].
  assert (Hnd : NoDup (columns seven_prices)).
  { repeat constructor; simpl; intuition discriminate. }
  destruct (optimizer_result_is_feasible 1 uneven_stream
              (fun _ => uneven_stream) seven_prices 6 1 1 None p
              uneven_stream_in_unit_interval
              (fun _ => uneven_stream_in_unit_interval) Hnd
              ltac:(lia) (or_introl E))
    as (Hc & _ & _ & ws & Hws & _ & _ & Hsum).
  exists p, ws. auto.
Defined.

(** ** Runs that end without a portfolio *)

Lemma split_into_chunks_total {A : Type} (combinations : list A)
    (n_workers : Z) (chunk_size : option Z) :
  match chunk_size with
  | None => n_workers <> 0%Z
  | Some c => c <> 0%Z
  end ->
  exists chunks,
    split_into_chunks combinations n_workers chunk_size = Ok chunks.
Proof.
  intros Hc. unfold split_into_chunks.
  assert (Hsize : exists c,
            match chunk_size with
            | None => auto_chunk_size (Z.of_nat (length combinations))
                                      n_workers
            | Some c => Ok c
            end = Ok c /\ c <> 0%Z).
  { destruct chunk_size as [c|].
    - exists c. split; [reflexivity|exact Hc].
    - unfold auto_chunk_size, floordiv.
      destruct (Z.eqb_spec (n_workers * 4) 0) as [H0|_]; [lia|].
      simpl. eexists. split; [reflexivity|lia]. }
  destruct Hsize as (c & -> & Hc0). simpl bind.
  unfold n_chunks_for, floordiv.
  destruct (Z.eqb_spec c 0) as [H0|_]; [contradiction|].
  simpl bind. unfold array_split.
  destruct (Z.leb_spec (Z.max 1 (Z.of_nat (length combinations) / c)) 0)
    as [Hle|_]; [lia|].
  eexists. reflexivity.
Qed.

Lemma concat_map_nil {A B : Type} (f : A -> list B) (l : list A) :
  (forall x, In x l -> f x = []) -> concat (map f l) = [].
Proof.
  induction l as [|a l IH]; intros H; simpl; [reflexivity|].
  rewrite (H a) by (left; reflexivity). simpl.
  apply IH. intros x Hx. apply H. right. exact Hx.
Qed.

Lemma no_member_nil {A : Type} (l : list A) :
  (forall x, ~ In x l) -> l = [].
Proof.
  destruct l as [|a l]; [reflexivity|].
  intros H. exfalso. apply (H a). left. reflexivity.
Qed.

(** When no chunk of combinations can yield a record, both paths end with
    the error of the reduction. *)
Lemma no_record_no_portfolio (depth : nat) (s : rng)
    (worker_rng : nat -> rng) (prices : DataFrame Q)
    (n_select n_simulations : nat) (n_workers : Z) (chunk_size : option Z) :
  (forall s0 chunk p,
     s0 = s \/ (exists i, s0 = worker_rng i) ->
     (forall c, In c chunk ->
        In c (get_stock_combinations (columns prices) n_select)) ->
     ~ In p (fst (process_combinations depth s0 chunk
                    (frame_values (dropna (pct_change prices)))
                    (column_map_of (columns prices)) n_simulations))) ->
  optimize_portfolio_sequential depth s prices n_select n_simulations
  = Raise no_valid_portfolios
  /\ ((1 <= n_workers)%Z ->
      chunk_size <> Some 0%Z ->
      optimize_portfolio depth worker_rng prices n_select n_simulations
                         n_workers chunk_size
      = Raise no_valid_portfolios).
Proof.
  intros Hnone. split.
  - rewrite optimize_portfolio_sequential_unfold.
    rewrite (no_member_nil _ (fun p => Hnone s _ p (or_introl eq_refl)
                                         (fun c Hc => Hc))).
    reflexivity.
  - intros Hw Hc.
    destruct (split_into_chunks_total
                (get_stock_combinations (columns prices) n_select)
                n_workers chunk_size) as [chunks Hsplit].
    { destruct chunk_size as [c|]; [congruence|lia]. }
    rewrite (optimize_portfolio_unfold _ _ _ _ _ _ _ chunks Hsplit Hw).
    rewrite concat_map_nil; [reflexivity|].
    intros [i chunk] Hic. apply in_combine_r in Hic. simpl.
    apply no_member_nil. intros p.
    apply Hnone; [right; exists i; reflexivity|].
    intros c Hin. rewrite <- (split_into_chunks_concat _ _ _ _ Hsplit).
    apply in_concat. exists chunk. auto.
Qed.

(** X6: with [n_simulations = 0] no combination yields a record (the
    argmax of an empty batch raises, which the evaluator turns into null),
    so both paths raise the error that no valid portfolio was found. *)
Theorem no_simulations_no_portfolio :
  forall (depth : nat) (s : rng) (worker_rng : nat -> rng)
         (prices : DataFrame Q) (n_select : nat) (n_workers : Z)
         (chunk_size : option Z),
    optimize_portfolio_sequential depth s prices n_select 0
    = Raise no_valid_portfolios
    /\ ((1 <= n_workers)%Z ->
        chunk_size <> Some 0%Z ->
        optimize_portfolio depth worker_rng prices n_select 0 n_workers
                           chunk_size
        = Raise no_valid_portfolios).
Proof.
  intros depth s worker_rng prices n nw cs.
  apply no_record_no_portfolio.
  intros s0 chunk p _ _ Hp.
  apply loop_record_origin in Hp. destruct Hp as [_ Hk]. lia.
Qed.

Lemma no_simulations_no_portfolio_witness :
  optimize_portfolio_sequential 1 uneven_stream seven_prices 6 0
  = Raise no_valid_portfolios
  /\ optimize_portfolio 1 (fun _ => uneven_stream) seven_prices 6 0 7 None
     = Raise no_valid_portfolios.
Proof.
  destruct (no_simulations_no_portfolio 1 uneven_stream
              (fun _ => uneven_stream) seven_prices 6 7 None) as [H1 H2].
  split; [exact H1|].
  apply H2; [lia|discriminate].
Defined.

(** X7: with one to four stocks per portfolio no weight vector passes the
    0.2 cap, every combination uses up the recursion depth and yields
    null, and both paths raise the error that no valid portfolio was
    found. *)
Theorem fewer_than_five_stocks_no_portfolio :
  forall (depth : nat) (s : rng) (worker_rng : nat -> rng)
         (prices : DataFrame Q) (n_select n_simulations : nat)
         (n_workers : Z) (chunk_size : option Z),
    in_unit_interval s ->
    (forall i, in_unit_interval (worker_rng i)) ->
    1 <= n_select <= 4 ->
    optimize_portfolio_sequential depth s prices n_select n_simulations
    = Raise no_valid_portfolios
    /\ ((1 <= n_workers)%Z ->
        chunk_size <> Some 0%Z ->
        optimize_portfolio depth worker_rng prices n_select n_simulations
                           n_workers chunk_size
        = Raise no_valid_portfolios).
Proof.
  intros depth s worker_rng prices n k nw cs Hs Hw Hn.
  apply no_record_no_portfolio.
  intros s0 chunk p Hs0 Hsub Hp.
  assert (Hunit : in_unit_interval s0).
  { destruct Hs0 as [->|[i ->]]; auto. }
  destruct (loop_record_origin _ _ _ _ _ _ _ Hp) as [Hc _].
  apply Hsub in Hc. apply combinations_tuple_length in Hc.
  destruct (loop_record_weights _ _ _ _ _ _ _ Hunit Hp ltac:(lia))
    as [H5 _].
  lia.
Qed.

Lemma fewer_than_five_stocks_no_portfolio_witness :
  optimize_portfolio_sequential 40 uneven_stream seven_prices 4 2
  = Raise no_valid_portfolios
  /\ optimize_portfolio 40 (fun _ => uneven_stream) seven_prices 4 2 3
                        (Some 10%Z)
     = Raise no_valid_portfolios.
Proof.
  destruct (fewer_than_five_stocks_no_portfolio 40 uneven_stream
              (fun _ => uneven_stream) seven_prices 4 2 3 (Some 10%Z)
              uneven_stream_in_unit_interval
              (fun _ => uneven_stream_in_unit_interval) ltac:(lia))
    as [H1 H2].
  split; [exact H1|].
  apply H2; [lia|discriminate].
Defined.

(** X8: when more stocks are asked for than the price frame has columns
    there is no combination at all, and both paths raise the error that no
    valid portfolio was found. *)
Theorem too_many_selected_no_portfolio :
  forall (depth : nat) (s : rng) (worker_rng : nat -> rng)
         (prices : DataFrame Q) (n_select n_simulations : nat)
         (n_workers : Z) (chunk_size : option Z),
    length (columns prices) < n_select ->
    get_stock_combinations (columns prices) n_select = []
    /\ optimize_portfolio_sequential depth s prices n_select n_simulations
       = Raise no_valid_portfolios
    /\ ((1 <= n_workers)%Z ->
        chunk_size <> Some 0%Z ->
        optimize_portfolio depth worker_rng prices n_select n_simulations
                           n_workers chunk_size
        = Raise no_valid_portfolios).
Proof.
  intros depth s worker_rng prices n k nw cs Hn.
  assert (Hnil : get_stock_combinations (columns prices) n = []).
  { apply length_zero_iff_nil. unfold get_stock_combinations.
    rewrite combinations_length. apply choose_above. exact Hn. }
  split; [exact Hnil|].
  apply no_record_no_portfolio.
  intros s0 chunk p _ Hsub Hp.
  destruct (loop_record_origin _ _ _ _ _ _ _ Hp) as [Hc _].
  apply Hsub in Hc. rewrite Hnil in Hc. exact Hc.
Qed.

Lemma too_many_selected_no_portfolio_witness :
  get_stock_combinations (columns seven_prices) 8 = []
  /\ optimize_portfolio_sequential 1 uneven_stream seven_prices 8 1
     = Raise no_valid_portfolios.
Proof.
  destruct (too_many_selected_no_portfolio 1 uneven_stream
              (fun _ => uneven_stream) seven_prices 8 1 1 None)
    as [H1 [H2 _]].
  - simpl. lia.
  - split; [exact H1|exact H2].
Defined.

(** ** Parameters that the parallel path rejects *)

(** X9: [optimize_portfolio] fails before any combination is evaluated
    when a divisor of the chunking is zero (a chunk size of 0, or no chunk
    size with [n_workers = 0]: [ZeroDivisionError]), and otherwise when
    [n_workers] is below 1 (the error of [Pool]). *)
Theorem optimize_portfolio_rejects_bad_parameters :
  forall (depth : nat) (worker_rng : nat -> rng) (prices : DataFrame Q)
         (n_select n_simulations : nat) (n_workers : Z)
         (chunk_size : option Z),
    (chunk_size = Some 0%Z \/ (chunk_size = None /\ n_workers = 0%Z) ->
     optimize_portfolio depth worker_rng prices n_select n_simulations
                        n_workers chunk_size
     = Raise ZeroDivisionError)
    /\ ((n_workers < 1)%Z ->
        ~ (chunk_size = Some 0%Z \/ (chunk_size = None /\ n_workers = 0%Z)) ->
        optimize_portfolio depth worker_rng prices n_select n_simulations
                           n_workers chunk_size
        = Raise (ValueError "Number of processes must be at least 1")).
Proof.
  intros depth worker_rng prices n k nw cs. split.
  - intros [->|[-> ->]]; reflexivity.
  - intros Hw Hnot.
    destruct (split_into_chunks_total
                (get_stock_combinations (columns prices) n) nw cs)
      as [chunks Hsplit].
    { destruct cs as [c|]; intros ->; apply Hnot; auto. }
    unfold optimize_portfolio. simpl bind. rewrite Hsplit. simpl bind.
    destruct (Z.ltb_spec nw 1) as [_|Hge]; [reflexivity|lia].
Qed.

Lemma optimize_portfolio_rejects_bad_parameters_witness :
  optimize_portfolio 1 (fun _ => uneven_stream) seven_prices 6 1 0 None
  = Raise ZeroDivisionError
  /\ optimize_portfolio 1 (fun _ => uneven_stream) seven_prices 6 1 (-2)
       None
     = Raise (ValueError "Number of processes must be at least 1").
Proof.
  split.
  - apply (optimize_portfolio_rejects_bad_parameters 1
             (fun _ => uneven_stream) seven_prices 6 1 0 None).
    right. split; reflexivity.
  - apply (optimize_portfolio_rejects_bad_parameters 1
             (fun _ => uneven_stream) seven_prices 6 1 (-2) None).
    + lia.
    + intros [H|[_ H]]; discriminate.
Defined.

(** ** The size of the chunks *)

Lemma section_sizes_In_remainder (Ntotal Nsections s : nat) :
  In s (section_sizes Ntotal Nsections) ->
  s = Ntotal / Nsections
  \/ (s = S (Ntotal / Nsections) /\ Ntotal mod Nsections <> 0).
Proof.
  unfold section_sizes. intros H. apply in_app_or in H.
  destruct H as [H|H].
  - right. destruct (Ntotal mod Nsections) as [|r]; [destruct H|].
    apply repeat_spec in H. split; [exact H|discriminate].
  - left. apply repeat_spec in H. exact H.
Qed.

(** X10: the chunk size, given by the caller or computed, is a lower
    bound on the length of the chunks, not an upper bound: when there are
    at least [chunk_size >= 1] combinations, every chunk holds at least
    [chunk_size] and fewer than twice [chunk_size] of them. *)
Theorem chunks_hold_at_least_chunk_size :
  forall (A : Type) (combinations : list A) (n_workers : Z)
         (chunk_size : option Z) (c : Z) (chunks : list (list A)),
    chunk_size = Some c
    \/ (chunk_size = None
        /\ auto_chunk_size (Z.of_nat (length combinations)) n_workers
           = Ok c) ->
    (1 <= c <= Z.of_nat (length combinations))%Z ->
    split_into_chunks combinations n_workers chunk_size = Ok chunks ->
    forall chunk, In chunk chunks ->
      (c <= Z.of_nat (length chunk) < 2 * c)%Z.
Proof.
  intros A l nw cs c chunks Hcs Hc Hsplit chunk Hin.
  assert (Hn : split_into_chunks l nw (Some c) = Ok chunks).
  { destruct Hcs as [->|[-> Hauto]]; [exact Hsplit|].
    unfold split_into_chunks in *. rewrite Hauto in Hsplit. exact Hsplit. }
  clear Hsplit Hcs. unfold split_into_chunks, n_chunks_for, floordiv in Hn.
  simpl bind in Hn.
  destruct (Z.eqb_spec c 0) as [H0|_]; [lia|]. simpl bind in Hn.
  set (T := length l) in *.
  set (c' := Z.to_nat c).
  assert (Hc' : c = Z.of_nat c') by (unfold c'; lia).
  assert (Hq : Z.max 1 (Z.of_nat T / c) = Z.of_nat (T / c')).
  { rewrite Hc'. rewrite <- Nat2Z.inj_div.
    assert (1 <= T / c').
    { apply Nat.div_le_lower_bound; lia. }
    lia. }
  rewrite Hq in Hn. unfold array_split in Hn.
  destruct (Z.leb_spec (Z.of_nat (T / c')) 0) as [Hle|Hgt].
  { assert (1 <= T / c') by (apply Nat.div_le_lower_bound; lia). lia. }
  injection Hn as <-. rewrite Nat2Z.id in Hin. fold T in Hin.
  set (n := T / c') in *.
  assert (Hn1 : 1 <= n) by lia.
  apply split_at_sizes_In in Hin;
    [|rewrite section_sizes_sum by lia; fold T; lia].
  apply section_sizes_In_remainder in Hin.
  pose proof (Nat.div_mod_eq T c') as Hdiv. fold n in Hdiv.
  pose proof (Nat.mod_upper_bound T c' ltac:(lia)) as Hmod.
  pose proof (Nat.div_mod_eq T n) as Hdivn.
  pose proof (Nat.mod_upper_bound T n ltac:(lia)) as Hmodn.
  fold T in Hin.
  assert (Hlow : c' <= T / n).
  { apply Nat.div_le_lower_bound; [lia|]. rewrite Nat.mul_comm in Hdiv.
    nia. }
  destruct Hin as [Hs|[Hs Hr]]; rewrite Hs, Hc'; nia.
Qed.

Lemma chunks_hold_at_least_chunk_size_witness :
  split_into_chunks (seq 0 11) 1 (Some 4%Z)
  = Ok [[0; 1; 2; 3; 4; 5]; [6; 7; 8; 9; 10]]
  /\ (4 <= Z.of_nat (length [0; 1; 2; 3; 4; 5]%nat) < 2 * 4)%Z
  /\ (4 <= Z.of_nat (length [6; 7; 8; 9; 10]%nat) < 2 * 4)%Z.
Proof.
  assert (H : split_into_chunks (seq 0 11) 1 (Some 4%Z)
              = Ok [[0; 1; 2; 3; 4; 5]; [6; 7; 8; 9; 10]])
    by reflexivity.
  assert (Hc : (1 <= 4 <= Z.of_nat (length (seq 0 11)))%Z)
    by (simpl; lia).
  split; [exact H|].
  split;
    apply (chunks_hold_at_least_chunk_size nat (seq 0 11) 1 (Some 4%Z) 4%Z
             [[0; 1; 2; 3; 4; 5]; [6; 7; 8; 9; 10]]
             (or_introl eq_refl) Hc H);
    simpl; tauto.
Defined.

(** ** An empty selection *)

Lemma random_rows_no_columns (rows : nat) :
  forall s, random_rows s rows 0 = repeat [] rows.
Proof.
  induction rows as [|rows IH]; intros s; simpl; [reflexivity|].
  rewrite IH. reflexivity.
Qed.

Lemma filter_repeat_true {A : Type} (f : A -> bool) (x : A) (n : nat) :
  f x = true -> filter f (repeat x n) = repeat x n.
Proof.
  intros H. induction n as [|n IH]; simpl; [reflexivity|].
  rewrite H, IH. reflexivity.
Qed.

Lemma firstn_repeat_le {A : Type} (x : A) (k : nat) :
  forall n, k <= n -> firstn k (repeat x n) = repeat x k.
Proof.
  induction k as [|k IH]; intros n Hn; [reflexivity|].
  destruct n as [|n]; [lia|]. simpl. rewrite IH by lia. reflexivity.
Qed.

Lemma generate_valid_weights_no_columns (depth : nat) (s : rng)
    (n_simulations : nat) :
  n_simulations <= 10000 ->
  fst (generate_valid_weights (S depth) s 0 n_simulations)
  = Ok (repeat [] n_simulations).
Proof.
  intros Hk. cbn [generate_valid_weights]. unfold np_random_random.
  rewrite random_rows_no_columns, map_repeat.
  change (normalize_row []) with (@nil float).
  rewrite filter_repeat_true by reflexivity.
  rewrite repeat_length.
  set (target := Nat.min (n_simulations * 3) 10000).
  assert (Ht : n_simulations <= target) by (unfold target; lia).
  destruct (Nat.ltb_spec target n_simulations) as [Hlt|_]; [lia|].
  simpl. rewrite firstn_repeat_le by exact Ht. reflexivity.
Qed.

(** X11: with [n_select = 0] the only combination is the empty one; it is
    not rejected: for 1 to 10000 simulations and a recursion depth of at
    least one, the sequential path returns a portfolio without stocks or
    weights whose annual return and volatility are zero and whose Sharpe
    ratio is NaN. *)
Theorem empty_selection_returns_nan_portfolio :
  forall (depth : nat) (s : rng) (prices : DataFrame Q)
         (n_simulations : nat),
    1 <= n_simulations <= 10000 ->
    exists p,
      optimize_portfolio_sequential (S depth) s prices 0 n_simulations
      = Ok p
      /\ stocks p = []
      /\ weights p = []
      /\ annual_return p = Fin 0
      /\ r_is_zero (annual_volatility p) = true
      /\ r_is_nan (sharpe_ratio p) = true.
Proof.
  intros depth s prices k [Hk1 Hk2].
  rewrite optimize_portfolio_sequential_unfold.
  replace (get_stock_combinations (columns prices) 0) with [@nil string]
    by (unfold get_stock_combinations; destruct (columns prices);
        reflexivity).
  cbn [process_combinations lookup_columns].
  unfold process_stock_combination, process_stock_combination_try.
  cbn [select_columns forallb length].
  pose proof (generate_valid_weights_no_columns depth s k Hk2) as Hg.
  destruct (generate_valid_weights (S depth) s 0 k) as [res s'].
  simpl in Hg. subst res.
  destruct k as [|k]; [lia|]. cbn [repeat].
  eexists. split; [reflexivity|].
  repeat split; reflexivity.
Qed.

Lemma empty_selection_returns_nan_portfolio_witness :
  exists p,
    optimize_portfolio_sequential 1 uneven_stream seven_prices 0 2 = Ok p
    /\ stocks p = []
    /\ r_is_nan (sharpe_ratio p) = true.
Proof.
  destruct (empty_selection_returns_nan_portfolio 0 uneven_stream
              seven_prices 2) as (p & H1 & H2 & _ & _ & _ & H3).
  - split; [lia|]. apply Nat.leb_le. vm_compute. reflexivity.
  - exists p. auto.
Defined.

(** ** The portfolio variance is never negative *)









(** ** Ties in the reduction *)

Lemma py_max_from_first (rest : list Portfolio) :
  forall best,
    (forall p, In p (best :: rest) -> r_is_nan (sharpe_ratio p) = false) ->
    exists pre post,
      best :: rest = pre ++ py_max_from best rest :: post
      /\ (forall p, In p pre ->
            rgt_b (sharpe_ratio (py_max_from best rest)) (sharpe_ratio p)
            = true)
      /\ (forall p, In p post ->
            rle_b (sharpe_ratio p) (sharpe_ratio (py_max_from best rest))
            = true).
Proof.
  induction rest as [|x rest IH]; intros best Hnan.
  - exists [], []. simpl. repeat split; intros p [].
  - assert (Hx : r_is_nan (sharpe_ratio x) = false)
      by (apply Hnan; right; left; reflexivity).
    assert (Hb : r_is_nan (sharpe_ratio best) = false)
      by (apply Hnan; left; reflexivity).
    cbn [py_max_from].
    destruct (rgt_b (sharpe_ratio x) (sharpe_ratio best)) eqn:E.
    + destruct (IH x) as (pre & post & Heq & Hpre & Hpost).
      { intros p Hp. apply Hnan. right. exact Hp. }
      exists (best :: pre), post. split; [simpl; rewrite <- Heq; reflexivity|].
      split; [|exact Hpost].
      intros p [<-|Hp]; [|apply Hpre; exact Hp].
      destruct pre as [|y pre].
      * simpl in Heq. injection Heq as Hm _. rewrite <- Hm. exact E.
      * simpl in Heq. injection Heq as <- _.
        unfold rgt_b in *.
        apply (fle_b_fgt_b_trans _ (signed_square (sharpe_ratio x))).
        -- apply fgt_b_fle_b. exact E.
        -- apply Hpre. left. reflexivity.
    + assert (Hle : rle_b (sharpe_ratio x) (sharpe_ratio best) = true).
      { unfold rle_b, rgt_b in *. apply not_fgt_b_fle_b; assumption. }
      destruct (IH best) as (pre & post & Heq & Hpre & Hpost).
      { intros p [<-|Hp]; [exact Hb|]. apply Hnan. right. right. exact Hp. }
      destruct pre as [|y pre].
      * simpl in Heq. injection Heq as Hm Hrest.
        exists [], (x :: post).
        split; [simpl; rewrite <- Hm; do 2 f_equal; exact Hrest|].
        split; [intros p []|].
        intros p [<-|Hp]; [rewrite <- Hm; exact Hle|apply Hpost; exact Hp].
      * simpl in Heq. injection Heq as <- Hrest.
        exists (best :: x :: pre), post.
        split; [simpl; do 2 f_equal; exact Hrest|].
        split; [|exact Hpost].
        assert (Hgt : rgt_b (sharpe_ratio (py_max_from best rest))
                            (sharpe_ratio best) = true)
          by (apply Hpre; left; reflexivity).
        intros p [<-|[<-|Hp]]; [exact Hgt| |apply Hpre; right; exact Hp].
        unfold rle_b, rgt_b in *.
        apply (fle_b_fgt_b_trans _ (signed_square (sharpe_ratio best)));
          assumption.
Qed.

(** X13: when no collected record has a NaN Sharpe ratio, the reduction of
    both paths returns the first record of maximal Sharpe ratio: every
    record collected before it has a strictly smaller Sharpe ratio, every
    record collected after it a smaller or equal one. *)
Theorem reduction_returns_first_maximum :
  forall (results : list Portfolio)
         (chunk_results : list (list (option Portfolio))),
    results <> [] ->
    (forall p, In p results -> r_is_nan (sharpe_ratio p) = false) ->
    flatten_chunk_results chunk_results = results ->
    exists pre best post,
      results = pre ++ best :: post
      /\ reduce_sequential results = Ok best
      /\ reduce_parallel chunk_results = Ok best
      /\ (forall p, In p pre ->
            rgt_b (sharpe_ratio best) (sharpe_ratio p) = true)
      /\ (forall p, In p post ->
            rle_b (sharpe_ratio p) (sharpe_ratio best) = true).
Proof.
  intros [|first rest] chunk_results Hne Hnan Hflat; [congruence|].
  destruct (py_max_from_first rest first Hnan)
    as (pre & post & Heq & Hpre & Hpost).
  exists pre, (py_max_from first rest), post.
  split; [exact Heq|]. split; [reflexivity|].
  split; [|split; assumption].
  unfold reduce_parallel. rewrite Hflat. reflexivity.
Qed.

Lemma reduction_returns_first_maximum_witness :
  let a := record_with_sharpe "AAPL" (Fin 1) in
  let b := record_with_sharpe "AMGN" (Fin 2) in
  let c := record_with_sharpe "AXP" (Fin 2) in
  exists pre best post,
    [a; b; c] = pre ++ best :: post
    /\ reduce_sequential [a; b; c] = Ok best
    /\ best = b
    /\ (forall p, In p pre ->
          rgt_b (sharpe_ratio best) (sharpe_ratio p) = true)
    /\ (forall p, In p post ->
          rle_b (sharpe_ratio p) (sharpe_ratio best) = true).
Proof.
  intros a b c.
  destruct (reduction_returns_first_maximum [a; b; c]
              [[Some a; None]; [Some b; Some c]])
    as (pre & best & post & Heq & Hseq & _ & Hpre & Hpost).
  - discriminate.
  - intros p [<-|[<-|[<-|[]]]]; reflexivity.
  - reflexivity.
  - exists pre, best, post. repeat split; try assumption.
    assert (H : Ok best = Ok b) by (rewrite <- Hseq; reflexivity).
    injection H as H. exact H.
Defined.

(** ** When the batch evaluation can fail *)

(** X14: [find_best_portfolio_from_batch] returns a record for every
    non-empty batch whose weight vectors have one entry per returns
    column, whatever the values; it raises [ValueError] for an empty batch
    (argmax of an empty sequence) and for a batch with another number of
    columns, and nothing else. *)
Theorem find_best_portfolio_from_batch_total :
  forall (a wb : Matrix) (combination : list string),
    (mat_cols wb = mat_cols a -> mat_rows wb <> [] ->
     exists p best w,
       find_best_portfolio_from_batch a wb combination = Ok p
       /\ stocks p = combination
       /\ nth_error (mat_rows wb) best = Some w
       /\ weights p = dict_of_pairs (combine combination w))
    /\ (mat_cols wb = mat_cols a -> mat_rows wb = [] ->
        find_best_portfolio_from_batch a wb combination
        = Raise (ValueError "attempt to get argmax of an empty sequence"))
    /\ (mat_cols wb <> mat_cols a ->
        find_best_portfolio_from_batch a wb combination
        = Raise shape_error).
Proof.
  intros a wb c. split; [|split].
  - intros Hcols Hne. unfold find_best_portfolio_from_batch.
    pose proof (batch_total a wb Hcols) as Hok.
    destruct (calculate_portfolio_metrics_vectorized a wb)
      as [[[sharpe rets] vols]|e] eqn:Em; [|discriminate].
    destruct (batch_inversion a wb sharpe rets vols Em)
      as (Hl1 & Hl2 & Hl3 & _).
    cbn [bind].
    destruct (np_argmax_spec (Root NaN) sharpe) as [_ Harg].
    destruct Harg as (best & Hbest & Hlt & _).
    { intros ->. destruct (mat_rows wb); [congruence|discriminate]. }
    rewrite Hbest. cbn [bind]. unfold getitem.
    destruct (nth_error (mat_rows wb) best) as [w|] eqn:Ew;
      [|apply nth_error_None in Ew; lia].
    destruct (nth_error sharpe best) eqn:E1;
      [|apply nth_error_None in E1; lia].
    destruct (nth_error rets best) eqn:E2;
      [|apply nth_error_None in E2; lia].
    destruct (nth_error vols best) eqn:E3;
      [|apply nth_error_None in E3; lia].
    cbn [bind]. eexists _, best, w. repeat split. exact Ew.
  - intros Hcols Hnil. unfold find_best_portfolio_from_batch.
    pose proof (batch_total a wb Hcols) as Hok.
    destruct (calculate_portfolio_metrics_vectorized a wb)
      as [[[sharpe rets] vols]|e] eqn:Em; [|discriminate].
    destruct (batch_inversion a wb sharpe rets vols Em) as (Hl1 & _).
    rewrite Hnil in Hl1. destruct sharpe; [|discriminate]. reflexivity.
  - intros Hcols. unfold find_best_portfolio_from_batch,
      calculate_portfolio_metrics_vectorized, matvec.
    rewrite annual_mean_returns_length.
    destruct (Nat.eqb_spec (mat_cols wb) (mat_cols a)); [contradiction|].
    reflexivity.
Qed.

Lemma find_best_portfolio_from_batch_total_witness :
  (exists p,
     find_best_portfolio_from_batch two_asset_returns two_asset_batch
       ["AAPL"; "AMGN"] = Ok p
     /\ stocks p = ["AAPL"; "AMGN"])
  /\ find_best_portfolio_from_batch two_asset_returns
       {| mat_cols := 2; mat_rows := [] |} ["AAPL"; "AMGN"]
     = Raise (ValueError "attempt to get argmax of an empty sequence")
  /\ find_best_portfolio_from_batch two_asset_returns
       {| mat_cols := 3; mat_rows := [] |} ["AAPL"; "AMGN"]
     = Raise shape_error.
Proof.
  split; [|split].
  - destruct (find_best_portfolio_from_batch_total two_asset_returns
                two_asset_batch ["AAPL"; "AMGN"]) as [H _].
    destruct H as (p & best & w & Hp & Hs & _); [reflexivity|discriminate|].
    exists p. auto.
  - apply (find_best_portfolio_from_batch_total two_asset_returns
             {| mat_cols := 2; mat_rows := [] |} ["AAPL"; "AMGN"]);
      reflexivity.
  - apply (find_best_portfolio_from_batch_total two_asset_returns
             {| mat_cols := 3; mat_rows := [] |} ["AAPL"; "AMGN"]).
    simpl. discriminate.
Defined.

(** ** From prices to the returns matrix *)






(** ** Evaluating a stored portfolio again *)






(** ** Weights of the wrong length *)

(** X17: for a returns matrix with at least two columns and a weight
    vector of another length, the volatility, the Sharpe ratio and
    [evaluate_portfolio] raise [ValueError]; the portfolio return alone
    does not when the vector has a single entry, which NumPy broadcasts
    over all the columns. *)
Theorem wrong_length_weights :
  forall (a : Matrix) (w : list float),
    2 <= mat_cols a ->
    length w <> mat_cols a ->
    calculate_portfolio_volatility a w = Raise shape_error
    /\ calculate_sharpe_ratio a w = Raise shape_error
    /\ evaluate_portfolio a w = Raise shape_error
    /\ (is_ok (calculate_portfolio_return a w) = true <-> length w = 1)
    /\ (forall x, w = [x] ->
        calculate_portfolio_return a w
        = Ok (fsum (map (fun mean => fmul mean x) (annual_mean_returns a)))).
Proof.
  intros a w Hn Hlen.
  assert (Hvol : calculate_portfolio_volatility a w = Raise shape_error).
  { unfold calculate_portfolio_volatility, np_cov_T.
    destruct (mat_cols a) as [|[|n']] eqn:En; try lia.
    cbn [scale_cov quadratic_form]. rewrite !length_map, length_seq.
    destruct (Nat.eqb_spec (length w) (S (S n'))); [contradiction|].
    reflexivity. }
  assert (Hret : calculate_portfolio_return a w
                 = match w with
                   | [x] => Ok (fsum (map (fun mean => fmul mean x)
                                          (annual_mean_returns a)))
                   | _ => Raise shape_error
                   end).
  { unfold calculate_portfolio_return, broadcast_mul.
    pose proof (annual_mean_returns_length a) as Hmean.
    rewrite Hmean.
    destruct (Nat.eqb_spec (mat_cols a) (length w)) as [Heq|_];
      [congruence|].
    destruct (annual_mean_returns a) as [|m1 [|m2 means]];
      simpl in Hmean; try lia.
    destruct w as [|x [|y w]]; reflexivity. }
  assert (Hsh : calculate_sharpe_ratio a w = Raise shape_error).
  { unfold calculate_sharpe_ratio. rewrite Hret, Hvol.
    destruct w as [|x [|y w]]; reflexivity. }
  split; [exact Hvol|]. split; [exact Hsh|].
  split; [unfold evaluate_portfolio; rewrite Hsh; reflexivity|].
  split.
  - rewrite Hret. destruct w as [|x [|y w]]; simpl; split; intros H;
      try discriminate; reflexivity.
  - intros x ->. exact Hret.
Qed.

Lemma wrong_length_weights_witness :
  calculate_portfolio_volatility two_asset_returns [Fin 1]
  = Raise shape_error
  /\ is_ok (calculate_portfolio_return two_asset_returns [Fin 1]) = true.
Proof.
  destruct (wrong_length_weights two_asset_returns [Fin 1])
    as (H1 & _ & _ & H2 & _).
  - simpl. lia.
  - simpl. lia.
  - split; [exact H1|]. apply H2. reflexivity.
Defined.

(** ** Five assets *)

(** X18: with exactly five assets the cap of 0.2 leaves one weight vector
    only: every row that [generate_valid_weights] returns gives each asset
    the weight 0.2. *)
Theorem five_assets_only_equal_weights :
  forall (depth : nat) (s : rng) (n_simulations : nat)
         (res : list (list float)),
    in_unit_interval s ->
    fst (generate_valid_weights depth s 5 n_simulations) = Ok res ->
    forall row, In row res ->
      length row = 5
      /\ forall w, In w row -> feq w (Fin (2 # 10)).
Proof.
  intros depth s k res Hs Hrun row Hrow.
  destruct (generate_valid_weights depth s 5 k) as [r s'] eqn:Eg.
  simpl in Hrun. subst r.
  destruct (generate_valid_weights_rows depth s 5 k res s' Hs ltac:(lia)
              Eg row Hrow) as (ws & -> & Hl & Hb & Hsum).
  split; [rewrite length_map; exact Hl|].
  destruct ws as [|a [|b [|c [|d [|e [|f ws]]]]]]; simpl in Hl;
    try discriminate.
  pose proof (Hb a ltac:(simpl; tauto)) as [_ Ha].
  pose proof (Hb b ltac:(simpl; tauto)) as [_ Hb'].
  pose proof (Hb c ltac:(simpl; tauto)) as [_ Hc].
  pose proof (Hb d ltac:(simpl; tauto)) as [_ Hd].
  pose proof (Hb e ltac:(simpl; tauto)) as [_ He].
  unfold Qsum in Hsum. simpl in Hsum.
  intros w Hw. simpl in Hw.
  destruct Hw as [<-|[<-|[<-|[<-|[<-|[]]]]]]; simpl; lra.
Qed.

Lemma five_assets_only_equal_weights_witness :
  exists res row,
    fst (generate_valid_weights 1 (fun _ => (1 # 2)%Q) 5 2) = Ok res
    /\ nth_error res 1 = Some row
    /\ length row = 5
    /\ forall w, In w row -> feq w (Fin (2 # 10)).
Proof.
  assert (E : exists res row,
            fst (generate_valid_weights 1 (fun _ => (1 # 2)%Q) 5 2) = Ok res
            /\ nth_error res 1 = Some row).
  { vm_compute. eexists _, _. split; reflexivity. }
  destruct E as (res & row & Hres & Hrow).
  assert (Hs : in_unit_interval (fun _ => (1 # 2)%Q)).
  { intros i. unfold Qle, Qlt. simpl. lia. }
  destruct (five_assets_only_equal_weights 1 (fun _ => (1 # 2)%Q) 2 res
              Hs Hres row (nth_error_In _ _ Hrow)) as [Hlen Hw].
  exists res, row. auto.
Defined.

(** ** Result files *)

Lemma ascii_compare_refl (c : Ascii.ascii) : Ascii.compare c c = Eq.
Proof. unfold Ascii.compare. apply N.compare_refl. Qed.

Lemma string_compare_refl (s : string) : String.compare s s = Eq.
Proof.
  induction s as [|c s IH]; simpl; [reflexivity|].
  rewrite ascii_compare_refl. exact IH.
Qed.

Lemma string_compare_append_l (p a b : string) :
  String.compare (p ++ a) (p ++ b) = String.compare a b.
Proof.
  induction p as [|c p IH]; simpl; [reflexivity|].
  rewrite ascii_compare_refl. exact IH.
Qed.

Lemma string_compare_append_r (s : string) :
  forall a b,
    String.length a = String.length b ->
    String.compare (a ++ s) (b ++ s) = String.compare a b.
Proof.
  induction a as [|c a IH]; intros [|d b] Hlen; simpl in *;
    try discriminate.
  - apply string_compare_refl.
  - rewrite IH by lia. reflexivity.
Qed.

Lemma string_leb_trans (a : string) :
  forall b c,
    String.leb a b = true -> String.leb b c = true ->
    String.leb a c = true.
Proof.
  unfold String.leb.
  induction a as [|x a IH]; intros [|y b] [|z c]; simpl; auto;
    try discriminate.
  intros H1 H2.
  destruct (Ascii.compare x y) eqn:E1; try discriminate H1;
    destruct (Ascii.compare y z) eqn:E2; try discriminate H2;
    destruct (Ascii.compare x z) eqn:E3; auto;
    unfold Ascii.compare in *;
    repeat match goal with
           | H : (_ ?= _)%N = Eq |- _ => rewrite N.compare_eq_iff in H
           | H : (_ ?= _)%N = Lt |- _ => rewrite N.compare_lt_iff in H
           | H : (_ ?= _)%N = Gt |- _ => rewrite N.compare_gt_iff in H
           end;
    first [ exact (IH b c H1 H2) | exfalso; lia ].
Qed.

Lemma string_ltb_leb (a b : string) :
  String.ltb a b = true -> String.leb a b = true.
Proof.
  unfold String.ltb, String.leb. destruct (String.compare a b);
    auto; discriminate.
Qed.

Lemma string_not_ltb_leb (a b : string) :
  String.ltb a b = false -> String.leb b a = true.
Proof.
  unfold String.ltb, String.leb. rewrite (String.compare_antisym a b).
  destruct (String.compare b a); simpl; auto; discriminate.
Qed.

Lemma string_leb_refl (a : string) : String.leb a a = true.
Proof. unfold String.leb. rewrite string_compare_refl. reflexivity. Qed.

Lemma py_max_string_from_spec (rest : list string) :
  forall best,
    In (py_max_string_from best rest) (best :: rest)
    /\ forall g, In g (best :: rest) ->
         String.leb g (py_max_string_from best rest) = true.
Proof.
  induction rest as [|x rest IH]; intros best; cbn [py_max_string_from].
  - split; [left; reflexivity|].
    intros g [<-|[]]. apply string_leb_refl.
  - destruct (String.ltb best x) eqn:E.
    + destruct (IH x) as [Hin Hmax]. split; [right; exact Hin|].
      intros g [<-|Hg]; [|apply Hmax; exact Hg].
      apply (string_leb_trans _ x); [apply string_ltb_leb; exact E|].
      apply Hmax. left. reflexivity.
    + destruct (IH best) as [Hin Hmax]. split.
      * destruct Hin as [Hin|Hin]; [left; exact Hin|right; right; exact Hin].
      * intros g [<-|[<-|Hg]].
        -- apply Hmax. left. reflexivity.
        -- apply (string_leb_trans _ best);
             [apply string_not_ltb_leb; exact E|].
           apply Hmax. left. reflexivity.
        -- apply Hmax. right. exact Hg.
Qed.

Lemma prefix_append (p s : string) : prefix p (p ++ s) = true.
Proof.
  induction p as [|c p IH]; simpl; [destruct s; reflexivity|].
  destruct (Ascii.ascii_dec c c) as [_|Hne]; [exact IH|congruence].
Qed.

Lemma string_length_append (a b : string) :
  String.length (a ++ b) = String.length a + String.length b.
Proof. induction a as [|c a IH]; simpl; [reflexivity|]. rewrite IH. lia. Qed.

Lemma substring_whole (s : string) : substring 0 (String.length s) s = s.
Proof. induction s as [|c s IH]; simpl; [reflexivity|]. rewrite IH. reflexivity. Qed.

Lemma substring_append (a s : string) :
  substring (String.length a) (String.length s) (a ++ s) = s.
Proof.
  induction a as [|c a IH]; simpl; [apply substring_whole|exact IH].
Qed.

Lemma endswith_append (a s : string) : endswith (a ++ s) s = true.
Proof.
  unfold endswith. rewrite string_length_append.
  apply andb_true_iff. split; [apply Nat.leb_le; lia|].
  replace (String.length a + String.length s - String.length s)
    with (String.length a) by lia.
  rewrite substring_append. apply String.eqb_refl.
Qed.

Lemma results_file_name_accepted (timestamp : string) :
  startswith (results_file_name timestamp) "portfolio_results_"
  && endswith (results_file_name timestamp) ".json" = true.
Proof.
  unfold results_file_name, startswith.
  rewrite prefix_append.
  change ("portfolio_results_" ++ timestamp ++ ".json")%string
    with (("portfolio_results_" ++ timestamp) ++ ".json")%string at 1.
  rewrite endswith_append. reflexivity.
Qed.

Lemma latest_results_file_cases (listing : list string) :
  let accepted f :=
    startswith f "portfolio_results_" && endswith f ".json" in
  (filter accepted listing = [] /\
   latest_results_file listing
   = inr (FileNotFoundError "No portfolio result files found."))
  \/ (exists f,
        latest_results_file listing = inl f
        /\ In f listing /\ accepted f = true
        /\ forall g, In g listing -> accepted g = true ->
             String.leb g f = true).
Proof.
  intros accepted. unfold latest_results_file. fold accepted.
  destruct (filter accepted listing) as [|first rest] eqn:Ef.
  - left. split; reflexivity.
  - right. exists (py_max_string_from first rest).
    destruct (py_max_string_from_spec rest first) as [Hin Hmax].
    rewrite <- Ef in Hin. apply filter_In in Hin.
    split; [reflexivity|]. split; [apply Hin|]. split; [apply Hin|].
    intros g Hg Hacc. apply Hmax. rewrite <- Ef. apply filter_In. auto.
Qed.



(** X20: a file saved by [save_results] is accepted by
    [load_latest_portfolio]; and when every accepted name in the directory
    was saved under a timestamp of the same length, as [strftime] with
    the format of main.py gives, the file that is opened is the one saved
    under the greatest timestamp. *)
Theorem latest_results_file_is_greatest_timestamp :
  forall (listing : list string) (timestamp : string),
    In (results_file_name timestamp) listing ->
    (forall f, In f listing ->
       startswith f "portfolio_results_" && endswith f ".json" = true ->
       exists t, f = results_file_name t
                 /\ String.length t = String.length timestamp
                 /\ String.leb t timestamp = true) ->
    startswith (results_file_name timestamp) "portfolio_results_"
    && endswith (results_file_name timestamp) ".json" = true
    /\ latest_results_file listing = inl (results_file_name timestamp).
Proof.
  intros listing ts Hin Hall.
  pose proof (results_file_name_accepted ts) as Hacc.
  split; [exact Hacc|].
  destruct (latest_results_file_cases listing)
    as [[Hnil _]|(f & Hf & Hfin & Hfacc & Hmax)].
  - assert (H : In (results_file_name ts)
                   (filter (fun f => startswith f "portfolio_results_"
                                     && endswith f ".json") listing))
      by (apply filter_In; auto).
    rewrite Hnil in H. destruct H.
  - rewrite Hf. f_equal. apply String.leb_antisym.
    + destruct (Hall f Hfin Hfacc) as (t & -> & Hlen & Hle).
      unfold String.leb, results_file_name in *.
      rewrite string_compare_append_l, string_compare_append_r by exact Hlen.
      exact Hle.
    + apply Hmax; assumption.
Qed.

Lemma latest_results_file_is_greatest_timestamp_witness :
  latest_results_file
    [results_file_name "20250102_090000"; "data.csv";
     results_file_name "20250103_080000"]
  = inl "portfolio_results_20250103_080000.json".
Proof.
  apply (latest_results_file_is_greatest_timestamp
           [results_file_name "20250102_090000"; "data.csv";
            results_file_name "20250103_080000"] "20250103_080000").
  - simpl. tauto.
  - intros f [<-|[<-|[<-|[]]]] Hacc.
    + exists "20250102_090000". repeat split.
    + discriminate Hacc.
    + exists "20250103_080000". repeat split.
Defined.

(** ** Chunks as a partition *)

(** X21: whenever the chunking succeeds, for a computed or a given chunk
    size, the chunks are a partition of the combinations that keeps their
    order: concatenated they give the list back, and there are
    [max(1, total // chunk_size)] of them. *)
Theorem chunking_is_an_ordered_partition :
  forall (A : Type) (combinations : list A) (n_workers : Z)
         (chunk_size : option Z) (chunks : list (list A)),
    split_into_chunks combinations n_workers chunk_size = Ok chunks ->
    concat chunks = combinations
    /\ 1 <= length chunks
    /\ forall c,
         chunk_size = Some c
         \/ (chunk_size = None
             /\ auto_chunk_size (Z.of_nat (length combinations)) n_workers
                = Ok c) ->
         Z.of_nat (length chunks)
         = Z.max 1 (Z.of_nat (length combinations) / c).
Proof.
  intros A l nw cs chunks Hsplit.
  split; [exact (split_into_chunks_concat l nw cs chunks Hsplit)|].
  assert (Hlen : forall c,
            split_into_chunks l nw (Some c) = Ok chunks ->
            Z.of_nat (length chunks) = Z.max 1 (Z.of_nat (length l) / c)).
  { intros c Hc. unfold split_into_chunks, n_chunks_for, floordiv in Hc.
    simpl bind in Hc.
    destruct (c =? 0)%Z; [discriminate|]. simpl bind in Hc.
    unfold array_split in Hc.
    destruct (Z.leb_spec (Z.max 1 (Z.of_nat (length l) / c)) 0)
      as [Hle|Hgt]; [discriminate|].
    injection Hc as <-.
    rewrite split_at_sizes_length, section_sizes_length by lia. lia. }
  assert (Hsome : exists c, split_into_chunks l nw (Some c) = Ok chunks).
  { destruct cs as [c|]; [exists c; exact Hsplit|].
    unfold split_into_chunks in Hsplit.
    destruct (auto_chunk_size (Z.of_nat (length l)) nw) as [c|e] eqn:Ea;
      [|discriminate].
    exists c. exact Hsplit. }
  split.
  - destruct Hsome as [c Hc]. apply Hlen in Hc. lia.
  - intros c [->|[-> Hauto]]; apply Hlen; [exact Hsplit|].
    unfold split_into_chunks in *. rewrite Hauto in Hsplit. exact Hsplit.
Qed.

Lemma chunking_is_an_ordered_partition_witness :
  exists chunks,
    split_into_chunks (seq 0 11) 1 (Some 4%Z) = Ok chunks
    /\ concat chunks = seq 0 11
    /\ Z.of_nat (length chunks) = 2%Z.
Proof.
  exists [[0; 1; 2; 3; 4; 5]; [6; 7; 8; 9; 10]].
  assert (H : split_into_chunks (seq 0 11) 1 (Some 4%Z)
              = Ok [[0; 1; 2; 3; 4; 5]; [6; 7; 8; 9; 10]])
    by reflexivity.
  destruct (chunking_is_an_ordered_partition nat (seq 0 11) 1 (Some 4%Z)
              _ H) as (Hc & _ & Hn).
  split; [exact H|]. split; [exact Hc|].
  rewrite (Hn 4%Z) by (left; reflexivity). reflexivity.
Defined.
